(** * Malaysian tax input program: [functions.py]

    A shallow embedding of [verify_user], [calculate_tax], [save_to_csv] and
    [read_from_csv], with the properties of the tax calculator stated over
    IEEE 754 binary64 arithmetic, the arithmetic of Python's [float]. *)

From Stdlib Require Import ZArith Bool String List Lia.
From Stdlib Require Import SpecFloat.
Import ListNotations.
Local Open Scope Z_scope.

(** ** Python floats

    A Python [float] is an IEEE 754 binary64 number.  The operations are the
    ones of the Standard Library's executable specification [SpecFloat],
    instantiated at 53 bits of precision and exponent bound 1024. *)
Module Binary64.

Definition prec : Z := 53.
Definition emax : Z := 1024.

Definition float : Type := spec_float.

Definition fadd : float -> float -> float := SFadd prec emax.
Definition fsub : float -> float -> float := SFsub prec emax.
Definition fmul : float -> float -> float := SFmul prec emax.
Definition fdiv : float -> float -> float := SFdiv prec emax.
Definition fleb : float -> float -> bool := SFleb.
Definition fltb : float -> float -> bool := SFltb.
Definition feqb : float -> float -> bool := SFeqb.

(** The float nearest to an integer (ties to even); exact below 2^53. *)
Definition of_Z (z : Z) : float := binary_normalize prec emax z 0 false.

(** Well-formed binary64 values: canonical mantissa and exponent. *)
Definition valid (x : float) : bool := valid_binary prec emax x.

Definition zero : float := S754_zero false.
Definition pinf : float := S754_infinity false.

(** A decimal literal [n/100] of the source, such as [0.01]: the float
    nearest to that decimal, which the correctly rounded quotient of the two
    exactly representable integers yields. *)
Definition dec2 (n : Z) : float := fdiv (of_Z n) (of_Z 100).

Definition is_nan (x : float) : bool :=
  match x with S754_nan => true | _ => false end.

Definition is_finite (x : float) : bool :=
  match x with S754_zero _ | S754_finite _ _ _ => true | _ => false end.

End Binary64.
Import Binary64.

(** ** Python values, exceptions and builtins *)

(** A Python [str] is a sequence of Unicode code points. *)
Definition pychar : Type := N.
Definition pystr : Type := list pychar.

Inductive pyobj : Type :=
| PyNone
| PyBool (b : bool)
| PyInt (z : Z)
| PyFloat (f : float)
| PyStr (s : pystr).

Inductive exn : Type :=
| TypeError (msg : string)
| ValueError (msg : string)
| OverflowError (msg : string)
| OtherException (name : string).

Inductive result (A : Type) : Type :=
| Return (a : A)
| Raise (e : exn).
Arguments Return {A} a.
Arguments Raise {A} e.

Definition bind {A B : Type} (r : result A) (k : A -> result B) : result B :=
  match r with
  | Return a => k a
  | Raise e => Raise e
  end.

(** [try: body except Exception: raise e]. *)
Definition try_except {A : Type} (body : result A) (e : exn) : result A :=
  match body with
  | Return a => Return a
  | Raise _ => Raise e
  end.

(** [max(a, b)] and [min(a, b)] keep the first argument unless the second is
    strictly greater, respectively strictly smaller. *)
Definition py_max (a b : float) : float := if fltb a b then b else a.
Definition py_min (a b : float) : float := if fltb b a then b else a.

(** Quotient of [n] by [d > 0] rounded to the nearest integer, ties to even. *)
Definition round_half_even_div (n d : Z) : Z :=
  let q := n / d in
  let r := n mod d in
  match 2 * r ?= d with
  | Lt => q
  | Gt => q + 1
  | Eq => if Z.even q then q else q + 1
  end.

(** The integer nearest (ties to even) to [100 * m * 2^e]. *)
Definition scaled_hundredths (m : positive) (e : Z) : Z :=
  match e with
  | Zneg p => round_half_even_div (Zpos m * 100) (Z.pow_pos 2 p)
  | _ => Zpos m * 100 * 2 ^ e
  end.

(** [round(x, 2)] on a float.  CPython prints the exact binary value with two
    correctly rounded decimals (ties to even) and reads that decimal back as
    the nearest float; infinities, NaN and zeros are returned unchanged, and a
    result that does not fit raises [OverflowError]. *)
Definition py_round2 (x : float) : result float :=
  match x with
  | S754_finite s m e =>
      match scaled_hundredths m e with
      | Zpos n =>
          match fdiv (S754_finite s n 0) (S754_finite false 100 0) with
          | S754_infinity _ =>
              Raise (OverflowError "rounded value too large to represent")
          | y => Return y
          end
      | _ => Return (S754_zero s)
      end
  | _ => Return x
  end.

(** ** The stored records

    The record store is the file system: a partial map from file names to
    the rows of a CSV file. *)
Inductive csv_row : Type :=
| Header (columns : list pystr)
| Row (cells : list pyobj).

Definition csv_file : Type := list csv_row.

Record World : Type := { files : pystr -> option csv_file }.

Definition IO (A : Type) : Type := World -> A * World.

Definition io_ret {A : Type} (a : A) : IO A := fun w => (a, w).

Definition io_bind {A B : Type} (m : IO A) (k : A -> IO B) : IO B :=
  fun w => let (a, w') := m w in k a w'.

Fixpoint pystr_eqb (s t : pystr) : bool :=
  match s, t with
  | [], [] => true
  | c :: s', d :: t' => N.eqb c d && pystr_eqb s' t'
  | _, _ => false
  end.

Definition os_path_exists (filename : pystr) : IO bool :=
  fun w => (match files w filename with Some _ => true | None => false end, w).

Definition write_file (filename : pystr) (content : csv_file) : IO unit :=
  fun w =>
    (tt, {| files := fun f => if pystr_eqb f filename then Some content
                              else files w f |}).

Section Runtime.

(** The parts of the Python runtime and of pandas that the program calls:
    the Unicode digit test [str.isdigit] on one character, [float] on a
    string, and [pandas.read_csv]. *)
Variable str_isdigit : pychar -> bool.
Variable float_of_str : pystr -> option float.
Variable DataFrame : Type.
Variable pd_read_csv : pystr -> World -> result DataFrame.

(** [float(o)]. *)
Definition py_float (o : pyobj) : result float :=
  match o with
  | PyFloat f => Return f
  | PyInt z =>
      match of_Z z with
      | S754_infinity _ => Raise (OverflowError "int too large to convert to float")
      | f => Return f
      end
  | PyBool b => Return (of_Z (if b then 1 else 0))
  | PyStr s =>
      match float_of_str s with
      | Some f => Return f
      | None => Raise (ValueError "could not convert string to float")
      end
  | PyNone => Raise (TypeError "float() argument must be a string or a real number")
  end.

(** ** [verify_user] *)

(** [s[-4:]]. *)
Definition last4 (s : pystr) : pystr := skipn (length s - 4) s.

Definition verify_user (ic_number password : pyobj) : bool :=
  match ic_number, password with
  | PyStr ic_number, PyStr password =>
      let ic_clean := filter str_isdigit ic_number in
      if negb (Nat.eqb (length ic_clean) 12) then false
      else pystr_eqb password (last4 ic_clean)
  | _, _ => false
  end.

(** ** [calculate_tax] *)

(** The rows [(upper_limit, base_tax, rate_on_excess)] of the source.  The
    integer entries are used in float arithmetic only; all of them are
    below 2^53, so their conversion is exact. *)
Definition brackets : list (float * float * float) :=
  [ (of_Z 5000,    of_Z 0,      dec2 0);
    (of_Z 20000,   of_Z 0,      dec2 1);
    (of_Z 35000,   of_Z 150,    dec2 3);
    (of_Z 50000,   of_Z 600,    dec2 6);
    (of_Z 70000,   of_Z 1500,   dec2 11);
    (of_Z 100000,  of_Z 3700,   dec2 19);
    (of_Z 400000,  of_Z 9400,   dec2 25);
    (of_Z 600000,  of_Z 84400,  dec2 26);
    (of_Z 2000000, of_Z 136400, dec2 28);
    (pinf,         of_Z 528400, dec2 30) ].

(** The [for] loop with its [break], from the state [(tax, lower)]. *)
Fixpoint tax_loop (chargeable : float) (bs : list (float * float * float))
         (tax lower : float) : float :=
  match bs with
  | [] => tax
  | (upper, base, rate) :: rest =>
      if fleb chargeable lower then tax
      else
        let taxable_in_band := fsub (py_min chargeable upper) lower in
        let incremental :=
          if feqb rate zero then zero else fmul taxable_in_band rate in
        tax_loop chargeable rest (fadd tax incremental) upper
  end.

Definition not_numeric : exn :=
  ValueError "Income and tax_relief must be numeric.".

Definition calculate_tax (income tax_relief : pyobj) : result float :=
  bind (try_except
          (bind (py_float income) (fun income =>
           bind (py_float tax_relief) (fun tax_relief =>
           Return (income, tax_relief))))
          not_numeric)
       (fun '(income, tax_relief) =>
          let chargeable := py_max zero (fsub income tax_relief) in
          let tax := tax_loop chargeable brackets zero zero in
          py_round2 tax).

(** ** The reference computation of the specification

    The ten-band table of upper bounds and marginal rates, and the
    accumulation that adds [(min(chargeable, u) - lower) * r] per band. *)
Definition band_table : list (float * float) :=
  [ (of_Z 5000, dec2 0); (of_Z 20000, dec2 1); (of_Z 35000, dec2 3);
    (of_Z 50000, dec2 6); (of_Z 70000, dec2 11); (of_Z 100000, dec2 19);
    (of_Z 400000, dec2 25); (of_Z 600000, dec2 26); (of_Z 2000000, dec2 28);
    (pinf, dec2 30) ].

Fixpoint reference_bands (chargeable : float) (bands : list (float * float))
         (total lower : float) : float :=
  match bands with
  | [] => total
  | (u, r) :: rest =>
      if fleb chargeable lower then total
      else reference_bands chargeable rest
             (fadd total (fmul (fsub (py_min chargeable u) lower) r)) u
  end.

Definition reference_tax (income relief : pyobj) : result float :=
  match py_float income, py_float relief with
  | Return i, Return r =>
      py_round2 (reference_bands (py_max zero (fsub i r)) band_table zero zero)
  | _, _ => Raise not_numeric
  end.

(** The table in exact arithmetic: upper bounds in ringgit, rates in
    percent.  [exact_cumulative_cents k] is one hundred times the tax on
    the bands [0 .. k], each taken at its full width. *)
Definition exact_bands : list (Z * Z) :=
  [ (5000, 0); (20000, 1); (35000, 3); (50000, 6); (70000, 11);
    (100000, 19); (400000, 25); (600000, 26); (2000000, 28) ].

Fixpoint exact_cumulative_from (lower : Z) (bands : list (Z * Z)) (k : nat) : Z :=
  match bands with
  | [] => 0
  | (u, pct) :: rest =>
      (u - lower) * pct +
      match k with
      | O => 0
      | S k' => exact_cumulative_from u rest k'
      end
  end.

Definition exact_cumulative_cents (k : nat) : Z :=
  exact_cumulative_from 0 exact_bands k.

(** ** [save_to_csv] and [read_from_csv] *)

Definition save_to_csv (data : list (pystr * pyobj)) (filename : pystr) : IO unit :=
  fun w =>
    match files w filename with
    | Some rows => write_file filename (rows ++ [Row (map snd data)]) w
    | None => write_file filename [Header (map fst data); Row (map snd data)] w
    end.

Definition read_from_csv (filename : pystr) : IO (result (option DataFrame)) :=
  io_bind (os_path_exists filename) (fun present =>
    if negb present then io_ret (Return None)
    else fun w =>
      match pd_read_csv filename w with
      | Return df => (Return (Some df), w)
      | Raise _ => (Return None, w)
      end).

End Runtime.

Definition strip_base (b : float * float * float) : float * float :=
  let '(upper, _, rate) := b in (upper, rate).

(** * Values and positions of floats

    Exact values are integers in units of [2^-K]; [rnd] is rounding to
    nearest, ties to even, in binary64; [ord] places a float on the
    extended number line. *)

Definition K : Z := 2148.

Definition mag (W : Z) : Z := Z.log2 W + 1.

Definition texp (W : Z) : Z := Z.max (mag W - 53) (K - 1074).

Definition rnd (W : Z) : Z :=
  round_half_even_div W (2 ^ texp W) * 2 ^ texp W.

Definition representable (W : Z) : Prop := W mod 2 ^ texp W = 0.

Definition rec_of (M k : Z) : shr_record :=
  if k =? 0 then {| shr_m := M; shr_r := false; shr_s := false |}
  else {| shr_m := M / 2 ^ k;
          shr_r := Z.testbit M (k - 1);
          shr_s := negb (M mod 2 ^ (k - 1) =? 0) |}.

Definition decode (s : bool) (R : Z) : float :=
  match R / 2 ^ texp R with
  | Z.pos m =>
      if texp R - K <=? 971 then S754_finite s m (texp R - K)
      else S754_infinity s
  | _ => S754_zero s
  end.

Definition INF : Z := 2 ^ (1024 + K).

(** Position of a float that is not NaN on the extended number line. *)
Definition ord (x : float) : Z :=
  match x with
  | S754_zero _ => 0
  | S754_finite s m e => if s then - (Z.pos m * 2 ^ (e + K)) else Z.pos m * 2 ^ (e + K)
  | S754_infinity s => if s then - INF else INF
  | S754_nan => 0
  end.

Definition rnds (S : Z) : Z := if S <? 0 then - rnd (- S) else rnd S.

Definition clamp (v : Z) : Z := Z.max (- INF) (Z.min INF v).

Definition of_val (S : Z) : float :=
  match S with
  | 0 => S754_zero false
  | Z.pos p => decode false (rnd (Z.pos p))
  | Z.neg p => decode true (rnd (Z.pos p))
  end.

Definition good (x : float) : Prop := valid x = true /\ is_nan x = false.

Definition nng (x : float) : Prop := good x /\ 0 <= ord x.

(** Positions of the results of the operations on non-negative floats. *)
Definition oadd (a b : Z) : Z :=
  if (a =? INF) || (b =? INF) then INF else Z.min INF (rnd (a + b)).

Definition osub (a l : Z) : Z :=
  if a =? INF then INF else rnd (a - l).

Definition omul (a r : Z) : Z :=
  if a =? INF then INF else Z.min INF (rnd (a * r / 2 ^ K)).

Definition rate_ok (r : float) : Prop :=
  feqb r zero = true \/
  exists m e, r = S754_finite false m e /\ valid r = true.

Fixpoint bands_ok (lower : float) (bs : list (float * float * float)) : Prop :=
  match bs with
  | [] => True
  | (u, _, r) :: rest =>
      nng lower /\ ord lower < INF /\ nng u /\ ord lower <= ord u /\
      rate_ok r /\ bands_ok u rest
  end.

Definition increment (c lower u r : float) : float :=
  if feqb r zero then zero else fmul (fsub (py_min c u) lower) r.

Definition increment_ord (oc ol ou : Z) (r : float) : Z :=
  if feqb r zero then 0 else omul (osub (Z.min oc ou) ol) (ord r).

Definition rndq (P Q : Z) : Z :=
  round_half_even_div P (Q * 2 ^ texp (P / Q)) * 2 ^ texp (P / Q).

Definition loc_code (l : location) : Z :=
  match l with
  | loc_Exact => 0
  | loc_Inexact Lt => 1
  | loc_Inexact Eq => 2
  | loc_Inexact Gt => 3
  end.

Definition hundred_code (r : Z) : Z :=
  if r =? 0 then 0
  else match 2 * r ?= 100 with Lt => 1 | Eq => 2 | Gt => 3 end.

Definition hundred_exp (N : Z) : Z := Z.min (fexp prec emax (mag N - 7)) 0.

(** The number of hundredths nearest to a value. *)
Definition hundredths (W : Z) : Z := round_half_even_div (100 * W) (2 ^ K).

(** The float value nearest to the nearest number of hundredths. *)
Definition r2 (W : Z) : Z := rndq (hundredths W * 2 ^ K) 100.

Definition WMAX : Z := (2 ^ 53 - 1) * 2 ^ (971 + K).

Definition oround (a : Z) : Z := if a =? INF then INF else r2 a.

Definition echg (a b : Z) : Z :=
  if a =? - INF then 0
  else if b =? INF then 0
  else if a =? INF then INF
  else if b =? - INF then INF
  else Z.max 0 (clamp (rnds (a - b))).

Definition nngb (x : float) : bool :=
  valid x &&
  match x with
  | S754_zero _ | S754_infinity false | S754_finite false _ _ => true
  | _ => false
  end.

Definition rate_okb (r : float) : bool :=
  feqb r zero ||
  match r with
  | S754_finite false _ _ => valid r
  | _ => false
  end.

Fixpoint bands_okb (lower : float) (bs : list (float * float * float)) : bool :=
  match bs with
  | [] => true
  | (u, _, r) :: rest =>
      nngb lower && is_finite lower && nngb u && fleb lower u && rate_okb r &&
      bands_okb u rest
  end.

(** A Python [float] object holds an IEEE 754 double: a value of the float
    type inside the format.  The same is asked of what [float] on a string
    returns. *)
Definition well_formed (o : pyobj) : Prop :=
  match o with
  | PyFloat f => valid f = true
  | _ => True
  end.

Definition parser_ok (float_of_str : pystr -> option float) : Prop :=
  forall s f, float_of_str s = Some f -> valid f = true.

(** The values [float] does not convert: [None], a string that its parser
    refuses, and an [int] that rounds beyond the largest double, that is
    one of magnitude [2**1024 - 2**970] or more. *)
Definition float_refuses (float_of_str : pystr -> option float) (o : pyobj) : bool :=
  match o with
  | PyNone => true
  | PyBool _ => false
  | PyInt z => 2 ^ 1024 - 2 ^ 970 <=? Z.abs z
  | PyFloat _ => false
  | PyStr s => match float_of_str s with Some _ => false | None => true end
  end.

(** ** Repeated calls of [save_to_csv] *)

(** The store after [save_to_csv(data, filename)] has run for each record
    of a list, in order. *)
Definition save_all (records : list (list (pystr * pyobj))) (filename : pystr)
           (w : World) : World :=
  fold_left (fun w data => snd (save_to_csv data filename w)) records w.

(** The line that a record becomes in the file. *)
Definition row_of (data : list (pystr * pyobj)) : csv_row := Row (map snd data).

(** * The interactive program: [main.py] *)

(** ** The terminal

    A run is set in an environment: the lines that will be typed, what has
    been shown so far, and the record store. *)

(** A string literal of the source as a Python string. *)
Definition pystr_of_string (s : string) : pystr :=
  map Ascii.N_of_ascii (list_ascii_of_string s).

Inductive event : Type :=
| Prompted (prompt : pystr)
| Printed (text : pystr)
| PrintedTax (tax_payable : float).

Record Env : Type := {
  typed : list pystr;
  shown : list event;
  store : World
}.

Definition Prog (A : Type) : Type := Env -> result A * Env.

Definition prog_ret {A : Type} (a : A) : Prog A := fun env => (Return a, env).

Definition prog_raise {A : Type} (e : exn) : Prog A := fun env => (Raise e, env).

Definition prog_bind {A B : Type} (m : Prog A) (k : A -> Prog B) : Prog B :=
  fun env =>
    match m env with
    | (Return a, env') => k a env'
    | (Raise e, env') => (Raise e, env')
    end.

Notation "x <- m ;; k" := (prog_bind m (fun x => k))
  (at level 61, m at next level, right associativity).
Notation "m ;;; k" := (prog_bind m (fun _ => k))
  (at level 61, right associativity).

Definition show (e : event) (env : Env) : Env :=
  {| typed := typed env; shown := shown env ++ [e]; store := store env |}.

(** [print(text)]. *)
Definition py_print (text : pystr) : Prog unit :=
  fun env => (Return tt, show (Printed text) env).

Definition EOFError : exn := OtherException "EOFError".

(** [input(prompt)]: the prompt is shown and the next typed line is
    returned; [EOFError] when there is none. *)
Definition py_input (prompt : pystr) : Prog pystr :=
  fun env =>
    match typed env with
    | [] => (Raise EOFError, show (Prompted prompt) env)
    | line :: rest =>
        (Return line,
         {| typed := rest; shown := shown env ++ [Prompted prompt];
            store := store env |})
    end.

Definition msg_invalid_amount : pystr :=
  pystr_of_string "Invalid input. Enter a non-negative number.".

(** What a loop of [collect_income_and_relief] shows for the lines it
    refuses. *)
Definition refusals (prompt : pystr) (bad : list pystr) : list event :=
  flat_map (fun _ => [Prompted prompt; Printed msg_invalid_amount]) bad.

(** A step on the record store as a step of the program. *)
Definition on_store {A : Type} (m : IO A) : Prog A :=
  fun env =>
    let (a, w) := m (store env) in
    (Return a, {| typed := typed env; shown := shown env; store := w |}).

Definition tax_records_csv : pystr := pystr_of_string "tax_records.csv".
Definition users_csv : pystr := pystr_of_string "users.csv".

Definition prompt_income : pystr := pystr_of_string "Enter annual income (RM): ".
Definition prompt_relief : pystr := pystr_of_string "Enter total tax relief (RM): ".
Definition msg_no_records : pystr := pystr_of_string "No tax records found.".
Definition msg_banner : pystr := pystr_of_string "Malaysian Tax Input Program".
Definition msg_no_users : pystr :=
  pystr_of_string "No registered users found. Please register.".
Definition prompt_choice : pystr :=
  pystr_of_string "Do you want to (l)ogin or (r)egister? [l/r]: ".
Definition msg_saved : pystr := pystr_of_string "Record saved to tax_records.csv".
Definition prompt_view : pystr :=
  pystr_of_string "Do you want to view saved tax records? (y/n): ".

(** The dictionary [{"user_id": ..., "ic_number": ...}] that registration
    and login return. *)
Record User : Type := { user_id : pystr; ic_number : pystr }.

Definition is_FileNotFoundError (e : exn) : bool :=
  match e with
  | OtherException name => String.eqb name "FileNotFoundError"
  | _ => false
  end.

Section Program.

(** What the program takes from the Python runtime, pandas and tabulate:
    [str.isspace] on one character (for [str.strip]), [str.lower], [float]
    on a string, [pandas.read_csv], [DataFrame.empty], the table that
    [tabulate] renders (its import or its call may fail) and
    [DataFrame.to_string].  Registration and login, which work on
    [users.csv] through pandas, are parameters of [main]. *)
Variable str_isspace : pychar -> bool.
Variable str_lower : pystr -> pystr.
Variable float_of_str : pystr -> option float.
Variable DataFrame : Type.
Variable pd_read_csv : pystr -> World -> result DataFrame.
Variable df_empty : DataFrame -> bool.
Variable tabulate_psql : DataFrame -> result pystr.
Variable df_to_string : DataFrame -> pystr.
Variable prompt_registration : Prog (option User).
Variable prompt_login : Prog (option User).

(** [s.strip()]. *)
Fixpoint lstrip (s : pystr) : pystr :=
  match s with
  | c :: rest => if str_isspace c then lstrip rest else s
  | [] => []
  end.

Definition strip (s : pystr) : pystr := rev (lstrip (rev (lstrip s))).

(** ** [collect_income_and_relief] *)

(** A typed line is refused when [float] raises [ValueError] on it or the
    number is below zero. *)
Definition refused (line : pystr) : bool :=
  match float_of_str (strip line) with
  | Some amount => fltb amount zero
  | None => true
  end.

(** One [while True] loop of the source, which both loops are, each with
    its prompt.  A turn of the loop takes one typed line, so the loop is a
    recursion on the lines still to come. *)
Fixpoint amount_loop (prompt : pystr) (lines : list pystr) (log : list event)
         (w : World) : result float * Env :=
  match lines with
  | [] =>
      (Raise EOFError,
       {| typed := []; shown := log ++ [Prompted prompt]; store := w |})
  | line :: rest =>
      match float_of_str (strip line) with
      | Some amount =>
          if fltb amount zero then
            amount_loop prompt rest
              (log ++ [Prompted prompt; Printed msg_invalid_amount]) w
          else
            (Return amount,
             {| typed := rest; shown := log ++ [Prompted prompt]; store := w |})
      | None =>
          amount_loop prompt rest
            (log ++ [Prompted prompt; Printed msg_invalid_amount]) w
      end
  end.

Definition ask_amount (prompt : pystr) : Prog float :=
  fun env => amount_loop prompt (typed env) (shown env) (store env).

Definition collect_income_and_relief : Prog (float * float) :=
  income <- ask_amount prompt_income ;;
  relief <- ask_amount prompt_relief ;;
  prog_ret (income, relief).

(** ** [display_records] *)

Definition display_records : Prog unit :=
  r <- on_store (read_from_csv DataFrame pd_read_csv tax_records_csv) ;;
  match r with
  | Raise e => prog_raise e
  | Return None => py_print msg_no_records
  | Return (Some df) =>
      match tabulate_psql df with
      | Return table => py_print table
      | Raise _ => py_print (df_to_string df)
      end
  end.

(** ** [main] *)

(** The record that [main] saves. *)
Definition tax_record (ic : pystr) (income relief tax_payable : float)
  : list (pystr * pyobj) :=
  [ (pystr_of_string "ic_number", PyStr ic);
    (pystr_of_string "income", PyFloat income);
    (pystr_of_string "tax_relief", PyFloat relief);
    (pystr_of_string "tax_payable", PyFloat tax_payable) ].

(** [main] from [ic = user['ic_number']] on.  Writing to the store does
    not fail here, so the [except] branch of the save is not entered. *)
Definition main_with_user (user : option User) : Prog unit :=
  ic <- match user with
        | Some u => prog_ret (ic_number u)
        | None => prog_raise (TypeError "'NoneType' object is not subscriptable")
        end ;;
  amounts <- collect_income_and_relief ;;
  let income := fst amounts in
  let relief := snd amounts in
  tax_payable <- (fun env =>
                    (calculate_tax float_of_str (PyFloat income) (PyFloat relief),
                     env)) ;;
  (fun env => (Return tt, show (PrintedTax tax_payable) env)) ;;;
  on_store (save_to_csv (tax_record ic income relief tax_payable)
              tax_records_csv) ;;;
  py_print msg_saved ;;;
  view <- py_input prompt_view ;;
  if pystr_eqb (str_lower (strip view)) (pystr_of_string "y")
  then display_records
  else prog_ret tt.

(** [registered]: [users.csv] can be read and is not empty. *)
Definition users_registered : Prog bool :=
  fun env =>
    match pd_read_csv users_csv (store env) with
    | Return users_df => (Return (negb (df_empty users_df)), env)
    | Raise e =>
        if is_FileNotFoundError e then (Return false, env) else (Raise e, env)
    end.

Definition main : Prog unit :=
  py_print msg_banner ;;;
  registered <- users_registered ;;
  if negb registered then
    py_print msg_no_users ;;;
    reg <- prompt_registration ;;
    match reg with
    | None => prog_ret tt
    | Some _ => main_with_user reg
    end
  else
    choice <- py_input prompt_choice ;;
    if pystr_eqb (str_lower (strip choice)) (pystr_of_string "r") then
      reg <- prompt_registration ;;
      match reg with
      | Some _ => main_with_user reg
      | None => user <- prompt_login ;; main_with_user user
      end
    else
      user <- prompt_login ;;
      match user with
      | None => prog_ret tt
      | Some _ => main_with_user user
      end.

End Program.

(** ** A small runtime, for examples

    [demo_float] reads one decimal digit with an optional minus sign;
    [demo_isspace] knows the space character only. *)
Definition demo_isspace (c : pychar) : bool := N.eqb c 32.

Definition demo_digit (c : pychar) : option Z :=
  if ((48 <=? c) && (c <=? 57))%N then Some (Z.of_N c - 48) else None.

Definition demo_float (s : pystr) : option float :=
  match s with
  | [c] => option_map of_Z (demo_digit c)
  | [m; c] =>
      if N.eqb m 45 then option_map (fun z => of_Z (- z)) (demo_digit c)
      else None
  | _ => None
  end.

(** Typed lines [-1], [9], [x], [ 5 ] and [y], nothing shown yet, an empty
    store. *)
Definition demo_env : Env :=
  {| typed := [[45; 49]; [57]; [120]; [32; 53; 32]; [121]]%N;
     shown := [];
     store := {| files := fun _ => None |} |}.

(** ** The tax in exact arithmetic

    The tax in cents on a chargeable income of [c] ringgit: each band
    [(lower, u]] of the table contributes the part of [c] that falls in it
    times its rate in percent, and what exceeds 2000000 is taxed at 30%. *)
Fixpoint exact_tax_from (lower : Z) (bands : list (Z * Z)) (c : Z) : Z :=
  match bands with
  | [] => 0
  | (u, pct) :: rest =>
      Z.max 0 (Z.min c u - lower) * pct + exact_tax_from u rest c
  end.

Definition exact_tax_cents (c : Z) : Z :=
  exact_tax_from 0 exact_bands c + Z.max 0 (c - 2000000) * 30.

(** A float rate that is the double nearest to [pct] percent, within half
    a unit in the last place of numbers below one half. *)
Definition rate_exact (r : float) (pct : Z) : Prop :=
  0 <= pct <= 30 /\
  ((feqb r zero = true /\ pct = 0) \/
   (exists m e, r = S754_finite false m e /\ valid r = true /\
                - (100 * 2 ^ (K - 55)) <= 100 * ord r - pct * 2 ^ K
                                        <= 100 * 2 ^ (K - 55))).

Definition rate_exactb (r : float) (pct : Z) : bool :=
  (0 <=? pct) && (pct <=? 30) &&
  ((feqb r zero && (pct =? 0)) ||
   match r with
   | S754_finite false m e =>
       valid r && (-60 <=? e) && (e <=? 0) &&
       (Z.abs (100 * Z.pos m * 2 ^ (e + 60) - pct * 2 ^ 60) <=? 3200)
   | _ => false
   end).

(** A float bound of the table against its exact value [U]: the same
    number, or plus infinity standing for a bound that [c] does not
    exceed. *)
Definition upper_exact (c : Z) (u : float) (U : Z) : Prop :=
  nng u /\ 0 <= U /\ (ord u = U * 2 ^ K \/ (u = pinf /\ c <= U)).

Fixpoint bands_exact (c : Z) (L : Z) (bs : list (float * float * float))
         (ebs : list (Z * Z)) : Prop :=
  match bs, ebs with
  | [], [] => True
  | (u, _, r) :: rest, (U, pct) :: erest =>
      L <= U /\ upper_exact c u U /\ rate_exact r pct /\
      bands_exact c U rest erest
  | _, _ => False
  end.

(** * Properties *)

(** ** Strings *)

Lemma pystr_eqb_eq (s t : pystr) : pystr_eqb s t = true <-> s = t.
Proof.
  revert t; induction s as [|c s IH]; intros [|d t]; simpl; split; intro H;
    try reflexivity; try discriminate.
  - apply andb_true_iff in H as [Hc Hs].
    apply N.eqb_eq in Hc. apply IH in Hs. congruence.
  - injection H as -> ->. apply andb_true_iff; split.
    + apply N.eqb_refl.
    + now apply IH.
Qed.

Lemma last4_suffix (s front pw : pystr) :
  s = front ++ pw -> length pw = 4%nat -> last4 s = pw.
Proof.
  intros -> Hpw. unfold last4.
  rewrite length_app, Hpw, Nat.add_sub.
  rewrite skipn_app, skipn_all, Nat.sub_diag. reflexivity.
Qed.

Lemma last4_split (s : pystr) :
  length s = 12%nat ->
  exists front, s = front ++ last4 s /\ length (last4 s) = 4%nat.
Proof.
  intros Hs. unfold last4. rewrite Hs. exists (firstn 8 s). split.
  - symmetry. apply firstn_skipn.
  - rewrite length_skipn, Hs. reflexivity.
Qed.

(** ** The loop and the reference accumulation *)

Lemma tax_loop_reference (c : float) (bs : list (float * float * float)) :
  Forall (fun b => feqb (snd b) zero = false) bs ->
  forall tax lower,
    tax_loop c bs tax lower = reference_bands c (map strip_base bs) tax lower.
Proof.
  induction 1 as [|[[upper base] rate] bs Hrate _ IH]; intros tax lower; simpl.
  - reflexivity.
  - simpl in Hrate. rewrite Hrate. destruct (fleb c lower); [reflexivity|].
    apply IH.
Qed.

(** A chargeable income that passes the first stop test is a positive finite
    number or plus infinity, so its part in the first band is positive and
    finite. *)
Lemma first_band_part (d : float) :
  fleb (py_max zero d) zero = false ->
  exists m e,
    fsub (py_min (py_max zero d) (of_Z 5000)) zero = S754_finite false m e.
Proof.
  unfold py_max.
  destruct d as [s|[|]| |[|] m e]; try discriminate; intros _.
  - eexists _, _. vm_compute. reflexivity.
  - change (fltb zero (S754_finite false m e)) with true. cbv iota.
    unfold py_min.
    destruct (fltb (of_Z 5000) (S754_finite false m e)).
    + eexists _, _. vm_compute. reflexivity.
    + exists m, e. reflexivity.
Qed.

Lemma band_table_strip : band_table = map strip_base brackets.
Proof. reflexivity. Qed.

(** The float table is the exact table, entry by entry, closed by the
    unbounded band at 30%. *)
Lemma band_table_exact :
  band_table =
  map (fun '(u, pct) => (of_Z u, dec2 pct)) exact_bands ++ [(pinf, dec2 30)].
Proof. reflexivity. Qed.

Lemma tax_loop_cons c upper base rate rest tax lower :
  tax_loop c ((upper, base, rate) :: rest) tax lower =
  if fleb c lower then tax
  else tax_loop c rest
         (fadd tax (if feqb rate zero then zero
                    else fmul (fsub (py_min c upper) lower) rate)) upper.
Proof. reflexivity. Qed.

Lemma reference_bands_cons c u r rest total lower :
  reference_bands c ((u, r) :: rest) total lower =
  if fleb c lower then total
  else reference_bands c rest
         (fadd total (fmul (fsub (py_min c u) lower) r)) u.
Proof. reflexivity. Qed.

Lemma fmul_zero_rate (m : positive) (e : Z) :
  fmul (S754_finite false m e) (dec2 0) = zero.
Proof. reflexivity. Qed.

Lemma tax_loop_is_reference (d : float) :
  tax_loop (py_max zero d) brackets zero zero =
  reference_bands (py_max zero d) band_table zero zero.
Proof.
  rewrite band_table_strip.
  change brackets with ((of_Z 5000, of_Z 0, dec2 0) :: tl brackets).
  assert (Hrest : Forall (fun b => feqb (snd b) zero = false) (tl brackets))
    by (repeat constructor).
  revert Hrest. generalize (tl brackets). intros rest Hrest.
  cbn [map strip_base].
  rewrite tax_loop_cons, reference_bands_cons.
  destruct (fleb (py_max zero d) zero) eqn:Hstop; [reflexivity|].
  destruct (first_band_part d Hstop) as (m & e & ->).
  rewrite fmul_zero_rate.
  destruct (feqb (dec2 0) zero); now apply tax_loop_reference.
Qed.

(** C1: on every pair of inputs [calculate_tax] agrees with the reference
    computation of the specification: the tax of
    [chargeable = max(0, income - relief)] accumulated over the ten bands in
    ascending order as [(min(chargeable, u) - lower) * r], stopping when
    [chargeable <= lower], and rounded to two decimals; inputs that are not
    numeric are rejected by both. *)
Theorem calculate_tax_refines_reference
        (float_of_str : pystr -> option float) (income tax_relief : pyobj) :
  calculate_tax float_of_str income tax_relief =
  reference_tax float_of_str income tax_relief.
Proof.
  unfold calculate_tax, reference_tax.
  destruct (py_float float_of_str income) as [i|ei];
    cbn [bind try_except]; [|reflexivity].
  destruct (py_float float_of_str tax_relief) as [r|er];
    cbn [bind try_except]; [|reflexivity].
  rewrite tax_loop_is_reference. reflexivity.
Qed.

(** C2 (as the code has it): [calculate_tax(5000, 0) = 0.00],
    [calculate_tax(20000, 0) = 150.00], [calculate_tax(35000, 0) = 600.00]
    and [calculate_tax(100000, 0) = 9400.00]; the amount 3700.00 is the tax on
    70000, the lower bound of the band that ends at 100000. *)
Theorem calculate_tax_points (float_of_str : pystr -> option float) :
  calculate_tax float_of_str (PyInt 5000) (PyInt 0) = Return (of_Z 0) /\
  calculate_tax float_of_str (PyInt 20000) (PyInt 0) = Return (of_Z 150) /\
  calculate_tax float_of_str (PyInt 35000) (PyInt 0) = Return (of_Z 600) /\
  calculate_tax float_of_str (PyInt 100000) (PyInt 0) = Return (of_Z 9400) /\
  calculate_tax float_of_str (PyInt 70000) (PyInt 0) = Return (of_Z 3700).
Proof. repeat split; vm_compute; reflexivity. Qed.

(** C2, refuted as stated: [calculate_tax(100000, 0)] is not 3700.00. *)
Lemma calculate_tax_100000_not_3700 :
  ~ (forall float_of_str : pystr -> option float,
        calculate_tax float_of_str (PyInt 5000) (PyInt 0) = Return (of_Z 0) /\
        calculate_tax float_of_str (PyInt 20000) (PyInt 0) = Return (of_Z 150) /\
        calculate_tax float_of_str (PyInt 35000) (PyInt 0) = Return (of_Z 600) /\
        calculate_tax float_of_str (PyInt 100000) (PyInt 0) = Return (of_Z 3700)).
Proof.
  intros H. destruct (H (fun _ => None)) as (_ & _ & _ & H4).
  vm_compute in H4. discriminate H4.
Qed.

(** C5: for each band of the table with a finite upper bound [u], the tax on
    a chargeable income of exactly [u] is the exact sum, over the bands up to
    and including the one that ends at [u], of the full band width times the
    band's rate: nothing of [u] is taxed at the rate of the next band, and
    no band is counted twice or skipped. *)
Theorem boundary_continuity
        (float_of_str : pystr -> option float) (k : nat) (u pct : Z) :
  nth_error exact_bands k = Some (u, pct) ->
  (100 | exact_cumulative_cents k) /\
  calculate_tax float_of_str (PyInt u) (PyInt 0) =
    Return (of_Z (exact_cumulative_cents k / 100)) /\
  calculate_tax float_of_str (PyFloat (of_Z u)) (PyFloat zero) =
    Return (of_Z (exact_cumulative_cents k / 100)).
Proof.
  intros Hk.
  do 9 (destruct k as [|k];
        [injection Hk as <- <-; split;
         [ apply Z.mod_divide; [discriminate | vm_compute; reflexivity]
         | split; vm_compute; reflexivity ]|]).
  destruct k; discriminate Hk.
Qed.

Lemma boundary_continuity_witness :
  nth_error exact_bands 5 = Some (100000, 19) /\
  ((100 | exact_cumulative_cents 5) /\
   calculate_tax (fun _ => None) (PyInt 100000) (PyInt 0) =
     Return (of_Z (exact_cumulative_cents 5 / 100)) /\
   calculate_tax (fun _ => None) (PyFloat (of_Z 100000)) (PyFloat zero) =
     Return (of_Z (exact_cumulative_cents 5 / 100))).
Proof.
  split.
  - reflexivity.
  - apply (boundary_continuity (fun _ => None) 5 100000 19). reflexivity.
Defined.

(** C9: [verify_user] returns [True] exactly when both arguments are
    strings, the digit characters of [ic_number] number twelve, and
    [password] is the last four of them; it is a total function, so every
    other case returns [False]. *)
Theorem verify_user_spec
        (str_isdigit : pychar -> bool) (ic_number password : pyobj) :
  verify_user str_isdigit ic_number password = true <->
  exists ic pw front,
    ic_number = PyStr ic /\ password = PyStr pw /\
    length (filter str_isdigit ic) = 12%nat /\
    filter str_isdigit ic = front ++ pw /\ length pw = 4%nat.
Proof.
  split.
  - destruct ic_number as [| | | |ic]; try discriminate.
    destruct password as [| | | |pw]; try discriminate.
    unfold verify_user.
    destruct (Nat.eqb (length (filter str_isdigit ic)) 12) eqn:Hlen;
      [|discriminate].
    simpl. intros Heq. apply pystr_eqb_eq in Heq. apply Nat.eqb_eq in Hlen.
    destruct (last4_split _ Hlen) as (front & Hsplit & H4).
    exists ic, pw, front. rewrite Heq. auto.
  - intros (ic & pw & front & -> & -> & Hlen & Hsplit & H4).
    unfold verify_user. rewrite Hlen. simpl.
    apply pystr_eqb_eq. symmetry. exact (last4_suffix _ _ _ Hsplit H4).
Qed.

(** C10: [read_from_csv] never raises and leaves the store unchanged: it
    returns [None] when the file does not exist or when reading it fails,
    and the parsed records otherwise. *)
Theorem read_from_csv_total
        (DataFrame : Type) (pd_read_csv : pystr -> World -> result DataFrame)
        (filename : pystr) (w : World) :
  exists r : option DataFrame,
    read_from_csv DataFrame pd_read_csv filename w = (Return r, w) /\
    (r = None <->
       files w filename = None \/ exists e, pd_read_csv filename w = Raise e) /\
    (forall df, r = Some df <->
       files w filename <> None /\ pd_read_csv filename w = Return df).
Proof.
  unfold read_from_csv, io_bind, os_path_exists, io_ret.
  destruct (files w filename) as [rows|] eqn:Hf; simpl.
  - destruct (pd_read_csv filename w) as [df|e] eqn:Hr.
    + exists (Some df). split; [reflexivity|]. split.
      * split; [discriminate|]. intros [H|[e H]]; discriminate.
      * intros df'. split.
        -- intros [= ->]. split; [discriminate|reflexivity].
        -- intros [_ [= ->]]. reflexivity.
    + exists None. split; [reflexivity|]. split.
      * split; [|reflexivity]. intros _. right. now exists e.
      * intros df. split; [discriminate|]. intros [_ H]. discriminate.
  - exists None. split; [reflexivity|]. split.
    + split; [|reflexivity]. intros _. now left.
    + intros df. split; [discriminate|]. intros [H _]. now elim H.
Qed.

(** * Binary64 arithmetic *)

(** ** Rounding a quotient to the nearest integer, ties to even *)

Lemma rhe_cases (n d : Z) :
  0 < d ->
  let q := n / d in let r := n mod d in
  n = d * q + r /\ 0 <= r < d /\
  ((2 * r < d /\ round_half_even_div n d = q) \/
   (2 * r = d /\ round_half_even_div n d = (if Z.even q then q else q + 1)) \/
   (d < 2 * r /\ round_half_even_div n d = q + 1)).
Proof.
  intros Hd q r. split; [apply Z.div_mod; lia|].
  split; [apply Z.mod_pos_bound; lia|].
  unfold round_half_even_div. fold q r.
  destruct (Z.compare_spec (2 * r) d); auto.
Qed.

Lemma rhe_bounds (n d : Z) :
  0 < d -> n / d <= round_half_even_div n d <= n / d + 1.
Proof.
  intros Hd. destruct (rhe_cases n d Hd) as (_ & _ & [[_ ->]|[[_ ->]|[_ ->]]]);
    try destruct (Z.even _); lia.
Qed.

Lemma rhe_err (n d : Z) :
  0 < d -> - d <= 2 * (round_half_even_div n d * d - n) <= d.
Proof.
  intros Hd. destruct (rhe_cases n d Hd) as (Hn & Hr & [[H ->]|[[H ->]|[H ->]]]);
    try destruct (Z.even _); nia.
Qed.

Lemma rhe_exact (q d : Z) : 0 < d -> round_half_even_div (q * d) d = q.
Proof.
  intros Hd. unfold round_half_even_div.
  rewrite Z.div_mul, Z.mod_mul by lia.
  destruct (Z.compare_spec (2 * 0) d); lia.
Qed.

Lemma rhe_one (n : Z) : round_half_even_div n 1 = n.
Proof. rewrite <- (Z.mul_1_r n) at 1. apply rhe_exact. lia. Qed.

Lemma rhe_mono (n1 n2 d : Z) :
  0 < d -> n1 <= n2 -> round_half_even_div n1 d <= round_half_even_div n2 d.
Proof.
  intros Hd Hn.
  assert (Hq : n1 / d <= n2 / d) by (apply Z.div_le_mono; lia).
  destruct (Z.eq_dec (n1 / d) (n2 / d)) as [E|NE].
  - destruct (rhe_cases n1 d Hd) as (H1 & Hr1 & C1).
    destruct (rhe_cases n2 d Hd) as (H2 & Hr2 & C2).
    rewrite E in *.
    destruct C1 as [[A1 ->]|[[A1 ->]|[A1 ->]]],
             C2 as [[A2 ->]|[[A2 ->]|[A2 ->]]];
      try destruct (Z.even _); lia.
  - pose proof (rhe_bounds n1 d Hd). pose proof (rhe_bounds n2 d Hd). lia.
Qed.

Lemma rhe_scale (n d c : Z) :
  0 < d -> 0 < c -> round_half_even_div (n * c) (d * c) = round_half_even_div n d.
Proof.
  intros Hd Hc. unfold round_half_even_div.
  rewrite Z.div_mul_cancel_r by lia.
  rewrite Z.mul_mod_distr_r by lia.
  replace (2 * (n mod d * c) ?= d * c) with (2 * (n mod d) ?= d); [reflexivity|].
  destruct (Z.compare_spec (2 * (n mod d)) d);
    destruct (Z.compare_spec (2 * (n mod d * c)) (d * c)); try reflexivity; nia.
Qed.

Lemma rhe_nonneg (n d : Z) : 0 < d -> 0 <= n -> 0 <= round_half_even_div n d.
Proof.
  intros Hd Hn. pose proof (rhe_bounds n d Hd).
  assert (0 <= n / d) by (apply Z.div_pos; lia). lia.
Qed.

(** ** Values, magnitudes and rounding to 53 significant bits

    A non-negative exact value is an integer [W] in units of [2^-K]. *)

Lemma K_eq : K = 2148.
Proof. reflexivity. Qed.

Global Opaque K.

Lemma mag_bounds (W : Z) : 0 < W -> 2 ^ (mag W - 1) <= W < 2 ^ mag W.
Proof.
  intros HW. unfold mag. replace (Z.log2 W + 1 - 1) with (Z.log2 W) by lia.
  pose proof (Z.log2_spec W HW). rewrite <- Z.add_1_r in H. exact H.
Qed.

Lemma mag_pos (W : Z) : 0 < mag W.
Proof. unfold mag. pose proof (Z.log2_nonneg W). lia. Qed.

Lemma mag_unique (W g : Z) : 2 ^ (g - 1) <= W < 2 ^ g -> 0 < g -> mag W = g.
Proof.
  intros H Hg. unfold mag.
  rewrite (Z.log2_unique W (g - 1)); [lia|lia|].
  replace (Z.succ (g - 1)) with g by lia. exact H.
Qed.

Lemma mag_mono (W1 W2 : Z) : W1 <= W2 -> mag W1 <= mag W2.
Proof. intros H. unfold mag. pose proof (Z.log2_le_mono W1 W2 H). lia. Qed.

Lemma mag_mul_pow2 (W j : Z) : 0 < W -> 0 <= j -> mag (W * 2 ^ j) = mag W + j.
Proof.
  intros HW Hj. unfold mag. rewrite Z.log2_mul_pow2 by lia. lia.
Qed.

Lemma mag_pow2 (j : Z) : 0 <= j -> mag (2 ^ j) = j + 1.
Proof. intros Hj. unfold mag. rewrite Z.log2_pow2 by lia. reflexivity. Qed.

Lemma texp_ge (W : Z) : K - 1074 <= texp W /\ mag W - 53 <= texp W.
Proof. unfold texp. lia. Qed.

Lemma texp_nonneg (W : Z) : 0 <= texp W.
Proof. pose proof (texp_ge W). pose proof K_eq. lia. Qed.

Lemma texp_mono (W1 W2 : Z) : W1 <= W2 -> texp W1 <= texp W2.
Proof. intros H. unfold texp. pose proof (mag_mono _ _ H). lia. Qed.

Lemma pow2_pos (j : Z) : 0 <= j -> 0 < 2 ^ j.
Proof. intros. apply Z.pow_pos_nonneg; lia. Qed.

Lemma pow2_le (i j : Z) : 0 <= i <= j -> 2 ^ i <= 2 ^ j.
Proof. intros. apply Z.pow_le_mono_r; lia. Qed.

Lemma pow2_split (i j : Z) : 0 <= i -> 0 <= j -> 2 ^ (i + j) = 2 ^ i * 2 ^ j.
Proof. intros. apply Z.pow_add_r; lia. Qed.

(** The rounded mantissa has at most 53 bits, or is exactly [2^53]. *)
Lemma rnd_mantissa_le (W : Z) :
  0 <= W -> 0 <= round_half_even_div W (2 ^ texp W) <= 2 ^ 53.
Proof.
  intros HW. pose proof (texp_nonneg W) as Ht.
  pose proof (pow2_pos _ Ht) as Hp.
  split; [now apply rhe_nonneg|].
  rewrite <- (rhe_exact (2 ^ 53) (2 ^ texp W)) by lia.
  apply rhe_mono; [lia|].
  destruct (Z.eq_dec W 0) as [->|NZ]; [nia|].
  pose proof (mag_bounds W ltac:(lia)) as [_ Hlt].
  pose proof (texp_ge W) as [_ Hg].
  rewrite <- pow2_split by lia.
  pose proof (pow2_le (mag W) (53 + texp W) ltac:(pose proof (mag_pos W); lia)).
  lia.
Qed.

Lemma rnd_nonneg (W : Z) : 0 <= W -> 0 <= rnd W.
Proof.
  intros HW. unfold rnd. pose proof (rnd_mantissa_le W HW).
  pose proof (pow2_pos _ (texp_nonneg W)). nia.
Qed.

Lemma rnd_fix (W : Z) : 0 <= W -> representable W -> rnd W = W.
Proof.
  intros HW HR. unfold rnd, representable in *.
  pose proof (pow2_pos _ (texp_nonneg W)) as Hp.
  apply Z.div_exact in HR; [|lia].
  pose proof (rhe_exact (W / 2 ^ texp W) (2 ^ texp W) Hp) as He.
  rewrite (Z.mul_comm (W / _)), <- HR in He. rewrite He. lia.
Qed.

Lemma rnd_mono (W1 W2 : Z) : 0 <= W1 <= W2 -> rnd W1 <= rnd W2.
Proof.
  intros [H1 H12].
  pose proof (texp_mono _ _ H12) as Ht.
  pose proof (texp_nonneg W1) as Ht1.
  pose proof (pow2_pos _ Ht1) as Hp1.
  pose proof (pow2_pos _ (texp_nonneg W2)) as Hp2.
  destruct (Z.eq_dec (texp W1) (texp W2)) as [E|NE].
  - unfold rnd. rewrite E.
    pose proof (rhe_mono W1 W2 (2 ^ texp W2) Hp2 H12). nia.
  - assert (Hlt : texp W1 < texp W2) by lia.
    assert (HW2 : 0 < W2).
    { destruct (Z.eq_dec W2 0) as [->|]; [|lia].
      assert (W1 = 0) by lia. subst. lia. }
    assert (Hm2 : texp W2 = mag W2 - 53).
    { unfold texp in *. lia. }
    (* the lower value rounds to at most 2^(53 + texp W1) *)
    pose proof (rnd_mantissa_le W1 H1) as [_ Hm1].
    assert (Hup : rnd W1 <= 2 ^ (53 + texp W1)).
    { unfold rnd. rewrite pow2_split by lia. nia. }
    (* the upper value rounds to at least 2^(52 + texp W2) *)
    assert (Hlow : 2 ^ (52 + texp W2) <= rnd W2).
    { unfold rnd. rewrite pow2_split by lia.
      pose proof (mag_bounds W2 HW2) as [Hge _].
      replace (mag W2 - 1) with (52 + texp W2) in Hge by lia.
      rewrite pow2_split in Hge by lia.
      pose proof (rhe_mono _ _ (2 ^ texp W2) Hp2 Hge) as Hr.
      rewrite rhe_exact in Hr by lia. nia. }
    pose proof (pow2_le (53 + texp W1) (52 + texp W2) ltac:(lia)). lia.
Qed.

Lemma rnd_representable (W : Z) : 0 <= W -> representable (rnd W).
Proof.
  intros HW. unfold representable.
  pose proof (rnd_mantissa_le W HW) as [Hm0 Hm].
  pose proof (texp_nonneg W) as Ht. pose proof (pow2_pos _ Ht) as Hp.
  set (m := round_half_even_div W (2 ^ texp W)) in *.
  assert (HR : rnd W = m * 2 ^ texp W) by reflexivity.
  pose proof (texp_nonneg (rnd W)) as Ht'.
  pose proof (texp_ge W) as [HtK HtM].
  destruct (Z.eq_dec m 0) as [Z0|NZ].
  - assert (E0 : rnd W = 0) by (rewrite HR, Z0; reflexivity).
    rewrite E0. apply Z.mod_0_l. pose proof (pow2_pos _ (texp_nonneg 0)); lia.
  - assert (Hle : texp (rnd W) <= texp W \/
                  (m = 2 ^ 53 /\ texp (rnd W) = texp W + 1)).
    { destruct (Z.eq_dec m (2 ^ 53)) as [E|NE].
      - right. split; [exact E|]. rewrite HR, E, <- pow2_split by lia.
        unfold texp at 1. rewrite mag_pow2 by lia. lia.
      - left. assert (Hmag : mag m <= 53).
        { assert (mag m <= mag (2 ^ 53 - 1)) by (apply mag_mono; lia).
          assert (mag (2 ^ 53 - 1) = 53) by reflexivity. lia. }
        rewrite HR. unfold texp at 1. rewrite mag_mul_pow2 by lia. lia. }
    revert Hle Ht'. generalize (texp (rnd W)). intros t' Hle Ht'.
    pose proof (pow2_pos _ Ht') as Hp'.
    destruct Hle as [Hle|[E Hle]].
    + rewrite HR. replace (texp W) with ((texp W - t') + t') by lia.
      rewrite pow2_split by lia. rewrite Z.mul_assoc. apply Z.mod_mul. lia.
    + rewrite HR, E, <- pow2_split by lia.
      replace (53 + texp W) with (52 + t') by lia.
      rewrite pow2_split by lia. apply Z.mod_mul. lia.
Qed.

Lemma rnd_idem (W : Z) : 0 <= W -> rnd (rnd W) = rnd W.
Proof.
  intros HW. apply rnd_fix; [now apply rnd_nonneg | now apply rnd_representable].
Qed.

(** ** Bit counts *)

Lemma digits2_size (m : positive) : digits2_pos m = Pos.size m.
Proof. induction m; simpl; congruence. Qed.

Lemma digits2_mag (m : positive) : Z.pos (digits2_pos m) = mag (Z.pos m).
Proof.
  rewrite digits2_size. unfold mag.
  destruct m; simpl; rewrite ?Pos2Z.inj_succ; lia.
Qed.

Lemma Zdigits2_mag (M : Z) : 0 < M -> Zdigits2 M = mag M.
Proof. destruct M; try lia. intros _. apply digits2_mag. Qed.

(** ** Shifting right with round and sticky bits *)

Lemma shr_1_nonneg (m : Z) (r s : bool) :
  0 <= m ->
  shr_1 {| shr_m := m; shr_r := r; shr_s := s |} =
  {| shr_m := m / 2; shr_r := Z.odd m; shr_s := r || s |}.
Proof.
  intros Hm. rewrite <- Z.div2_div.
  destruct m as [|p|p]; [reflexivity| |lia].
  destruct p as [p|p|]; reflexivity.
Qed.

Lemma mod_pow2_succ (M k : Z) :
  0 <= k ->
  M mod 2 ^ (k + 1) = M mod 2 ^ k + 2 ^ k * Z.b2z (Z.testbit M k).
Proof.
  intros Hk. rewrite pow2_split, Z.rem_mul_r by (try apply Z.pow_nonzero; lia).
  f_equal. f_equal. rewrite Z.testbit_spec' by lia. reflexivity.
Qed.

Lemma rec_of_step (M k : Z) :
  0 <= M -> 0 <= k -> shr_1 (rec_of M k) = rec_of M (k + 1).
Proof.
  intros HM Hk. unfold rec_of.
  destruct (Z.eqb_spec k 0) as [E|NZ];
    destruct (Z.eqb_spec (k + 1) 0) as [|_]; try lia.
  - subst k. rewrite shr_1_nonneg by lia. cbn [Z.add Z.sub Z.pow Z.pow_pos Pos.iter Z.mul Pos.mul].
    rewrite Z.mod_1_r. rewrite Z.bit0_odd. reflexivity.
  - pose proof (pow2_pos k Hk) as Hp.
    rewrite shr_1_nonneg by (apply Z.div_pos; lia).
    replace (k + 1 - 1) with k by lia.
    pose proof (Z.mod_pos_bound M (2 ^ (k - 1)) ltac:(apply pow2_pos; lia)).
    pose proof (pow2_pos (k - 1) ltac:(lia)).
    f_equal.
    + rewrite Z.div_div, (pow2_split k 1) by lia. reflexivity.
    + rewrite Z.testbit_odd, Z.shiftr_div_pow2 by lia. reflexivity.
    + replace (2 ^ k) with (2 ^ ((k - 1) + 1)) by (f_equal; lia).
      rewrite mod_pow2_succ by lia.
      destruct (Z.testbit M (k - 1)); cbn [Z.b2z orb];
        destruct (Z.eqb_spec (M mod 2 ^ (k - 1)) 0) as [E0|N0]; cbn [negb];
        symmetry; try (apply negb_true_iff; apply Z.eqb_neq; lia);
        apply negb_false_iff; apply Z.eqb_eq; lia.
Qed.

Lemma iter_pos_nat {A : Type} (f : A -> A) (p : positive) (x : A) :
  iter_pos f p x = Nat.iter (Pos.to_nat p) f x.
Proof.
  revert x. induction p as [p IH|p IH|]; intros x; cbn [iter_pos].
  - rewrite !IH, Pos2Nat.inj_xI.
    replace (S (2 * Pos.to_nat p))%nat
      with (Pos.to_nat p + S (Pos.to_nat p))%nat by lia.
    rewrite Nat.iter_add, Nat.iter_succ_r. reflexivity.
  - rewrite !IH, Pos2Nat.inj_xO.
    replace (2 * Pos.to_nat p)%nat with (Pos.to_nat p + Pos.to_nat p)%nat by lia.
    rewrite Nat.iter_add. reflexivity.
  - reflexivity.
Qed.

Lemma rec_of_iter (M : Z) (n : nat) (k : Z) :
  0 <= M -> 0 <= k ->
  Nat.iter n shr_1 (rec_of M k) = rec_of M (k + Z.of_nat n).
Proof.
  intros HM Hk. induction n as [|n IH].
  - cbn [Nat.iter nat_rect]. f_equal. lia.
  - cbn [Nat.iter nat_rect]. change (nat_rect _ ?x _ n) with (Nat.iter n shr_1 (rec_of M k)). rewrite IH, rec_of_step by lia. f_equal. lia.
Qed.

Lemma shr_rec_of (M k e n : Z) :
  0 <= M -> 0 <= k ->
  shr (rec_of M k) e n = (rec_of M (k + Z.max 0 n), e + Z.max 0 n).
Proof.
  intros HM Hk. destruct n as [|p|p]; cbn [shr].
  - rewrite Z.max_l, !Z.add_0_r by lia. reflexivity.
  - rewrite iter_pos_nat, rec_of_iter, positive_nat_Z by lia.
    rewrite Z.max_r by lia. reflexivity.
  - rewrite Z.max_l, !Z.add_0_r by lia. reflexivity.
Qed.

Lemma rec_of_round (M k : Z) :
  0 <= M -> 0 <= k ->
  round_nearest_even (shr_m (rec_of M k)) (loc_of_shr_record (rec_of M k)) =
  round_half_even_div M (2 ^ k).
Proof.
  intros HM Hk. unfold rec_of.
  destruct (Z.eqb_spec k 0) as [->|NZ].
  - cbn. symmetry. apply rhe_one.
  - cbn [shr_m loc_of_shr_record].
    pose proof (pow2_pos (k - 1) ltac:(lia)) as Hp.
    pose proof (Z.mod_pos_bound M (2 ^ (k - 1)) Hp) as Hr.
    unfold round_half_even_div.
    replace (2 ^ k) with (2 ^ ((k - 1) + 1)) by (f_equal; lia).
    rewrite mod_pow2_succ by lia.
    rewrite (pow2_split (k - 1) 1) by lia. change (2 ^ 1) with 2.
    destruct (Z.testbit M (k - 1)); cbn [Z.b2z];
      destruct (Z.eqb_spec (M mod 2 ^ (k - 1)) 0) as [E0|N0]; cbn [negb round_nearest_even].
    + rewrite E0. replace (2 * (0 + 2 ^ (k - 1) * 1) ?= 2 ^ (k - 1) * 2) with Eq;
        [reflexivity|]. symmetry. apply Z.compare_eq_iff. lia.
    + replace (2 * (M mod 2 ^ (k - 1) + 2 ^ (k - 1) * 1) ?= 2 ^ (k - 1) * 2) with Gt;
        [reflexivity|]. symmetry. apply Z.compare_gt_iff. lia.
    + rewrite E0. replace (2 * (0 + 2 ^ (k - 1) * 0) ?= 2 ^ (k - 1) * 2) with Lt;
        [reflexivity|]. symmetry. apply Z.compare_lt_iff. lia.
    + replace (2 * (M mod 2 ^ (k - 1) + 2 ^ (k - 1) * 0) ?= 2 ^ (k - 1) * 2) with Lt;
        [reflexivity|]. symmetry. apply Z.compare_lt_iff. lia.
Qed.

(** ** The float of a representable value *)

Lemma fexp_eq (e : Z) : fexp prec emax e = Z.max (e - 53) (-1074).
Proof. reflexivity. Qed.

Lemma texp_val (M E : Z) :
  0 < M -> - K <= E -> texp (M * 2 ^ (E + K)) = fexp prec emax (mag M + E) + K.
Proof.
  intros HM HE. unfold texp. rewrite mag_mul_pow2, fexp_eq by lia. lia.
Qed.

Lemma rnd_val (M E : Z) :
  0 < M -> - K <= E -> E <= fexp prec emax (mag M + E) ->
  rnd (M * 2 ^ (E + K)) =
  round_half_even_div M (2 ^ (fexp prec emax (mag M + E) - E)) *
  2 ^ (fexp prec emax (mag M + E) + K).
Proof.
  intros HM HE Hpre. unfold rnd. rewrite texp_val by assumption.
  f_equal.
  replace (fexp prec emax (mag M + E) + K)
    with ((fexp prec emax (mag M + E) - E) + (E + K)) by lia.
  rewrite (pow2_split (fexp prec emax (mag M + E) - E) (E + K)) by lia.
  apply rhe_scale; apply pow2_pos; lia.
Qed.

Lemma texp_rnd_ge (W : Z) : 0 <= W -> rnd W <> 0 -> texp W <= texp (rnd W).
Proof.
  intros HW HR.
  pose proof (texp_ge W) as [HK HM]. pose proof (texp_ge (rnd W)) as [HK' HM'].
  destruct (Z.eq_dec (texp W) (K - 1074)) as [E|NE]; [lia|].
  assert (Ht : texp W = mag W - 53) by (unfold texp in *; lia).
  assert (HW0 : 0 < W).
  { destruct (Z.eq_dec W 0) as [->|]; [|lia]. exfalso. apply NE. reflexivity. }
  pose proof (texp_nonneg W) as Htn. pose proof (pow2_pos _ Htn) as Hp.
  assert (Hlow : 2 ^ (52 + texp W) <= rnd W).
  { unfold rnd. rewrite pow2_split by lia.
    pose proof (mag_bounds W HW0) as [Hge _].
    replace (mag W - 1) with (52 + texp W) in Hge by lia.
    rewrite pow2_split in Hge by lia.
    pose proof (rhe_mono _ _ (2 ^ texp W) Hp Hge) as Hr.
    rewrite rhe_exact in Hr by lia. nia. }
  assert (mag (2 ^ (52 + texp W)) <= mag (rnd W)) by (apply mag_mono; lia).
  rewrite mag_pow2 in H by lia. lia.
Qed.

Lemma shr_m_rec_of (M k : Z) : 0 <= k -> shr_m (rec_of M k) = M / 2 ^ k.
Proof.
  intros Hk. unfold rec_of. destruct (Z.eqb_spec k 0) as [->|]; cbn [shr_m].
  - change (2 ^ 0) with 1. now rewrite Z.div_1_r.
  - reflexivity.
Qed.

Lemma decode_zero (s : bool) : decode s 0 = S754_zero s.
Proof. reflexivity. Qed.

(** The rounding of SpecFloat, on an exact positive mantissa whose exponent is
    not above the target exponent, is rounding of the value. *)
Lemma binary_round_aux_exact (s : bool) (M E : Z) :
  0 < M -> - K <= E -> E <= fexp prec emax (mag M + E) ->
  binary_round_aux prec emax s M E loc_Exact = decode s (rnd (M * 2 ^ (E + K))).
Proof.
  intros HM HE Hpre.
  pose proof K_eq as HK.
  assert (Hf : - 1074 <= fexp prec emax (mag M + E)) by (rewrite fexp_eq; lia).
  set (t := fexp prec emax (mag M + E)) in *.
  set (n := t - E).
  assert (HW : 0 <= M * 2 ^ (E + K)) by (pose proof (pow2_pos (E + K)); nia).
  pose proof (rnd_val M E HM HE Hpre) as HR. fold t in HR. fold n in HR.
  set (m1 := round_half_even_div M (2 ^ n)) in *.
  assert (Hm1 : 0 <= m1) by (apply rhe_nonneg; [apply pow2_pos|]; lia).
  unfold binary_round_aux, shr_fexp.
  rewrite (Zdigits2_mag M HM). fold t.
  change (shr_record_of_loc M loc_Exact) with (rec_of M 0).
  rewrite shr_rec_of by lia. fold n.
  rewrite Z.max_r by lia. cbn [Z.add].
  rewrite rec_of_round by lia. fold m1.
  replace (E + n) with t by lia.
  change (shr_record_of_loc m1 loc_Exact) with (rec_of m1 0).
  rewrite shr_rec_of by lia. cbn [Z.add].
  rewrite shr_m_rec_of by lia.
  destruct (Z.eq_dec m1 0) as [E0|NZ].
  - rewrite HR, E0. cbn [Z.mul]. rewrite decode_zero.
    rewrite Z.div_0_l by (apply Z.pow_nonzero; lia). reflexivity.
  - assert (Hm1p : 0 < m1) by lia.
    rewrite (Zdigits2_mag m1 Hm1p).
    assert (HRnz : rnd (M * 2 ^ (E + K)) <> 0).
    { rewrite HR. pose proof (pow2_pos (t + K)); nia. }
    pose proof (texp_rnd_ge _ HW HRnz) as Hge.
    rewrite texp_val in Hge by lia. fold t in Hge.
    rewrite HR in Hge |- *.
    unfold decode.
    rewrite texp_val in Hge |- * by lia.
    set (t' := fexp prec emax (mag m1 + t)) in *.
    rewrite Z.max_r by lia.
    replace (t + (t' - t)) with t' by lia.
    replace (t' + K - K) with t' by lia.
    replace (t' + K) with ((t + K) + (t' - t)) by lia.
    rewrite (pow2_split (t + K) (t' - t)) by lia.
    rewrite (Z.mul_comm m1), Z.div_mul_cancel_l by (apply Z.pow_nonzero; lia).
    assert (Hq : 0 <= m1 / 2 ^ (t' - t))
      by (apply Z.div_pos; [|apply pow2_pos]; lia).
    destruct (m1 / 2 ^ (t' - t)); [reflexivity|reflexivity|lia].
Qed.

(** ** Alignment and normalisation *)

Lemma iter_xO_pow2 (m d : positive) :
  Z.pos (Pos.iter xO m d) = Z.pos m * 2 ^ Z.pos d.
Proof.
  induction d as [|d IH] using Pos.peano_ind.
  - cbn [Pos.iter]. rewrite Pos2Z.inj_xO. change (2 ^ 1) with 2. lia.
  - rewrite Pos.iter_succ, Pos2Z.inj_xO, IH, Pos2Z.inj_succ, Z.pow_succ_r by lia.
    lia.
Qed.

Lemma shl_align_spec (m : positive) (e e' : Z) :
  snd (shl_align m e e') = Z.min e e' /\
  Z.pos (fst (shl_align m e e')) = Z.pos m * 2 ^ (e - Z.min e e').
Proof.
  unfold shl_align. destruct (e' - e) as [|d|d] eqn:Hd; cbn [fst snd].
  - rewrite Z.min_l by lia. rewrite Z.sub_diag. change (2 ^ 0) with 1. lia.
  - rewrite Z.min_l by lia. rewrite Z.sub_diag. change (2 ^ 0) with 1. lia.
  - rewrite Z.min_r by lia. rewrite iter_xO_pow2.
    replace (e - e') with (Z.pos d) by lia. lia.
Qed.

Lemma binary_round_correct (s : bool) (m : positive) (e : Z) :
  - K <= e ->
  binary_round prec emax s m e = decode s (rnd (Z.pos m * 2 ^ (e + K))).
Proof.
  intros He. pose proof K_eq as HK. unfold binary_round.
  rewrite digits2_mag.
  set (t := fexp prec emax (mag (Z.pos m) + e)).
  assert (Ht : -1074 <= t) by (unfold t; rewrite fexp_eq; lia).
  destruct (shl_align_spec m e t) as [He' Hm'].
  destruct (shl_align m e t) as [mz ez]. cbn [fst snd] in *.
  assert (Hmag : mag (Z.pos mz) + ez = mag (Z.pos m) + e).
  { rewrite Hm', mag_mul_pow2 by lia. lia. }
  rewrite binary_round_aux_exact; try lia.
  - f_equal. f_equal. rewrite Hm', <- Z.mul_assoc, <- pow2_split by lia.
    f_equal. f_equal. lia.
  - rewrite Hmag. fold t. lia.
Qed.

(** ** Values of floats *)

Lemma valid_finite (s : bool) (m : positive) (e : Z) :
  valid (S754_finite s m e) = true <->
  fexp prec emax (mag (Z.pos m) + e) = e /\ e <= 971.
Proof.
  unfold valid, valid_binary, bounded, canonical_mantissa.
  rewrite andb_true_iff, Z.eqb_eq, Z.leb_le, digits2_mag. reflexivity.
Qed.

Lemma valid_finite_bounds (s : bool) (m : positive) (e : Z) :
  valid (S754_finite s m e) = true ->
  -1074 <= e <= 971 /\ mag (Z.pos m) <= 53 /\
  (e = -1074 \/ mag (Z.pos m) = 53).
Proof.
  intros H. apply valid_finite in H as [Hc He]. rewrite fexp_eq in Hc. lia.
Qed.

Lemma valid_texp (s : bool) (m : positive) (e : Z) :
  valid (S754_finite s m e) = true -> texp (Z.pos m * 2 ^ (e + K)) = e + K.
Proof.
  intros H. pose proof K_eq. pose proof (valid_finite_bounds _ _ _ H).
  apply valid_finite in H as [Hc He].
  rewrite texp_val by lia. lia.
Qed.

Lemma valid_representable (s : bool) (m : positive) (e : Z) :
  valid (S754_finite s m e) = true -> representable (Z.pos m * 2 ^ (e + K)).
Proof.
  intros H. unfold representable. rewrite (valid_texp _ _ _ H).
  apply Z.mod_mul. apply Z.pow_nonzero; [lia|].
  pose proof K_eq. pose proof (valid_finite_bounds _ _ _ H). lia.
Qed.

Lemma valid_decode (s : bool) (m : positive) (e : Z) :
  valid (S754_finite s m e) = true ->
  decode s (Z.pos m * 2 ^ (e + K)) = S754_finite s m e.
Proof.
  intros H. pose proof K_eq. pose proof (valid_finite_bounds _ _ _ H).
  unfold decode. rewrite (valid_texp _ _ _ H).
  rewrite Z.div_mul by (apply Z.pow_nonzero; lia).
  replace (e + K - K) with e by lia.
  destruct (Z.leb_spec e 971); [reflexivity|lia].
Qed.

Lemma valid_fval_lt (s : bool) (m : positive) (e : Z) :
  valid (S754_finite s m e) = true -> 0 < Z.pos m * 2 ^ (e + K) < INF.
Proof.
  intros H. pose proof K_eq as HK.
  pose proof (valid_finite_bounds _ _ _ H) as (He & Hm & _).
  pose proof (pow2_pos (e + K) ltac:(lia)) as Hp.
  split; [nia|]. unfold INF.
  pose proof (mag_bounds (Z.pos m) ltac:(lia)) as [_ Hlt].
  pose proof (pow2_le (mag (Z.pos m)) 53
                ltac:(pose proof (mag_pos (Z.pos m)); lia)) as H53.
  pose proof (pow2_le (53 + (e + K)) (1024 + K) ltac:(lia)) as Hle.
  rewrite pow2_split in Hle by lia. nia.
Qed.

Lemma representable_split (R : Z) :
  0 <= R -> representable R -> R = (R / 2 ^ texp R) * 2 ^ texp R.
Proof.
  intros HR Hrep. unfold representable in Hrep.
  pose proof (pow2_pos _ (texp_nonneg R)).
  apply Z.div_exact in Hrep; lia.
Qed.

Lemma decode_valid (s : bool) (R : Z) :
  0 <= R -> representable R -> valid (decode s R) = true.
Proof.
  intros HR Hrep. unfold decode.
  pose proof (representable_split R HR Hrep) as Hs.
  pose proof (texp_ge R) as [HtK _]. pose proof K_eq.
  destruct (R / 2 ^ texp R) as [|m|m] eqn:Hq; try reflexivity.
  destruct (Z.leb_spec (texp R - K) 971); [|reflexivity].
  apply valid_finite. split; [|lia].
  assert (Ht : texp R = texp (Z.pos m * 2 ^ (texp R - K + K))).
  { replace (texp R - K + K) with (texp R) by lia. now rewrite <- Hs. }
  rewrite texp_val in Ht by lia. lia.
Qed.

Lemma ord_decode (s : bool) (R : Z) :
  0 <= R -> representable R ->
  ord (decode s R) = if s then - Z.min R INF else Z.min R INF.
Proof.
  intros HR Hrep. unfold decode.
  pose proof (representable_split R HR Hrep) as Hs.
  pose proof (texp_ge R) as [HtK HtM]. pose proof K_eq.
  assert (HINF : 0 < INF) by (apply pow2_pos; lia).
  destruct (R / 2 ^ texp R) as [|m|m] eqn:Hq.
  - cbn [ord]. assert (R = 0) by lia. subst R. rewrite Z.min_l by lia.
    destruct s; reflexivity.
  - assert (HRpos : 0 < R) by (pose proof (pow2_pos _ (texp_nonneg R)); nia).
    pose proof (mag_bounds R HRpos) as [Hlo Hhi].
    destruct (Z.leb_spec (texp R - K) 971) as [Hle|Hgt]; cbn [ord].
    + replace (texp R - K + K) with (texp R) by lia. rewrite <- Hs.
      assert (R < INF).
      { unfold INF. unfold texp in Hle.
        pose proof (pow2_le (mag R) (1024 + K) ltac:(pose proof (mag_pos R); lia)).
        lia. }
      rewrite Z.min_l by lia. reflexivity.
    + assert (INF <= R).
      { unfold INF. unfold texp in Hgt.
        pose proof (pow2_le (1024 + K) (mag R - 1) ltac:(lia)). lia. }
      rewrite Z.min_r by lia. reflexivity.
  - exfalso. pose proof (pow2_pos _ (texp_nonneg R)). nia.
Qed.

(** ** Comparison of valid floats is comparison of their positions *)

Lemma INF_pos : 0 < INF.
Proof. unfold INF. apply pow2_pos. pose proof K_eq. lia. Qed.

Lemma valid_lt_exp (s1 s2 : bool) (m1 m2 : positive) (e1 e2 : Z) :
  valid (S754_finite s1 m1 e1) = true -> valid (S754_finite s2 m2 e2) = true ->
  e1 < e2 -> Z.pos m1 * 2 ^ (e1 + K) < Z.pos m2 * 2 ^ (e2 + K).
Proof.
  intros H1 H2 Hlt. pose proof K_eq as HK.
  pose proof (valid_finite_bounds _ _ _ H1) as (He1 & Hm1 & _).
  pose proof (valid_finite_bounds _ _ _ H2) as (He2 & Hm2 & Hn2).
  assert (Hmag2 : mag (Z.pos m2) = 53) by lia.
  pose proof (mag_bounds (Z.pos m1) ltac:(lia)) as [_ Hhi1].
  pose proof (mag_bounds (Z.pos m2) ltac:(lia)) as [Hlo2 _].
  rewrite Hmag2 in Hlo2. change (53 - 1) with 52 in Hlo2.
  pose proof (pow2_le (mag (Z.pos m1)) 53
                ltac:(pose proof (mag_pos (Z.pos m1)); lia)) as H53.
  pose proof (pow2_pos (e1 + K) ltac:(lia)) as Hp1.
  pose proof (pow2_le (e1 + K + 1) (e2 + K) ltac:(lia)) as Hle.
  rewrite (pow2_split (e1 + K) 1) in Hle by lia. change (2 ^ 1) with 2 in Hle.
  change (2 ^ 53) with (2 * 2 ^ 52) in H53.
  nia.
Qed.

Ltac cmp_lt := symmetry; apply Z.compare_lt_iff.
Ltac cmp_gt := symmetry; apply Z.compare_gt_iff.

Lemma cmp_scale (a b P : Z) : 0 < P -> (a * P ?= b * P) = (a ?= b).
Proof.
  intros HP. destruct (Z.compare_spec a b); [ | |].
  - subst. apply Z.compare_refl.
  - apply Z.compare_lt_iff. nia.
  - apply Z.compare_gt_iff. nia.
Qed.

Lemma compare_finite_pos (s1 s2 : bool) (m1 m2 : positive) (e1 e2 : Z) :
  valid (S754_finite s1 m1 e1) = true -> valid (S754_finite s2 m2 e2) = true ->
  match e1 ?= e2 with
  | Lt => Lt
  | Gt => Gt
  | Eq => Pos.compare_cont Eq m1 m2
  end = (Z.pos m1 * 2 ^ (e1 + K) ?= Z.pos m2 * 2 ^ (e2 + K)).
Proof.
  intros H1 H2. pose proof K_eq as HK.
  pose proof (valid_finite_bounds _ _ _ H1) as (He1 & _).
  destruct (Z.compare_spec e1 e2) as [E|L|G].
  - subst e2. rewrite cmp_scale by (apply pow2_pos; lia).
    rewrite Pos2Z.inj_compare. reflexivity.
  - cmp_lt. now apply (valid_lt_exp s1 s2).
  - cmp_gt. now apply (valid_lt_exp s2 s1).
Qed.

Lemma compare_ord (x y : float) :
  valid x = true -> valid y = true -> is_nan x = false -> is_nan y = false ->
  SFcompare x y = Some (ord x ?= ord y).
Proof.
  intros Hx Hy Nx Ny. pose proof INF_pos as HI.
  destruct x as [sx|sx| |sx mx ex]; try discriminate Nx;
    destruct y as [sy|sy| |sy my ey]; try discriminate Ny;
    try (pose proof (valid_fval_lt _ _ _ Hx) as Vx);
    try (pose proof (valid_fval_lt _ _ _ Hy) as Vy);
    cbn [SFcompare ord].
  - reflexivity.
  - destruct sy; f_equal; try (cmp_lt; lia); try (cmp_gt; lia).
  - destruct sy; f_equal; try (cmp_lt; lia); try (cmp_gt; lia).
  - destruct sx; f_equal; try (cmp_lt; lia); try (cmp_gt; lia).
  - destruct sx, sy; f_equal; try (cmp_lt; lia); try (cmp_gt; lia);
      symmetry; apply Z.compare_eq_iff; reflexivity.
  - destruct sx, sy; f_equal; try (cmp_lt; lia); try (cmp_gt; lia).
  - destruct sx; f_equal; try (cmp_lt; lia); try (cmp_gt; lia).
  - destruct sx, sy; f_equal; try (cmp_lt; lia); try (cmp_gt; lia).
  - destruct sx, sy; f_equal; try (cmp_lt; lia); try (cmp_gt; lia).
    + rewrite Z.compare_opp, (Z.compare_antisym (Z.pos mx * _)).
      rewrite <- (compare_finite_pos true true mx my ex ey Hx Hy).
      destruct (ex ?= ey); reflexivity.
    + apply (compare_finite_pos false false); assumption.
Qed.

Lemma fleb_ord (x y : float) :
  valid x = true -> valid y = true -> is_nan x = false -> is_nan y = false ->
  fleb x y = (ord x <=? ord y).
Proof.
  intros Hx Hy Nx Ny. unfold fleb, SFleb. rewrite compare_ord by assumption.
  unfold Z.leb. destruct (ord x ?= ord y); reflexivity.
Qed.

Lemma fltb_ord (x y : float) :
  valid x = true -> valid y = true -> is_nan x = false -> is_nan y = false ->
  fltb x y = (ord x <? ord y).
Proof.
  intros Hx Hy Nx Ny. unfold fltb, SFltb. rewrite compare_ord by assumption.
  unfold Z.ltb. destruct (ord x ?= ord y); reflexivity.
Qed.

Lemma fleb_nan_l (y : float) : fleb S754_nan y = false.
Proof. reflexivity. Qed.

Lemma fleb_nan_r (x : float) : fleb x S754_nan = false.
Proof. destruct x; reflexivity. Qed.

Lemma fltb_nan_l (y : float) : fltb S754_nan y = false.
Proof. reflexivity. Qed.

Lemma fltb_nan_r (x : float) : fltb x S754_nan = false.
Proof. destruct x; reflexivity. Qed.

(** ** Signed rounding and the arithmetic operations on finite floats *)

Lemma rnd_0 : rnd 0 = 0.
Proof. reflexivity. Qed.

Lemma rnds_mono (S1 S2 : Z) : S1 <= S2 -> rnds S1 <= rnds S2.
Proof.
  intros H. unfold rnds.
  destruct (Z.ltb_spec S1 0), (Z.ltb_spec S2 0).
  - pose proof (rnd_mono (- S2) (- S1) ltac:(lia)). lia.
  - pose proof (rnd_nonneg (- S1) ltac:(lia)). pose proof (rnd_nonneg S2 ltac:(lia)). lia.
  - lia.
  - apply rnd_mono. lia.
Qed.

Lemma clamp_mono (a b : Z) : a <= b -> clamp a <= clamp b.
Proof. unfold clamp. lia. Qed.

Lemma rnds_nonneg (S : Z) : 0 <= S -> 0 <= rnds S.
Proof.
  intros H. unfold rnds. destruct (Z.ltb_spec S 0); [lia|now apply rnd_nonneg].
Qed.

Lemma rnds_nonpos (S : Z) : S <= 0 -> rnds S <= 0.
Proof.
  intros H. unfold rnds. destruct (Z.ltb_spec S 0).
  - pose proof (rnd_nonneg (- S) ltac:(lia)). lia.
  - assert (S = 0) by lia. subst. rewrite rnd_0. lia.
Qed.

Lemma decode_not_nan (s : bool) (R : Z) : is_nan (decode s R) = false.
Proof.
  unfold decode. destruct (R / 2 ^ texp R); try reflexivity.
  destruct (_ <=? _); reflexivity.
Qed.

Lemma decode_good (s : bool) (W : Z) : 0 <= W -> good (decode s (rnd W)).
Proof.
  intros HW. split; [|apply decode_not_nan].
  apply decode_valid; [now apply rnd_nonneg | now apply rnd_representable].
Qed.

Lemma of_val_good (S : Z) : good (of_val S).
Proof.
  destruct S; cbn [of_val]; [split; reflexivity| |]; apply decode_good; lia.
Qed.

Lemma ord_decode_rnd (s : bool) (W : Z) :
  0 <= W ->
  ord (decode s (rnd W)) = if s then - Z.min (rnd W) INF else Z.min (rnd W) INF.
Proof.
  intros HW. apply ord_decode; [now apply rnd_nonneg | now apply rnd_representable].
Qed.

Lemma ord_of_val (S : Z) : ord (of_val S) = clamp (rnds S).
Proof.
  pose proof INF_pos as HI. unfold clamp, rnds.
  destruct S as [|p|p]; cbn [of_val].
  - cbn [ord]. rewrite rnd_0. cbn. lia.
  - rewrite ord_decode_rnd by lia.
    pose proof (rnd_nonneg (Z.pos p) ltac:(lia)).
    destruct (Z.ltb_spec (Z.pos p) 0); lia.
  - rewrite ord_decode_rnd by lia.
    pose proof (rnd_nonneg (Z.pos p) ltac:(lia)).
    destruct (Z.ltb_spec (Z.neg p) 0); [|lia].
    change (- Z.neg p) with (Z.pos p). lia.
Qed.

Lemma binary_normalize_correct (M e : Z) :
  - K <= e -> binary_normalize prec emax M e false = of_val (M * 2 ^ (e + K)).
Proof.
  intros He. pose proof (pow2_pos (e + K) ltac:(lia)) as Hp.
  destruct M as [|m|m]; cbn [binary_normalize].
  - reflexivity.
  - rewrite binary_round_correct by assumption.
    destruct (Z.pos m * 2 ^ (e + K)) as [|p|p] eqn:E; try lia. reflexivity.
  - rewrite binary_round_correct by assumption.
    destruct (Z.neg m * 2 ^ (e + K)) as [|p|p] eqn:E; try lia.
    cbn [of_val]. f_equal. f_equal. lia.
Qed.

Lemma ord_finite (s : bool) (m : positive) (e : Z) :
  ord (S754_finite s m e) = cond_Zopp s (Z.pos m) * 2 ^ (e + K).
Proof. destruct s; cbn [ord cond_Zopp]; lia. Qed.

Lemma aligned_sum (sx sy : bool) (mx my : positive) (ex ey : Z) (neg : bool) :
  - K <= ex -> - K <= ey ->
  (cond_Zopp sx (Z.pos (fst (shl_align mx ex (Z.min ex ey)))) +
   cond_Zopp neg (cond_Zopp sy (Z.pos (fst (shl_align my ey (Z.min ex ey)))))) *
  2 ^ (Z.min ex ey + K) =
  ord (S754_finite sx mx ex) + cond_Zopp neg (ord (S754_finite sy my ey)).
Proof.
  intros Hx Hy.
  destruct (shl_align_spec mx ex (Z.min ex ey)) as [_ ->].
  destruct (shl_align_spec my ey (Z.min ex ey)) as [_ ->].
  rewrite !ord_finite.
  replace (Z.min ex (Z.min ex ey)) with (Z.min ex ey) by lia.
  replace (Z.min ey (Z.min ex ey)) with (Z.min ex ey) by lia.
  set (ez := Z.min ex ey).
  replace (2 ^ (ex + K)) with (2 ^ (ex - ez) * 2 ^ (ez + K))
    by (rewrite <- pow2_split by lia; f_equal; lia).
  replace (2 ^ (ey + K)) with (2 ^ (ey - ez) * 2 ^ (ez + K))
    by (rewrite <- pow2_split by lia; f_equal; lia).
  destruct sx, sy, neg; cbn [cond_Zopp]; ring.
Qed.

Lemma fadd_finite (sx sy : bool) (mx my : positive) (ex ey : Z) :
  valid (S754_finite sx mx ex) = true -> valid (S754_finite sy my ey) = true ->
  fadd (S754_finite sx mx ex) (S754_finite sy my ey) =
  of_val (ord (S754_finite sx mx ex) + ord (S754_finite sy my ey)).
Proof.
  intros Hx Hy. pose proof K_eq.
  pose proof (valid_finite_bounds _ _ _ Hx) as (Hex & _).
  pose proof (valid_finite_bounds _ _ _ Hy) as (Hey & _).
  unfold fadd. cbn [SFadd].
  rewrite binary_normalize_correct by lia.
  f_equal. apply (aligned_sum sx sy mx my ex ey false); lia.
Qed.

Lemma fsub_finite (sx sy : bool) (mx my : positive) (ex ey : Z) :
  valid (S754_finite sx mx ex) = true -> valid (S754_finite sy my ey) = true ->
  fsub (S754_finite sx mx ex) (S754_finite sy my ey) =
  of_val (ord (S754_finite sx mx ex) - ord (S754_finite sy my ey)).
Proof.
  intros Hx Hy. pose proof K_eq.
  pose proof (valid_finite_bounds _ _ _ Hx) as (Hex & _).
  pose proof (valid_finite_bounds _ _ _ Hy) as (Hey & _).
  unfold fsub. cbn [SFsub].
  rewrite binary_normalize_correct by lia.
  f_equal.
  pose proof (aligned_sum sx sy mx my ex ey true ltac:(lia) ltac:(lia)) as E.
  cbn [cond_Zopp] in E. lia.
Qed.

(** ** Multiplication *)

Lemma mag_mul_ge (a b : Z) : 0 < a -> 0 < b -> mag a + mag b - 1 <= mag (a * b).
Proof.
  intros Ha Hb.
  pose proof (mag_bounds a Ha) as [La _]. pose proof (mag_bounds b Hb) as [Lb _].
  pose proof (mag_pos a). pose proof (mag_pos b).
  assert (Hle : 2 ^ (mag a - 1 + (mag b - 1)) <= a * b).
  { rewrite pow2_split by lia.
    pose proof (pow2_pos (mag a - 1) ltac:(lia)).
    pose proof (pow2_pos (mag b - 1) ltac:(lia)). nia. }
  apply mag_mono in Hle. rewrite mag_pow2 in Hle by lia. lia.
Qed.

Lemma fmul_finite (sx sy : bool) (mx my : positive) (ex ey : Z) :
  valid (S754_finite sx mx ex) = true -> valid (S754_finite sy my ey) = true ->
  fmul (S754_finite sx mx ex) (S754_finite sy my ey) =
  decode (xorb sx sy) (rnd (Z.pos mx * Z.pos my * 2 ^ (ex + ey + K))).
Proof.
  intros Hx Hy. pose proof K_eq as HK.
  pose proof (valid_finite_bounds _ _ _ Hx) as (Hex & Hmx & Hnx).
  pose proof (valid_finite_bounds _ _ _ Hy) as (Hey & Hmy & Hny).
  unfold fmul. cbn [SFmul]. rewrite Pos2Z.inj_mul.
  apply binary_round_aux_exact; [lia|lia|].
  pose proof (mag_mul_ge (Z.pos mx) (Z.pos my) ltac:(lia) ltac:(lia)) as Hm.
  pose proof (mag_pos (Z.pos mx)). pose proof (mag_pos (Z.pos my)).
  rewrite fexp_eq. lia.
Qed.

(** ** Non-negative floats: zero, positive finite, plus infinity *)

Lemma ord_le_INF (x : float) : valid x = true -> - INF <= ord x <= INF.
Proof.
  intros Hx. pose proof INF_pos.
  destruct x as [s|s| |s m e]; cbn [ord]; try lia.
  - destruct s; lia.
  - pose proof (valid_fval_lt _ _ _ Hx). destruct s; lia.
Qed.

Lemma ord_INF (x : float) : valid x = true -> ord x = INF -> x = S754_infinity false.
Proof.
  intros Hx E. pose proof INF_pos.
  destruct x as [s|s| |s m e]; cbn [ord] in E; try lia.
  - destruct s; [lia|reflexivity].
  - pose proof (valid_fval_lt _ _ _ Hx). destruct s; lia.
Qed.

Lemma nng_cases (x : float) :
  nng x ->
  (exists s, x = S754_zero s) \/ x = S754_infinity false \/
  (exists m e, x = S754_finite false m e /\ valid x = true).
Proof.
  intros [[Hv Hn] Ho]. pose proof INF_pos.
  destruct x as [s|s| |s m e]; try discriminate Hn.
  - left. now exists s.
  - right. left. destruct s; [cbn in Ho; lia|reflexivity].
  - right. right. pose proof (valid_fval_lt _ _ _ Hv).
    destruct s; [cbn [ord] in Ho; lia|]. now exists m, e.
Qed.

Lemma nng_zero : nng zero.
Proof. repeat split; cbn; lia. Qed.

Lemma nng_pinf : nng pinf.
Proof. pose proof INF_pos. repeat split; cbn; lia. Qed.

Lemma rnd_fix_valid (s : bool) (m : positive) (e : Z) :
  valid (S754_finite s m e) = true ->
  rnd (Z.pos m * 2 ^ (e + K)) = Z.pos m * 2 ^ (e + K).
Proof.
  intros H. apply rnd_fix.
  - pose proof (valid_fval_lt _ _ _ H). lia.
  - now apply (valid_representable s).
Qed.

Lemma rnd_INF : rnd INF = INF.
Proof.
  pose proof K_eq. apply rnd_fix; [pose proof INF_pos; lia|].
  unfold representable, INF. unfold texp. rewrite mag_pow2 by lia.
  replace (Z.max (1024 + K + 1 - 53) (K - 1074)) with (972 + K) by lia.
  replace (1024 + K) with (52 + (972 + K)) by lia.
  rewrite pow2_split by lia. apply Z.mod_mul. apply Z.pow_nonzero; lia.
Qed.

Lemma fadd_nng (x y : float) :
  nng x -> nng y -> nng (fadd x y) /\ ord (fadd x y) = oadd (ord x) (ord y).
Proof.
  intros Hx Hy. pose proof INF_pos as HI. unfold oadd.
  destruct (nng_cases x Hx) as [[sx ->]|[->|(mx & ex & -> & Vx)]];
    destruct (nng_cases y Hy) as [[sy ->]|[->|(my & ey & -> & Vy)]];
    try (pose proof (valid_fval_lt _ _ _ Vx) as Bx);
    try (pose proof (valid_fval_lt _ _ _ Vy) as By).
  - split.
    + destruct sx, sy; repeat split; cbn; lia.
    + destruct sx, sy; cbn [ord fadd SFadd]; rewrite ?Z.eqb_refl;
        (destruct (Z.eqb_spec 0 INF); [lia|]); cbn [orb]; rewrite Z.add_0_l, rnd_0; lia.
  - split; [exact nng_pinf|]. cbn [ord]. rewrite Z.eqb_refl, orb_true_r. reflexivity.
  - split; [exact Hy|]. cbn [ord fadd SFadd].
    destruct (Z.eqb_spec 0 INF); [lia|].
    destruct (Z.eqb_spec (Z.pos my * 2 ^ (ey + K)) INF); [lia|]. cbn [orb].
    rewrite Z.add_0_l, (rnd_fix_valid _ _ _ Vy). lia.
  - split; [exact nng_pinf|]. cbn [ord]. rewrite Z.eqb_refl. reflexivity.
  - split; [exact nng_pinf|]. cbn [ord]. rewrite Z.eqb_refl. reflexivity.
  - split; [exact nng_pinf|]. cbn [ord]. rewrite Z.eqb_refl. reflexivity.
  - split; [exact Hx|]. cbn [ord fadd SFadd].
    destruct (Z.eqb_spec 0 INF); [lia|].
    destruct (Z.eqb_spec (Z.pos mx * 2 ^ (ex + K)) INF); [lia|]. cbn [orb].
    rewrite Z.add_0_r, (rnd_fix_valid _ _ _ Vx). lia.
  - split; [exact nng_pinf|]. cbn [ord]. rewrite Z.eqb_refl, orb_true_r. reflexivity.
  - rewrite fadd_finite by assumption. cbn [ord].
    set (S := Z.pos mx * 2 ^ (ex + K) + Z.pos my * 2 ^ (ey + K)).
    assert (HS : 0 < S) by (unfold S; lia).
    pose proof (rnd_nonneg S ltac:(lia)) as Hr.
    assert (Ho : ord (of_val S) = Z.min INF (rnd S)).
    { rewrite ord_of_val. unfold clamp, rnds.
      destruct (Z.ltb_spec S 0); lia. }
    split.
    + split; [apply of_val_good|]. rewrite Ho. lia.
    + rewrite Ho.
      destruct (Z.eqb_spec (Z.pos mx * 2 ^ (ex + K)) INF); [lia|].
      destruct (Z.eqb_spec (Z.pos my * 2 ^ (ey + K)) INF); [lia|]. reflexivity.
Qed.

Lemma fsub_nng (x l : float) :
  nng x -> nng l -> ord l < INF -> ord l <= ord x ->
  nng (fsub x l) /\ ord (fsub x l) = osub (ord x) (ord l).
Proof.
  intros Hx Hl Hfin Hle. pose proof INF_pos as HI. unfold osub.
  destruct (nng_cases x Hx) as [[sx ->]|[->|(mx & ex & -> & Vx)]];
    destruct (nng_cases l Hl) as [[sl ->]|[->|(ml & el & -> & Vl)]];
    try (pose proof (valid_fval_lt _ _ _ Vx) as Bx);
    try (pose proof (valid_fval_lt _ _ _ Vl) as Bl);
    cbn [ord] in Hfin, Hle; try lia.
  - split.
    + destruct sx, sl; repeat split; cbn; lia.
    + destruct sx, sl; cbn [ord fsub SFsub];
        (destruct (Z.eqb_spec 0 INF); [lia|]); rewrite Z.sub_0_r, rnd_0; reflexivity.
  - split; [exact nng_pinf|]. cbn [ord]. rewrite Z.eqb_refl. reflexivity.
  - split; [exact nng_pinf|]. cbn [ord]. rewrite Z.eqb_refl. reflexivity.
  - split; [exact Hx|]. cbn [ord fsub SFsub].
    destruct (Z.eqb_spec (Z.pos mx * 2 ^ (ex + K)) INF); [lia|].
    rewrite Z.sub_0_r, (rnd_fix_valid _ _ _ Vx). reflexivity.
  - rewrite fsub_finite by assumption. cbn [ord].
    set (a := Z.pos mx * 2 ^ (ex + K)) in *.
    set (b := Z.pos ml * 2 ^ (el + K)) in *.
    pose proof (rnd_nonneg (a - b) ltac:(lia)) as Hr.
    pose proof (rnd_mono (a - b) a ltac:(lia)) as Hm.
    unfold a at 2 in Hm. rewrite (rnd_fix_valid _ _ _ Vx) in Hm. fold a in Hm.
    assert (Ho : ord (of_val (a - b)) = rnd (a - b)).
    { rewrite ord_of_val. unfold clamp, rnds.
      destruct (Z.ltb_spec (a - b) 0); lia. }
    split.
    + split; [apply of_val_good|]. rewrite Ho. lia.
    + rewrite Ho. destruct (Z.eqb_spec a INF); [lia|]. reflexivity.
Qed.

Lemma fmul_nng (x : float) (mr : positive) (er : Z) :
  nng x -> valid (S754_finite false mr er) = true ->
  nng (fmul x (S754_finite false mr er)) /\
  ord (fmul x (S754_finite false mr er)) =
  omul (ord x) (ord (S754_finite false mr er)).
Proof.
  intros Hx Vr. pose proof INF_pos as HI. pose proof K_eq as HK. unfold omul.
  pose proof (valid_finite_bounds _ _ _ Vr) as (Her & _).
  destruct (nng_cases x Hx) as [[sx ->]|[->|(mx & ex & -> & Vx)]].
  - split.
    + destruct sx; repeat split; cbn; lia.
    + cbn [ord fmul SFmul]. destruct (Z.eqb_spec 0 INF); [lia|].
      rewrite Z.mul_0_l, Z.div_0_l by (apply Z.pow_nonzero; lia).
      rewrite rnd_0. lia.
  - split; [exact nng_pinf|]. cbn [ord]. rewrite Z.eqb_refl. reflexivity.
  - pose proof (valid_finite_bounds _ _ _ Vx) as (Hex & _).
    pose proof (valid_fval_lt _ _ _ Vx) as Bx.
    rewrite fmul_finite by assumption. cbn [xorb ord].
    set (W := Z.pos mx * Z.pos mr * 2 ^ (ex + er + K)).
    assert (HW : 0 <= W).
    { unfold W. pose proof (pow2_pos (ex + er + K) ltac:(lia)). nia. }
    assert (EW : Z.pos mx * 2 ^ (ex + K) * (Z.pos mr * 2 ^ (er + K)) / 2 ^ K = W).
    { unfold W.
      replace (Z.pos mx * 2 ^ (ex + K) * (Z.pos mr * 2 ^ (er + K)))
        with (Z.pos mx * Z.pos mr * (2 ^ (ex + K) * 2 ^ (er + K))) by ring.
      rewrite <- (pow2_split (ex + K) (er + K)) by lia.
      replace (ex + K + (er + K)) with (ex + er + K + K) by lia.
      rewrite (pow2_split (ex + er + K) K) by lia.
      rewrite Z.mul_assoc. apply Z.div_mul. apply Z.pow_nonzero; lia. }
    rewrite EW, ord_decode_rnd by assumption.
    pose proof (rnd_nonneg W HW).
    split.
    + split; [now apply decode_good|]. rewrite ord_decode_rnd by assumption. lia.
    + destruct (Z.eqb_spec (Z.pos mx * 2 ^ (ex + K)) INF); lia.
Qed.

(** ** Monotonicity of the positions *)

Lemma oadd_mono (a1 a2 b1 b2 : Z) :
  0 <= a1 <= a2 -> a2 <= INF -> 0 <= b1 <= b2 -> b2 <= INF ->
  oadd a1 b1 <= oadd a2 b2.
Proof.
  intros Ha Ha2 Hb Hb2. unfold oadd.
  destruct (Z.eqb_spec a1 INF), (Z.eqb_spec b1 INF),
           (Z.eqb_spec a2 INF), (Z.eqb_spec b2 INF); cbn [orb]; try lia.
  pose proof (rnd_mono (a1 + b1) (a2 + b2) ltac:(lia)). lia.
Qed.

Lemma oadd_ge_l (a b : Z) :
  0 <= a <= INF -> 0 <= b -> rnd a = a -> a <= oadd a b.
Proof.
  intros Ha Hb Hfix. unfold oadd.
  destruct (Z.eqb_spec a INF), (Z.eqb_spec b INF); cbn [orb]; try lia.
  pose proof (rnd_mono a (a + b) ltac:(lia)). lia.
Qed.

Lemma osub_mono (a1 a2 l : Z) :
  0 <= l <= a1 -> a1 <= a2 -> a2 <= INF -> osub a1 l <= osub a2 l.
Proof.
  intros Hl Ha Ha2. unfold osub.
  destruct (Z.eqb_spec a1 INF), (Z.eqb_spec a2 INF); try lia.
  - pose proof (rnd_mono (a1 - l) INF ltac:(lia)). rewrite rnd_INF in H. lia.
  - apply rnd_mono. lia.
Qed.

Lemma omul_mono (a1 a2 r : Z) :
  0 <= a1 <= a2 -> a2 <= INF -> 0 <= r -> omul a1 r <= omul a2 r.
Proof.
  intros Ha Ha2 Hr. unfold omul. pose proof K_eq.
  destruct (Z.eqb_spec a1 INF), (Z.eqb_spec a2 INF); try lia.
  assert (0 <= a1 * r / 2 ^ K) by (apply Z.div_pos; [nia|apply pow2_pos; lia]).
  assert (a1 * r / 2 ^ K <= a2 * r / 2 ^ K)
    by (apply Z.div_le_mono; [apply pow2_pos; lia|nia]).
  pose proof (rnd_mono (a1 * r / 2 ^ K) (a2 * r / 2 ^ K) ltac:(lia)). lia.
Qed.

(** ** [min] and [max] of Python on floats *)

Lemma py_min_nng (c u : float) :
  nng c -> nng u -> nng (py_min c u) /\ ord (py_min c u) = Z.min (ord c) (ord u).
Proof.
  intros Hc Hu. unfold py_min.
  destruct Hc as [[Vc Nc] Oc], Hu as [[Vu Nu] Ou].
  rewrite fltb_ord by assumption.
  destruct (Z.ltb_spec (ord u) (ord c)); (split; [repeat split; assumption|lia]).
Qed.

Lemma py_max_zero (d : float) :
  valid d = true ->
  nng (py_max zero d) /\ ord (py_max zero d) = Z.max 0 (ord d).
Proof.
  intros Vd. unfold py_max.
  destruct (is_nan d) eqn:Nd.
  - destruct d; try discriminate Nd. cbn. split; [exact nng_zero|reflexivity].
  - rewrite fltb_ord by (try assumption; reflexivity).
    change (ord zero) with 0.
    destruct (Z.ltb_spec 0 (ord d)).
    + split; [repeat split; (assumption || lia)|lia].
    + split; [exact nng_zero|cbn; lia].
Qed.

(** ** One band of the loop *)

Lemma nng_ord_bounds (x : float) : nng x -> 0 <= ord x <= INF.
Proof. intros [[V _] O]. pose proof (ord_le_INF x V). lia. Qed.

Lemma nng_rnd_fix (x : float) : nng x -> rnd (ord x) = ord x.
Proof.
  intros H. destruct (nng_cases x H) as [[s ->]|[->|(m & e & -> & V)]]; cbn [ord].
  - apply rnd_0.
  - apply rnd_INF.
  - now apply (rnd_fix_valid false).
Qed.

Lemma osub_bounds (a l : Z) : 0 <= l <= a -> a <= INF -> 0 <= osub a l <= INF.
Proof.
  intros Hl Ha. unfold osub. pose proof INF_pos.
  destruct (Z.eqb_spec a INF); [lia|].
  pose proof (rnd_nonneg (a - l) ltac:(lia)).
  pose proof (rnd_mono (a - l) INF ltac:(lia)) as Hm. rewrite rnd_INF in Hm. lia.
Qed.

Lemma increment_nng (c lower u r : float) :
  nng c -> nng lower -> ord lower < INF -> nng u -> ord lower <= ord u ->
  rate_ok r -> ord lower < ord c ->
  nng (increment c lower u r) /\
  ord (increment c lower u r) = increment_ord (ord c) (ord lower) (ord u) r.
Proof.
  intros Hc Hl Hfin Hu Hlu Hr Hlt. unfold increment, increment_ord.
  destruct Hr as [Hz|(m & e & -> & Vr)].
  - rewrite Hz. split; [exact nng_zero|reflexivity].
  - change (feqb (S754_finite false m e) zero) with false. cbv iota.
    destruct (py_min_nng c u Hc Hu) as [Hm Om].
    destruct (fsub_nng (py_min c u) lower Hm Hl Hfin ltac:(lia)) as [Hs Os].
    destruct (fmul_nng _ m e Hs Vr) as [Hp Op].
    split; [exact Hp|]. rewrite Op, Os, Om. reflexivity.
Qed.

Lemma increment_ord_nonneg (oc ol ou : Z) (r : float) :
  0 <= ol -> ol <= oc -> ol <= ou -> oc <= INF -> ou <= INF -> rate_ok r ->
  0 <= increment_ord oc ol ou r.
Proof.
  intros Hl Hc Hu HcI HuI Hr. unfold increment_ord, omul. pose proof INF_pos.
  pose proof K_eq.
  destruct (feqb r zero); [lia|].
  destruct (Z.eqb_spec (osub (Z.min oc ou) ol) INF); [lia|].
  pose proof (osub_bounds (Z.min oc ou) ol ltac:(lia) ltac:(lia)).
  assert (0 <= ord r).
  { destruct Hr as [Hz|(m & e & -> & Vr)].
    - destruct r as [s|s| |s m e]; try discriminate Hz; cbn [ord]; try lia.
      all: destruct s; discriminate Hz.
    - pose proof (valid_fval_lt _ _ _ Vr). cbn [ord]. lia. }
  assert (0 <= osub (Z.min oc ou) ol * ord r / 2 ^ K)
    by (apply Z.div_pos; [nia|apply pow2_pos; lia]).
  pose proof (rnd_nonneg _ H3). lia.
Qed.

Lemma increment_ord_mono (oc1 oc2 ol ou : Z) (r : float) :
  0 <= ol -> ol <= oc1 -> oc1 <= oc2 -> ol <= ou -> oc2 <= INF -> ou <= INF ->
  rate_ok r ->
  increment_ord oc1 ol ou r <= increment_ord oc2 ol ou r.
Proof.
  intros Hl H1 H12 Hu H2I HuI Hr. unfold increment_ord.
  destruct (feqb r zero) eqn:Hz; [lia|].
  assert (0 <= ord r).
  { destruct Hr as [Hz'|(m & e & -> & Vr)]; [congruence|].
    pose proof (valid_fval_lt _ _ _ Vr). cbn [ord]. lia. }
  pose proof (osub_bounds (Z.min oc1 ou) ol ltac:(lia) ltac:(lia)).
  pose proof (osub_bounds (Z.min oc2 ou) ol ltac:(lia) ltac:(lia)).
  apply omul_mono; try lia.
  split; [lia|]. apply osub_mono; lia.
Qed.

(** ** The loop on non-negative chargeable income *)

Lemma fleb_nng (x y : float) : nng x -> nng y -> fleb x y = (ord x <=? ord y).
Proof. intros [[? ?] _] [[? ?] _]. now apply fleb_ord. Qed.

Lemma tax_loop_nng (bs : list (float * float * float)) :
  forall c t lower,
    nng c -> nng t -> bands_ok lower bs ->
    nng (tax_loop c bs t lower) /\ ord t <= ord (tax_loop c bs t lower).
Proof.
  induction bs as [|[[u b] r] rest IH]; intros c t lower Hc Ht Hok.
  - cbn [tax_loop]. split; [exact Ht|lia].
  - destruct Hok as (Hl & Hfin & Hu & Hlu & Hr & Hrest).
    rewrite tax_loop_cons, (fleb_nng c lower Hc Hl).
    destruct (Z.leb_spec (ord c) (ord lower)) as [Hle|Hlt]; [split; [exact Ht|lia]|].
    fold (increment c lower u r).
    destruct (increment_nng c lower u r Hc Hl Hfin Hu Hlu Hr Hlt) as [Hi Oi].
    destruct (fadd_nng t _ Ht Hi) as [Ha Oa].
    destruct (IH c _ u Hc Ha Hrest) as [Hres Hge].
    split; [exact Hres|].
    pose proof (nng_ord_bounds t Ht). pose proof (nng_ord_bounds _ Hi).
    pose proof (oadd_ge_l (ord t) (ord (increment c lower u r))
                  ltac:(lia) ltac:(lia) (nng_rnd_fix t Ht)).
    lia.
Qed.

Lemma tax_loop_mono (bs : list (float * float * float)) :
  forall c1 c2 t1 t2 lower,
    nng c1 -> nng c2 -> ord c1 <= ord c2 ->
    nng t1 -> nng t2 -> ord t1 <= ord t2 ->
    bands_ok lower bs ->
    ord (tax_loop c1 bs t1 lower) <= ord (tax_loop c2 bs t2 lower).
Proof.
  induction bs as [|[[u b] r] rest IH];
    intros c1 c2 t1 t2 lower Hc1 Hc2 Hc Ht1 Ht2 Ht Hok.
  - exact Ht.
  - pose proof Hok as (Hl & Hfin & Hu & Hlu & Hr & Hrest).
    rewrite !tax_loop_cons, (fleb_nng c1 lower Hc1 Hl), (fleb_nng c2 lower Hc2 Hl).
    destruct (Z.leb_spec (ord c1) (ord lower)) as [Hle1|Hlt1];
      destruct (Z.leb_spec (ord c2) (ord lower)) as [Hle2|Hlt2]; try lia.
    + fold (increment c2 lower u r).
      destruct (increment_nng c2 lower u r Hc2 Hl Hfin Hu Hlu Hr Hlt2) as [Hi Oi].
      destruct (fadd_nng t2 _ Ht2 Hi) as [Ha Oa].
      destruct (tax_loop_nng rest c2 _ u Hc2 Ha Hrest) as [_ Hge].
      pose proof (nng_ord_bounds t2 Ht2). pose proof (nng_ord_bounds _ Hi).
      pose proof (oadd_ge_l (ord t2) (ord (increment c2 lower u r))
                    ltac:(lia) ltac:(lia) (nng_rnd_fix t2 Ht2)).
      lia.
    + fold (increment c1 lower u r). fold (increment c2 lower u r).
      destruct (increment_nng c1 lower u r Hc1 Hl Hfin Hu Hlu Hr Hlt1) as [Hi1 Oi1].
      destruct (increment_nng c2 lower u r Hc2 Hl Hfin Hu Hlu Hr Hlt2) as [Hi2 Oi2].
      destruct (fadd_nng t1 _ Ht1 Hi1) as [Ha1 Oa1].
      destruct (fadd_nng t2 _ Ht2 Hi2) as [Ha2 Oa2].
      apply IH; try assumption.
      rewrite Oa1, Oa2.
      pose proof (nng_ord_bounds t1 Ht1). pose proof (nng_ord_bounds t2 Ht2).
      pose proof (nng_ord_bounds c1 Hc1). pose proof (nng_ord_bounds c2 Hc2).
      pose proof (nng_ord_bounds lower Hl). pose proof (nng_ord_bounds u Hu).
      pose proof (nng_ord_bounds _ Hi1). pose proof (nng_ord_bounds _ Hi2).
      apply oadd_mono; try lia.
      split; [lia|]. rewrite Oi1, Oi2.
      apply increment_ord_mono; try assumption; lia.
Qed.

(** ** Rounding a quotient of integers to 53 significant bits *)

Lemma representable_mantissa (m t : Z) :
  0 <= m <= 2 ^ 53 -> K - 1074 <= t -> representable (m * 2 ^ t).
Proof.
  intros [Hm0 Hm] HtK. pose proof K_eq as HK. unfold representable.
  assert (Ht : 0 <= t) by lia. pose proof (pow2_pos _ Ht) as Hp.
  destruct (Z.eq_dec m 0) as [->|NZ].
  { rewrite Z.mul_0_l. apply Z.mod_0_l.
    pose proof (pow2_pos _ (texp_nonneg 0)); lia. }
  assert (Hle : texp (m * 2 ^ t) <= t \/
                (m = 2 ^ 53 /\ texp (m * 2 ^ t) = t + 1)).
  { destruct (Z.eq_dec m (2 ^ 53)) as [E|NE].
    - right. split; [exact E|]. rewrite E, <- pow2_split by lia.
      unfold texp. rewrite mag_pow2 by lia. lia.
    - left. assert (Hmag : mag m <= 53).
      { assert (mag m <= mag (2 ^ 53 - 1)) by (apply mag_mono; lia).
        assert (mag (2 ^ 53 - 1) = 53) by reflexivity. lia. }
      unfold texp. rewrite mag_mul_pow2 by lia. lia. }
  pose proof (texp_nonneg (m * 2 ^ t)) as Ht'.
  revert Hle Ht'. generalize (texp (m * 2 ^ t)). intros t' Hle Ht'.
  pose proof (pow2_pos _ Ht') as Hp'.
  destruct Hle as [Hle|[E Hle]].
  - replace t with ((t - t') + t') by lia.
    rewrite pow2_split by lia. rewrite Z.mul_assoc. apply Z.mod_mul. lia.
  - rewrite E, <- pow2_split by lia.
    replace (53 + t) with (52 + t') by lia.
    rewrite pow2_split by lia. apply Z.mod_mul. lia.
Qed.

Lemma floor_lt_pow2 (W : Z) : 0 <= W -> W < 2 ^ (53 + texp W).
Proof.
  intros HW. pose proof (texp_ge W) as [_ Hg]. pose proof (texp_nonneg W).
  destruct (Z.eq_dec W 0) as [->|NZ]; [apply pow2_pos; lia|].
  pose proof (mag_bounds W ltac:(lia)) as [_ Hlt].
  pose proof (pow2_le (mag W) (53 + texp W) ltac:(pose proof (mag_pos W); lia)).
  lia.
Qed.

Lemma rndq_mantissa_le (P Q : Z) :
  0 <= P -> 0 < Q ->
  0 <= round_half_even_div P (Q * 2 ^ texp (P / Q)) <= 2 ^ 53.
Proof.
  intros HP HQ. set (W := P / Q). pose proof (texp_nonneg W) as Ht.
  pose proof (pow2_pos _ Ht) as Hp.
  assert (HW : 0 <= W) by (apply Z.div_pos; lia).
  assert (HD : 0 < Q * 2 ^ texp W) by nia.
  split; [apply rhe_nonneg; lia|].
  rewrite <- (rhe_exact (2 ^ 53) (Q * 2 ^ texp W)) by lia.
  apply rhe_mono; [lia|].
  pose proof (floor_lt_pow2 W HW) as Hlt. rewrite pow2_split in Hlt by lia.
  pose proof (Z.div_mod P Q ltac:(lia)). pose proof (Z.mod_pos_bound P Q HQ).
  fold W in H. nia.
Qed.

Lemma rndq_nonneg (P Q : Z) : 0 <= P -> 0 < Q -> 0 <= rndq P Q.
Proof.
  intros HP HQ. unfold rndq. pose proof (rndq_mantissa_le P Q HP HQ).
  pose proof (pow2_pos _ (texp_nonneg (P / Q))). nia.
Qed.

Lemma rndq_representable (P Q : Z) : 0 <= P -> 0 < Q -> representable (rndq P Q).
Proof.
  intros HP HQ. apply representable_mantissa.
  - now apply rndq_mantissa_le.
  - apply texp_ge.
Qed.

Lemma rndq_mono (P1 P2 Q : Z) :
  0 < Q -> 0 <= P1 <= P2 -> rndq P1 Q <= rndq P2 Q.
Proof.
  intros HQ [H1 H12].
  set (W1 := P1 / Q). set (W2 := P2 / Q).
  assert (HW : W1 <= W2) by (apply Z.div_le_mono; lia).
  assert (HW1 : 0 <= W1) by (apply Z.div_pos; lia).
  pose proof (texp_mono _ _ HW) as Ht.
  pose proof (texp_nonneg W1) as Ht1.
  pose proof (pow2_pos _ Ht1) as Hp1.
  pose proof (pow2_pos _ (texp_nonneg W2)) as Hp2.
  unfold rndq. fold W1 W2.
  destruct (Z.eq_dec (texp W1) (texp W2)) as [E|NE].
  - rewrite E.
    pose proof (rhe_mono P1 P2 (Q * 2 ^ texp W2) ltac:(nia) H12). nia.
  - assert (Hlt : texp W1 < texp W2) by lia.
    assert (HW2 : 0 < W2).
    { destruct (Z.eq_dec W2 0) as [E0|]; [|lia].
      assert (W1 = 0) by lia. rewrite E0, H in Hlt. lia. }
    assert (Hm2 : texp W2 = mag W2 - 53) by (unfold texp in *; lia).
    pose proof (rndq_mantissa_le P1 Q H1 HQ) as [_ Hm1]. fold W1 in Hm1.
    assert (Hup : round_half_even_div P1 (Q * 2 ^ texp W1) * 2 ^ texp W1
                  <= 2 ^ (53 + texp W1)).
    { rewrite pow2_split by lia. nia. }
    assert (Hlow : 2 ^ (52 + texp W2)
                   <= round_half_even_div P2 (Q * 2 ^ texp W2) * 2 ^ texp W2).
    { rewrite pow2_split by lia.
      pose proof (mag_bounds W2 HW2) as [Hge _].
      replace (mag W2 - 1) with (52 + texp W2) in Hge by lia.
      rewrite pow2_split in Hge by lia.
      assert (HP2 : 2 ^ 52 * (Q * 2 ^ texp W2) <= P2).
      { pose proof (Z.div_mod P2 Q ltac:(lia)).
        pose proof (Z.mod_pos_bound P2 Q HQ). fold W2 in H. nia. }
      pose proof (rhe_mono _ _ (Q * 2 ^ texp W2) ltac:(nia) HP2) as Hr.
      rewrite rhe_exact in Hr by nia. nia. }
    pose proof (pow2_le (53 + texp W1) (52 + texp W2) ltac:(lia)). lia.
Qed.

Lemma rndq_int (W Q : Z) : 0 < Q -> rndq (W * Q) Q = rnd W.
Proof.
  intros HQ. unfold rndq, rnd. rewrite Z.div_mul by lia.
  f_equal. rewrite (Z.mul_comm Q). apply rhe_scale; [|lia].
  apply pow2_pos, texp_nonneg.
Qed.


(** ** Inexact locations: two more bits carry all that rounding needs *)

Lemma loc_code_range (l : location) : 0 <= loc_code l <= 3.
Proof. destruct l as [|[| |]]; cbn; lia. Qed.

Lemma shr_record_of_loc_code (q : Z) (l : location) :
  0 <= q -> shr_record_of_loc q l = rec_of (4 * q + loc_code l) 2.
Proof.
  intros Hq. unfold rec_of.
  change (2 =? 0) with false. cbv iota.
  change (2 ^ 2) with 4. change (2 - 1) with 1. change (2 ^ 1) with 2.
  rewrite Z.testbit_odd, Z.shiftr_div_pow2 by lia. change (2 ^ 1) with 2.
  destruct l as [|[| |]]; cbn [loc_code shr_record_of_loc].
  - replace ((4 * q + 0) / 4) with q by (apply Z.div_unique with (r := 0); lia).
    replace ((4 * q + 0) / 2) with (2 * q) by (apply Z.div_unique with (r := 0); lia).
    replace ((4 * q + 0) mod 2) with 0 by (apply Z.mod_unique with (q := 2 * q); lia).
    rewrite Z.odd_mul. reflexivity.
  - replace ((4 * q + 2) / 4) with q by (apply Z.div_unique with (r := 2); lia).
    replace ((4 * q + 2) / 2) with (1 + 2 * q) by (apply Z.div_unique with (r := 0); lia).
    replace ((4 * q + 2) mod 2) with 0 by (apply Z.mod_unique with (q := 2 * q + 1); lia).
    rewrite Z.odd_add_mul_2. reflexivity.
  - replace ((4 * q + 1) / 4) with q by (apply Z.div_unique with (r := 1); lia).
    replace ((4 * q + 1) / 2) with (2 * q) by (apply Z.div_unique with (r := 1); lia).
    replace ((4 * q + 1) mod 2) with 1 by (apply Z.mod_unique with (q := 2 * q); lia).
    rewrite Z.odd_mul. reflexivity.
  - replace ((4 * q + 3) / 4) with q by (apply Z.div_unique with (r := 3); lia).
    replace ((4 * q + 3) / 2) with (1 + 2 * q) by (apply Z.div_unique with (r := 1); lia).
    replace ((4 * q + 3) mod 2) with 1 by (apply Z.mod_unique with (q := 2 * q + 1); lia).
    rewrite Z.odd_add_mul_2. reflexivity.
Qed.

Lemma mag_sticky (q c : Z) : 0 < q -> 0 <= c <= 3 -> mag (4 * q + c) = mag q + 2.
Proof.
  intros Hq Hc. pose proof (mag_bounds q Hq) as [Hlo Hhi]. pose proof (mag_pos q).
  apply mag_unique; [|lia].
  replace (mag q + 2 - 1) with ((mag q - 1) + 2) by lia.
  rewrite !pow2_split by lia. change (2 ^ 2) with 4. lia.
Qed.

Lemma binary_round_aux_inexact (s : bool) (q e : Z) (l : location) :
  0 < q -> e <= fexp prec emax (mag q + e) ->
  binary_round_aux prec emax s q e l =
  binary_round_aux prec emax s (4 * q + loc_code l) (e - 2) loc_Exact.
Proof.
  intros Hq Hpre. pose proof (loc_code_range l) as Hc.
  assert (Es : shr_fexp prec emax q e l =
               shr_fexp prec emax (4 * q + loc_code l) (e - 2) loc_Exact).
  { unfold shr_fexp.
    rewrite (Zdigits2_mag q Hq), (Zdigits2_mag (4 * q + loc_code l)) by lia.
    rewrite mag_sticky by lia.
    rewrite shr_record_of_loc_code by lia.
    change (shr_record_of_loc (4 * q + loc_code l) loc_Exact)
      with (rec_of (4 * q + loc_code l) 0).
    rewrite !shr_rec_of by lia.
    replace (mag q + 2 + (e - 2)) with (mag q + e) by lia.
    f_equal; [f_equal|]; lia. }
  unfold binary_round_aux. rewrite Es. reflexivity.
Qed.

(** ** Division by one hundred *)

Lemma new_location_100 (r : Z) :
  loc_code (new_location 100 r) = hundred_code r.
Proof.
  unfold new_location, hundred_code. change (Z.even 100) with true. cbv iota.
  unfold new_location_even. destruct (r =? 0); [reflexivity|].
  destruct (2 * r ?= 100); reflexivity.
Qed.

(** Rounding [A / (100 D)] needs only the quotient [A / 100] and the position
    of the remainder relative to one half. *)
Lemma sticky_hundred (A D : Z) :
  0 <= A -> 0 < D ->
  round_half_even_div (4 * (A / 100) + hundred_code (A mod 100)) (4 * D) =
  round_half_even_div A (100 * D).
Proof.
  intros HA HD.
  pose proof (Z.div_mod A 100 ltac:(lia)) as EA.
  pose proof (Z.mod_pos_bound A 100 ltac:(lia)) as Hr.
  set (q := A / 100) in *. set (r := A mod 100) in *.
  pose proof (Z.div_mod q D ltac:(lia)) as Eq.
  pose proof (Z.mod_pos_bound q D HD) as Hrho.
  set (Q := q / D) in *. set (rho := q mod D) in *.
  assert (Hc : 0 <= hundred_code r <= 3).
  { unfold hundred_code. destruct (r =? 0); [lia|]. destruct (2 * r ?= 100); lia. }
  unfold round_half_even_div.
  assert (E1 : (4 * q + hundred_code r) / (4 * D) = Q)
    by (symmetry; apply Z.div_unique with (r := 4 * rho + hundred_code r); nia).
  assert (E2 : (4 * q + hundred_code r) mod (4 * D) = 4 * rho + hundred_code r)
    by (symmetry; apply Z.mod_unique with (q := Q); nia).
  assert (E3 : A / (100 * D) = Q)
    by (symmetry; apply Z.div_unique with (r := 100 * rho + r); nia).
  assert (E4 : A mod (100 * D) = 100 * rho + r)
    by (symmetry; apply Z.mod_unique with (q := Q); nia).
  rewrite E1, E2, E3, E4.
  replace (2 * (4 * rho + hundred_code r) ?= 4 * D)
    with (2 * (100 * rho + r) ?= 100 * D); [reflexivity|].
  assert (Hcode : (r = 0 /\ hundred_code r = 0) \/
                  (0 < 2 * r < 100 /\ hundred_code r = 1) \/
                  (2 * r = 100 /\ hundred_code r = 2) \/
                  (100 < 2 * r /\ hundred_code r = 3)).
  { unfold hundred_code. destruct (Z.eqb_spec r 0); [lia|].
    destruct (Z.compare_spec (2 * r) 100); lia. }
  revert Hcode. generalize (hundred_code r). intros c Hcode.
  destruct (Z.compare_spec (2 * (100 * rho + r)) (100 * D));
    destruct (Z.compare_spec (2 * (4 * rho + c)) (4 * D)); try reflexivity; lia.
Qed.

Lemma div_eucl_eq (a b : Z) : Z.div_eucl a b = (a / b, a mod b).
Proof. unfold Z.div, Z.modulo. destruct (Z.div_eucl a b). reflexivity. Qed.

Lemma div_core_hundred (N : positive) :
  SFdiv_core_binary prec emax (Z.pos N) 0 100 0 =
  ((Z.pos N * 2 ^ (- hundred_exp (Z.pos N))) / 100, hundred_exp (Z.pos N),
   new_location 100 ((Z.pos N * 2 ^ (- hundred_exp (Z.pos N))) mod 100)).
Proof.
  change (SFdiv_core_binary prec emax (Z.pos N) 0 100 0) with
    (let e' := Z.min (fexp prec emax (Z.pos (digits2_pos N) + 0 - (7 + 0))) (0 - 0) in
     let s := 0 - 0 - e' in
     let m' := match s with
               | Z.pos _ => Z.shiftl (Z.pos N) s
               | 0 => Z.pos N
               | Z.neg _ => 0
               end in
     let '(q, r) := Z.div_eucl m' 100 in (q, e', new_location 100 r)).
  rewrite digits2_mag.
  replace (mag (Z.pos N) + 0 - (7 + 0)) with (mag (Z.pos N) - 7) by lia.
  change (0 - 0) with 0. fold (hundred_exp (Z.pos N)).
  assert (He : hundred_exp (Z.pos N) <= 0) by (unfold hundred_exp; lia).
  cbv zeta. rewrite Z.sub_0_l.
  assert (Em : match - hundred_exp (Z.pos N) with
               | Z.pos _ => Z.shiftl (Z.pos N) (- hundred_exp (Z.pos N))
               | 0 => Z.pos N
               | Z.neg _ => 0
               end = Z.pos N * 2 ^ (- hundred_exp (Z.pos N))).
  { destruct (- hundred_exp (Z.pos N)) as [|p|p] eqn:E.
    - change (2 ^ 0) with 1. lia.
    - apply Z.shiftl_mul_pow2. lia.
    - lia. }
  rewrite Em, div_eucl_eq. reflexivity.
Qed.

Lemma hundred_exp_bounds (N : Z) : -1074 <= hundred_exp N <= 0.
Proof. unfold hundred_exp. rewrite fexp_eq. lia. Qed.

(** The quotient has enough bits: the scaled numerator has at least 60. *)
Lemma hundred_quotient (N : Z) :
  0 < N ->
  let A := N * 2 ^ (- hundred_exp N) in
  0 < A / 100 /\ mag N - hundred_exp N - 7 <= mag (A / 100).
Proof.
  intros HN A.
  pose proof (hundred_exp_bounds N) as He.
  pose proof (mag_pos N) as Hmp.
  assert (HmA : mag A = mag N - hundred_exp N)
    by (unfold A; rewrite mag_mul_pow2 by lia; lia).
  assert (Hge : 60 <= mag A).
  { rewrite HmA. unfold hundred_exp. rewrite fexp_eq. lia. }
  assert (HA : 0 < A) by (unfold A; pose proof (pow2_pos (- hundred_exp N)); nia).
  pose proof (mag_bounds A HA) as [Hlo _].
  assert (Hq : 2 ^ (mag A - 8) <= A / 100).
  { apply Z.div_le_lower_bound; [lia|].
    replace (mag A - 1) with (7 + (mag A - 8)) in Hlo by lia.
    rewrite pow2_split in Hlo by lia. change (2 ^ 7) with 128 in Hlo.
    pose proof (pow2_pos (mag A - 8) ltac:(lia)). lia. }
  pose proof (pow2_pos (mag A - 8) ltac:(lia)).
  split; [lia|].
  apply mag_mono in Hq. rewrite mag_pow2 in Hq by lia. lia.
Qed.

Lemma mag_floor_scale (q X j : Z) :
  0 < q -> 0 <= j -> q * 2 ^ j <= X < (q + 1) * 2 ^ j -> mag X = mag q + j.
Proof.
  intros Hq Hj [Hlo Hhi]. pose proof (mag_bounds q Hq) as [Ql Qh].
  pose proof (mag_pos q). pose proof (pow2_pos j Hj).
  apply mag_unique; [|lia].
  replace (mag q + j - 1) with ((mag q - 1) + j) by lia.
  rewrite !pow2_split by lia. split; nia.
Qed.

Lemma fdiv_hundred (s : bool) (N : positive) :
  fdiv (S754_finite s N 0) (S754_finite false 100 0) =
  decode s (rndq (Z.pos N * 2 ^ K) 100).
Proof.
  pose proof K_eq as HK.
  unfold fdiv. cbn [SFdiv]. rewrite div_core_hundred.
  set (e' := hundred_exp (Z.pos N)).
  pose proof (hundred_exp_bounds (Z.pos N)) as He. fold e' in He.
  pose proof (hundred_quotient (Z.pos N) ltac:(lia)) as [Hq Hmq].
  cbv zeta in Hq, Hmq. fold e' in Hq, Hmq.
  set (A := Z.pos N * 2 ^ (- e')) in *.
  set (q := A / 100) in *.
  assert (HA : 0 <= A) by (unfold A; pose proof (pow2_pos (- e')); nia).
  assert (Hpre : e' <= fexp prec emax (mag q + e')).
  { unfold e' at 1. unfold hundred_exp. rewrite !fexp_eq. fold e'. lia. }
  rewrite xorb_false_r.
  rewrite binary_round_aux_inexact by assumption.
  rewrite new_location_100.
  set (c := hundred_code (A mod 100)).
  assert (Hc : 0 <= c <= 3).
  { unfold c, hundred_code. destruct (_ =? 0); [lia|]. destruct (_ ?= _); lia. }
  rewrite binary_round_aux_exact;
    [|lia|lia|rewrite mag_sticky by lia;
              replace (mag q + 2 + (e' - 2)) with (mag q + e') by lia; lia].
  f_equal.
  (* both roundings use the same target exponent *)
  set (j := e' + K). assert (Hj : 2 <= j) by (unfold j; lia).
  assert (EP : Z.pos N * 2 ^ K = A * 2 ^ j).
  { unfold A, j. rewrite <- Z.mul_assoc, <- pow2_split by lia. f_equal. f_equal. lia. }
  assert (Hfloor : q * 2 ^ j <= Z.pos N * 2 ^ K / 100 < (q + 1) * 2 ^ j).
  { rewrite EP. pose proof (pow2_pos j ltac:(lia)) as Hp.
    pose proof (Z.div_mod A 100 ltac:(lia)) as EA. fold q in EA.
    pose proof (Z.mod_pos_bound A 100 ltac:(lia)) as Hr.
    split.
    - apply Z.div_le_lower_bound; [lia|]. nia.
    - apply Z.div_lt_upper_bound; [lia|]. nia. }
  pose proof (mag_floor_scale q _ j Hq ltac:(lia) Hfloor) as Hmag.
  assert (Et : texp ((4 * q + c) * 2 ^ (e' - 2 + K)) = texp (Z.pos N * 2 ^ K / 100)).
  { unfold texp at 1 2. rewrite Hmag, mag_mul_pow2, mag_sticky by lia. unfold j. lia. }
  unfold rnd, rndq. rewrite Et.
  set (t := texp (Z.pos N * 2 ^ K / 100)).
  assert (Ht : j <= t).
  { unfold t, texp. rewrite Hmag. rewrite fexp_eq in Hpre. unfold j. lia. }
  f_equal.
  rewrite EP.
  replace (2 ^ t) with (2 ^ (t - j) * 2 ^ j)
    by (rewrite <- pow2_split by lia; f_equal; lia).
  rewrite Z.mul_assoc, rhe_scale
    by (try apply pow2_pos; pose proof (pow2_pos (t - j)); nia).
  replace (e' - 2 + K) with (j - 2) by (unfold j; lia).
  replace (2 ^ (t - j) * 2 ^ j) with (4 * 2 ^ (t - j) * 2 ^ (j - 2)).
  2:{ change 4 with (2 ^ 2). rewrite <- !pow2_split by lia. f_equal. lia. }
  rewrite rhe_scale by (try apply pow2_pos; pose proof (pow2_pos (t - j)); nia).
  unfold c, q. apply sticky_hundred; [lia|apply pow2_pos; lia].
Qed.

(** ** [round(x, 2)] on values *)

Lemma scaled_hundredths_val (m : positive) (e : Z) :
  - K <= e -> scaled_hundredths m e = hundredths (Z.pos m * 2 ^ (e + K)).
Proof.
  intros He. pose proof K_eq as HK. unfold scaled_hundredths, hundredths.
  destruct e as [|p|p].
  - rewrite Z.add_0_l, Z.mul_assoc, rhe_exact by (apply pow2_pos; lia). lia.
  - rewrite pow2_split, !Z.mul_assoc, rhe_exact by (try apply pow2_pos; lia). lia.
  - rewrite Z.pow_pos_fold.
    replace (2 ^ K) with (2 ^ Z.pos p * 2 ^ (Z.neg p + K))
      by (rewrite <- pow2_split by lia; f_equal; lia).
    rewrite Z.mul_assoc, rhe_scale by (apply pow2_pos; lia).
    f_equal. lia.
Qed.

Lemma hundredths_nonneg (W : Z) : 0 <= W -> 0 <= hundredths W.
Proof.
  intros HW. pose proof K_eq. apply rhe_nonneg; [apply pow2_pos|]; lia.
Qed.

Lemma hundredths_mono (W1 W2 : Z) : W1 <= W2 -> hundredths W1 <= hundredths W2.
Proof.
  intros H. pose proof K_eq. apply rhe_mono; [apply pow2_pos|]; lia.
Qed.

Lemma r2_nonneg (W : Z) : 0 <= W -> 0 <= r2 W.
Proof.
  intros HW. pose proof K_eq. apply rndq_nonneg; [|lia].
  pose proof (hundredths_nonneg W HW). pose proof (pow2_pos K ltac:(lia)). nia.
Qed.

Lemma r2_mono (W1 W2 : Z) : 0 <= W1 <= W2 -> r2 W1 <= r2 W2.
Proof.
  intros [H1 H12]. pose proof K_eq. apply rndq_mono; [lia|].
  pose proof (hundredths_nonneg W1 H1). pose proof (hundredths_mono W1 W2 H12).
  pose proof (pow2_pos K ltac:(lia)). nia.
Qed.

Lemma r2_representable (W : Z) : 0 <= W -> representable (r2 W).
Proof.
  intros HW. pose proof K_eq. apply rndq_representable; [|lia].
  pose proof (hundredths_nonneg W HW). pose proof (pow2_pos K ltac:(lia)). nia.
Qed.

(** A value that is a whole number is its own nearest hundredth. *)
Lemma r2_whole (z : Z) : 0 <= z -> r2 (z * 2 ^ K) = rnd (z * 2 ^ K).
Proof.
  intros Hz. pose proof K_eq. pose proof (pow2_pos K ltac:(lia)).
  unfold r2, hundredths.
  rewrite Z.mul_assoc, rhe_exact by lia.
  replace (100 * z * 2 ^ K) with (z * 2 ^ K * 100) by ring.
  apply rndq_int. lia.
Qed.

Lemma WMAX_r2 : r2 WMAX = WMAX.
Proof.
  pose proof K_eq as HK. unfold WMAX.
  replace (971 + K) with (971 + K) by lia.
  replace ((2 ^ 53 - 1) * 2 ^ (971 + K)) with ((2 ^ 53 - 1) * 2 ^ 971 * 2 ^ K)
    by (rewrite (pow2_split 971 K) by lia; ring).
  rewrite r2_whole by (pose proof (pow2_pos 971); nia).
  apply rnd_fix.
  - pose proof (pow2_pos 971). pose proof (pow2_pos K). nia.
  - replace ((2 ^ 53 - 1) * 2 ^ 971 * 2 ^ K) with ((2 ^ 53 - 1) * 2 ^ (971 + K))
      by (rewrite (pow2_split 971 K) by lia; ring).
    apply representable_mantissa; lia.
Qed.

Lemma WMAX_lt_INF : WMAX < INF.
Proof.
  pose proof K_eq. unfold WMAX, INF.
  replace (1024 + K) with (53 + (971 + K)) by lia.
  rewrite (pow2_split 53 (971 + K)) by lia.
  pose proof (pow2_pos (971 + K) ltac:(lia)). nia.
Qed.

Lemma valid_le_WMAX (s : bool) (m : positive) (e : Z) :
  valid (S754_finite s m e) = true -> Z.pos m * 2 ^ (e + K) <= WMAX.
Proof.
  intros H. pose proof K_eq as HK.
  pose proof (valid_finite_bounds _ _ _ H) as (He & Hm & _).
  pose proof (mag_bounds (Z.pos m) ltac:(lia)) as [_ Hlt].
  pose proof (pow2_le (mag (Z.pos m)) 53
                ltac:(pose proof (mag_pos (Z.pos m)); lia)) as H53.
  pose proof (pow2_le (e + K) (971 + K) ltac:(lia)) as Hle.
  pose proof (pow2_pos (e + K) ltac:(lia)) as Hp.
  unfold WMAX. nia.
Qed.

Lemma decode_finite_or_zero (s : bool) (R : Z) :
  0 <= R < INF -> representable R ->
  match decode s R with S754_infinity _ => False | _ => True end.
Proof.
  intros [HR Hlt] Hrep. pose proof (ord_decode s R HR Hrep) as Ho.
  pose proof INF_pos.
  destruct (decode s R) as [s'|s'| |s' m e]; try exact I.
  cbn [ord] in Ho. destruct s, s'; lia.
Qed.

(** [round(x, 2)] returns, for every valid finite float, the float of the
    rounded value. *)
Lemma py_round2_finite (s : bool) (m : positive) (e : Z) :
  valid (S754_finite s m e) = true ->
  py_round2 (S754_finite s m e) =
  Return (decode s (r2 (Z.pos m * 2 ^ (e + K)))).
Proof.
  intros V. pose proof K_eq as HK.
  pose proof (valid_finite_bounds _ _ _ V) as (He & _).
  pose proof (valid_fval_lt _ _ _ V) as [HW _].
  pose proof (valid_le_WMAX _ _ _ V) as HM.
  set (W := Z.pos m * 2 ^ (e + K)) in *.
  unfold py_round2. rewrite scaled_hundredths_val by lia. fold W.
  pose proof (hundredths_nonneg W ltac:(lia)) as HN.
  unfold r2.
  destruct (hundredths W) as [|n|n] eqn:EN; try lia.
  - rewrite Z.mul_0_l. reflexivity.
  - rewrite fdiv_hundred.
    assert (Hr : 0 <= r2 W < INF).
    { split; [apply r2_nonneg; lia|].
      pose proof (r2_mono W WMAX ltac:(lia)). rewrite WMAX_r2 in H.
      pose proof WMAX_lt_INF. lia. }
    unfold r2 in Hr. rewrite EN in Hr.
    pose proof (decode_finite_or_zero s _ Hr) as Hd.
    pose proof (r2_representable W ltac:(lia)) as Hrep.
    unfold r2 in Hrep. rewrite EN in Hrep. specialize (Hd Hrep).
    destruct (decode s (rndq (Z.pos n * 2 ^ K) 100)); try reflexivity.
    contradiction.
Qed.

(** ** A value rounded to two decimals is its own rounding *)

Lemma rhe_close (n d z : Z) :
  0 < d -> - d < 2 * (n - z * d) < d -> round_half_even_div n d = z.
Proof.
  intros Hd Hc. pose proof (rhe_err n d Hd) as He.
  set (y := round_half_even_div n d) in *. nia.
Qed.














(** ** [round(x, 2)] on floats *)



Lemma r2_bound (W : Z) : 0 <= W <= WMAX -> 0 <= r2 W < INF.
Proof.
  intros [H0 HM]. split; [now apply r2_nonneg|].
  pose proof (r2_mono W WMAX ltac:(lia)) as H. rewrite WMAX_r2 in H.
  pose proof WMAX_lt_INF. lia.
Qed.


Lemma r2_0 : r2 0 = 0.
Proof. reflexivity. Qed.

Lemma py_round2_nng (t : float) :
  nng t ->
  exists y, py_round2 t = Return y /\ nng y /\ ord y = oround (ord t).
Proof.
  intros Ht. pose proof INF_pos as HI. unfold oround.
  destruct (nng_cases t Ht) as [[s ->]|[->|(m & e & -> & V)]].
  - exists (S754_zero s). split; [reflexivity|]. split; [exact Ht|].
    cbn [ord]. destruct (Z.eqb_spec 0 INF); [lia|]. now rewrite r2_0.
  - exists pinf. split; [reflexivity|]. split; [exact nng_pinf|].
    cbn [ord]. now rewrite Z.eqb_refl.
  - pose proof (valid_fval_lt _ _ _ V) as [HW HWI].
    pose proof (valid_le_WMAX _ _ _ V) as HM.
    set (W := Z.pos m * 2 ^ (e + K)) in *.
    pose proof (r2_bound W ltac:(lia)) as [Hr0 HrI].
    pose proof (r2_representable W ltac:(lia)) as Hrep.
    exists (decode false (r2 W)). split; [now apply py_round2_finite|].
    pose proof (ord_decode false (r2 W) Hr0 Hrep) as Ho. cbv iota in Ho.
    split.
    + split; [split; [now apply decode_valid|apply decode_not_nan]|]. lia.
    + cbn [ord]. fold W. destruct (Z.eqb_spec W INF); lia.
Qed.

Lemma oround_mono (a1 a2 : Z) :
  0 <= a1 <= a2 -> (a1 <= WMAX \/ a1 = INF) -> (a2 <= WMAX \/ a2 = INF) ->
  oround a1 <= oround a2.
Proof.
  intros Ha Hb1 Hb. unfold oround. pose proof WMAX_lt_INF.
  destruct (Z.eqb_spec a1 INF), (Z.eqb_spec a2 INF); try lia.
  - pose proof (r2_bound a1 ltac:(lia)). lia.
  - apply r2_mono. lia.
Qed.

Lemma nng_ord_range (x : float) : nng x -> ord x <= WMAX \/ ord x = INF.
Proof.
  intros H. destruct (nng_cases x H) as [[s ->]|[->|(m & e & -> & V)]]; cbn [ord].
  - left. unfold WMAX. pose proof K_eq. pose proof (pow2_pos (971 + K)). nia.
  - now right.
  - left. now apply (valid_le_WMAX false).
Qed.

(** ** Chargeable income [max(0.0, income - tax_relief)] *)

Lemma of_Z_good (z : Z) : good (of_Z z).
Proof.
  unfold of_Z. rewrite binary_normalize_correct by (pose proof K_eq; lia).
  apply of_val_good.
Qed.

Lemma fsub_valid (x y : float) :
  valid x = true -> valid y = true -> valid (fsub x y) = true.
Proof.
  intros Vx Vy.
  destruct x as [sx|sx| |sx mx ex], y as [sy|sy| |sy my ey];
    try (rewrite fsub_finite by assumption; apply of_val_good);
    try reflexivity;
    try (destruct sx, sy; reflexivity);
    try exact Vx; try exact Vy.
Qed.

Lemma rnds_0 : rnds 0 = 0.
Proof. reflexivity. Qed.

Lemma clamp_id (v : Z) : - INF <= v <= INF -> clamp v = v.
Proof. unfold clamp. lia. Qed.

Lemma rnds_finite (s : bool) (m : positive) (e : Z) :
  valid (S754_finite s m e) = true ->
  rnds (ord (S754_finite s m e)) = ord (S754_finite s m e) /\
  rnds (- ord (S754_finite s m e)) = - ord (S754_finite s m e).
Proof.
  intros V. pose proof (valid_fval_lt _ _ _ V) as [H0 _].
  pose proof (rnd_fix_valid _ _ _ V) as R. cbn [ord]. unfold rnds.
  destruct s; split.
  - destruct (Z.ltb_spec (- (Z.pos m * 2 ^ (e + K))) 0); [|lia].
    rewrite Z.opp_involutive, R. reflexivity.
  - rewrite Z.opp_involutive.
    destruct (Z.ltb_spec (Z.pos m * 2 ^ (e + K)) 0); [lia|exact R].
  - destruct (Z.ltb_spec (Z.pos m * 2 ^ (e + K)) 0); [lia|exact R].
  - destruct (Z.ltb_spec (- (Z.pos m * 2 ^ (e + K))) 0); [|lia].
    rewrite Z.opp_involutive, R. reflexivity.
Qed.

Lemma ord_finite_range (s : bool) (m : positive) (e : Z) :
  valid (S754_finite s m e) = true ->
  - INF < ord (S754_finite s m e) < INF.
Proof.
  intros V. pose proof (valid_fval_lt _ _ _ V). cbn [ord]. destruct s; lia.
Qed.

Ltac echg_tests :=
  unfold echg;
  repeat match goal with
         | |- context [Z.eqb ?a ?b] => destruct (Z.eqb_spec a b); try lia
         end;
  try lia.

Lemma chg_ord (x y : float) :
  valid x = true -> valid y = true -> is_nan x = false -> is_nan y = false ->
  ord (py_max zero (fsub x y)) = echg (ord x) (ord y).
Proof.
  intros Vx Vy Nx Ny. pose proof INF_pos as HI.
  destruct (py_max_zero (fsub x y) (fsub_valid x y Vx Vy)) as [_ ->].
  destruct x as [sx|sx| |sx mx ex]; try discriminate Nx;
    destruct y as [sy|sy| |sy my ey]; try discriminate Ny.
  - replace (ord (fsub (S754_zero sx) (S754_zero sy))) with 0
      by (destruct sx, sy; reflexivity).
    cbn [ord]. echg_tests. rewrite Z.sub_0_r, rnds_0, clamp_id; lia.
  - destruct sx, sy; cbn [fsub SFsub ord negb]; cbn [ord]; echg_tests.
  - pose proof (ord_finite_range _ _ _ Vy) as Ry.
    destruct (rnds_finite _ _ _ Vy) as [_ Ro].
    replace (ord (fsub (S754_zero sx) (S754_finite sy my ey)))
      with (- ord (S754_finite sy my ey))
      by (destruct sx, sy; cbn [fsub SFsub ord negb]; cbn [ord]; lia).
    change (ord (S754_zero sx)) with 0.
    set (oy := ord (S754_finite sy my ey)) in *. echg_tests.
    replace (0 - oy) with (- oy) by lia. rewrite Ro, clamp_id; lia.
  - destruct sx, sy; cbn [fsub SFsub ord negb]; cbn [ord]; echg_tests.
  - destruct sx, sy; cbn [fsub SFsub ord negb]; cbn [ord]; echg_tests.
  - pose proof (ord_finite_range _ _ _ Vy) as Ry.
    destruct sx; cbn [fsub SFsub ord negb]; cbn [ord] in *; echg_tests.
  - pose proof (ord_finite_range _ _ _ Vx) as Rx.
    destruct (rnds_finite _ _ _ Vx) as [Ro _].
    replace (fsub (S754_finite sx mx ex) (S754_zero sy))
      with (S754_finite sx mx ex) by (destruct sy; reflexivity).
    change (ord (S754_zero sy)) with 0.
    set (ox := ord (S754_finite sx mx ex)) in *. echg_tests.
    replace (ox - 0) with ox by lia. rewrite Ro, clamp_id; lia.
  - pose proof (ord_finite_range _ _ _ Vx) as Rx.
    destruct sy; cbn [fsub SFsub ord negb]; cbn [ord] in *; echg_tests.
  - pose proof (ord_finite_range _ _ _ Vx) as Rx.
    pose proof (ord_finite_range _ _ _ Vy) as Ry.
    rewrite fsub_finite, ord_of_val by assumption.
    set (ox := ord (S754_finite sx mx ex)) in *.
    set (oy := ord (S754_finite sy my ey)) in *. echg_tests.
Qed.

Lemma clamp_range (v : Z) : - INF <= clamp v <= INF.
Proof. pose proof INF_pos. unfold clamp. lia. Qed.

Lemma echg_range (a b : Z) : 0 <= echg a b <= INF.
Proof.
  pose proof INF_pos. pose proof (clamp_range (rnds (a - b))). echg_tests.
Qed.

Lemma echg_mono_l (a1 a2 b : Z) :
  - INF <= a1 -> a1 <= a2 -> a2 <= INF -> echg a1 b <= echg a2 b.
Proof.
  intros Hl H Hu. pose proof INF_pos.
  destruct (Z.eq_dec a1 (- INF)) as [E1|E1].
  - pose proof (echg_range a2 b). unfold echg at 1.
    destruct (Z.eqb_spec a1 (- INF)); lia.
  - destruct (Z.eq_dec a2 INF) as [E2|E2].
    + pose proof (clamp_range (rnds (a1 - b))). subst a2. echg_tests.
    + pose proof (clamp_mono _ _ (rnds_mono (a1 - b) (a2 - b) ltac:(lia))).
      echg_tests.
Qed.

Lemma echg_anti_r (a b1 b2 : Z) :
  - INF <= b1 -> b1 <= b2 -> b2 <= INF -> echg a b2 <= echg a b1.
Proof.
  intros Hl H Hu. pose proof INF_pos.
  pose proof (clamp_range (rnds (a - b1))).
  pose proof (clamp_range (rnds (a - b2))).
  pose proof (clamp_mono _ _ (rnds_mono (a - b2) (a - b1) ltac:(lia))).
  destruct (Z.eq_dec a (- INF)) as [Ea|Ea]; [subst a; echg_tests|].
  destruct (Z.eq_dec b2 INF) as [E2|E2]; [subst b2; echg_tests|].
  destruct (Z.eq_dec a INF) as [Ea'|Ea']; [subst a; echg_tests|].
  destruct (Z.eq_dec b1 (- INF)) as [E1|E1]; [subst b1; echg_tests|].
  echg_tests.
Qed.

Lemma chg_nng (x y : float) :
  valid x = true -> valid y = true -> nng (py_max zero (fsub x y)).
Proof. intros Vx Vy. apply py_max_zero. now apply fsub_valid. Qed.

Lemma chg_nan_l (y : float) : py_max zero (fsub S754_nan y) = zero.
Proof. destruct y; reflexivity. Qed.

Lemma chg_nan_r (x : float) : py_max zero (fsub x S754_nan) = zero.
Proof. destruct x; reflexivity. Qed.

Lemma fleb_true_ord (x y : float) :
  valid x = true -> valid y = true -> fleb x y = true ->
  is_nan x = false /\ is_nan y = false /\ ord x <= ord y.
Proof.
  intros Vx Vy H.
  destruct (is_nan x) eqn:Nx.
  { destruct x; try discriminate Nx. now rewrite fleb_nan_l in H. }
  destruct (is_nan y) eqn:Ny.
  { destruct y; try discriminate Ny. now rewrite fleb_nan_r in H. }
  rewrite fleb_ord in H by assumption. apply Z.leb_le in H. auto.
Qed.

(** Chargeable income does not decrease with income and does not increase
    with relief. *)
Lemma chg_mono_income (i1 i2 r : float) :
  valid i1 = true -> valid i2 = true -> valid r = true ->
  fleb i1 i2 = true ->
  ord (py_max zero (fsub i1 r)) <= ord (py_max zero (fsub i2 r)).
Proof.
  intros V1 V2 Vr H.
  destruct (fleb_true_ord _ _ V1 V2 H) as (N1 & N2 & Hle).
  destruct (is_nan r) eqn:Nr.
  { destruct r; try discriminate Nr. rewrite !chg_nan_r. lia. }
  rewrite !chg_ord by assumption.
  pose proof (ord_le_INF i1 V1). pose proof (ord_le_INF i2 V2).
  apply echg_mono_l; lia.
Qed.

Lemma chg_anti_relief (i r1 r2 : float) :
  valid i = true -> valid r1 = true -> valid r2 = true ->
  fleb r1 r2 = true ->
  ord (py_max zero (fsub i r2)) <= ord (py_max zero (fsub i r1)).
Proof.
  intros Vi V1 V2 H.
  destruct (fleb_true_ord _ _ V1 V2 H) as (N1 & N2 & Hle).
  destruct (is_nan i) eqn:Ni.
  { destruct i; try discriminate Ni. rewrite !chg_nan_l. lia. }
  rewrite !chg_ord by assumption.
  pose proof (ord_le_INF r1 V1). pose proof (ord_le_INF r2 V2).
  apply echg_anti_r; lia.
Qed.

Lemma echg_le (a b : Z) : - INF <= a -> a <= b -> b <= INF -> echg a b = 0.
Proof.
  intros Hl H Hu. pose proof INF_pos. pose proof (rnds_nonpos (a - b) ltac:(lia)).
  echg_tests. unfold clamp. lia.
Qed.

(** With income at most relief the chargeable income is [0.0]. *)
Lemma chg_zero (i r : float) :
  valid i = true -> valid r = true ->
  fleb i r = true -> py_max zero (fsub i r) = zero.
Proof.
  intros Vi Vr H.
  destruct (fleb_true_ord _ _ Vi Vr H) as (Ni & Nr & Hle).
  pose proof (chg_ord i r Vi Vr Ni Nr) as Ho.
  pose proof (ord_le_INF i Vi). pose proof (ord_le_INF r Vr).
  rewrite echg_le in Ho by lia.
  pose proof (fsub_valid i r Vi Vr) as Vd.
  revert Ho. unfold py_max.
  destruct (fltb zero (fsub i r)) eqn:E; [|reflexivity].
  intros Ho. exfalso.
  destruct (is_nan (fsub i r)) eqn:Nd.
  { destruct (fsub i r); try discriminate Nd. discriminate E. }
  rewrite fltb_ord in E by (try assumption; reflexivity).
  apply Z.ltb_lt in E. cbn [ord zero] in E. lia.
Qed.

(** ** The bracket table is well formed *)

Lemma nngb_nng (x : float) : nngb x = true -> nng x.
Proof.
  unfold nngb. intros H. apply andb_prop in H as [V H].
  pose proof INF_pos.
  destruct x as [s|[|]| |[|] m e]; try discriminate H;
    (split; [split; [exact V|reflexivity]|]); cbn [ord]; lia.
Qed.

Lemma nngb_finite_lt (x : float) :
  nngb x = true -> is_finite x = true -> ord x < INF.
Proof.
  unfold nngb. intros H F. apply andb_prop in H as [V H].
  pose proof INF_pos.
  destruct x as [s|[|]| |[|] m e]; try discriminate H; try discriminate F;
    cbn [ord]; try lia.
  pose proof (valid_fval_lt _ _ _ V). lia.
Qed.

Lemma rate_okb_ok (r : float) : rate_okb r = true -> rate_ok r.
Proof.
  unfold rate_okb, rate_ok. intros H. apply orb_prop in H as [H|H]; [now left|].
  right. destruct r as [s|s| |[|] m e]; try discriminate H. eauto.
Qed.

Lemma bands_okb_ok (bs : list (float * float * float)) :
  forall lower, bands_okb lower bs = true -> bands_ok lower bs.
Proof.
  induction bs as [|[[u b] r] rest IH]; intros lower H; cbn [bands_ok]; [exact I|].
  cbn [bands_okb] in H. rewrite !andb_true_iff in H.
  destruct H as (((((Bl & Fl) & Bu) & Hle) & Hr) & Hrest).
  pose proof (nngb_nng lower Bl) as Hl. pose proof (nngb_nng u Bu) as Hu.
  split; [exact Hl|]. split; [now apply nngb_finite_lt|].
  split; [exact Hu|]. split.
  - rewrite fleb_nng in Hle by assumption. now apply Z.leb_le.
  - split; [now apply rate_okb_ok | now apply IH].
Qed.

Lemma brackets_ok : bands_ok zero brackets.
Proof. apply bands_okb_ok. vm_compute. reflexivity. Qed.

Section TaxProperties.

Variable float_of_str : pystr -> option float.

Lemma py_float_valid (o : pyobj) (x : float) :
  parser_ok float_of_str -> well_formed o ->
  py_float float_of_str o = Return x -> valid x = true.
Proof.
  intros P W H. destruct o as [|b|z|f|s]; cbn [py_float] in H.
  - discriminate H.
  - injection H as <-. apply of_Z_good.
  - pose proof (of_Z_good z) as [V _].
    destruct (of_Z z); try discriminate H; injection H as <-; exact V.
  - injection H as <-. exact W.
  - destruct (float_of_str s) as [f|] eqn:E; [|discriminate H].
    injection H as <-. exact (P s f E).
Qed.

Lemma calculate_tax_run (income relief : pyobj) (i r : float) :
  py_float float_of_str income = Return i ->
  py_float float_of_str relief = Return r ->
  calculate_tax float_of_str income relief =
  py_round2 (tax_loop (py_max zero (fsub i r)) brackets zero zero).
Proof.
  intros Hi Hr. unfold calculate_tax. rewrite Hi. cbn [bind]. rewrite Hr.
  cbn [bind try_except]. reflexivity.
Qed.

Lemma calculate_tax_rejects (income relief : pyobj) :
  (exists e, py_float float_of_str income = Raise e) \/
  (exists e, py_float float_of_str relief = Raise e) ->
  calculate_tax float_of_str income relief = Raise not_numeric.
Proof.
  intros H. unfold calculate_tax.
  destruct (py_float float_of_str income) as [i|e1]; cbn [bind try_except].
  - destruct H as [[e H]|[e H]]; [discriminate H|].
    rewrite H. reflexivity.
  - reflexivity.
Qed.

Lemma tax_nng (i r : float) :
  valid i = true -> valid r = true ->
  nng (tax_loop (py_max zero (fsub i r)) brackets zero zero).
Proof.
  intros Vi Vr.
  apply (tax_loop_nng brackets); [now apply chg_nng|exact nng_zero|exact brackets_ok].
Qed.

Lemma tax_rounds (i r : float) :
  valid i = true -> valid r = true ->
  exists t,
    py_round2 (tax_loop (py_max zero (fsub i r)) brackets zero zero) = Return t /\
    nng t /\
    ord t = oround (ord (tax_loop (py_max zero (fsub i r)) brackets zero zero)).
Proof. intros Vi Vr. apply py_round2_nng. now apply tax_nng. Qed.

Lemma tax_loop_zero (bs : list (float * float * float)) (t : float) :
  tax_loop zero bs t zero = t.
Proof. destruct bs as [|[[u b] r] rest]; reflexivity. Qed.

End TaxProperties.

(** * Properties of [calculate_tax] in float arithmetic *)

(** C3.  On every pair of inputs that [float] converts to doubles, negative
    ones included, [calculate_tax] returns, and what it returns is the
    reference accumulation over the ten bands of the table, taken on
    [max(0.0, income - tax_relief)] and rounded to two decimals; with
    income at most relief it returns [0.0]. *)
Theorem calculate_tax_accepts_reals
    (float_of_str : pystr -> option float) (income tax_relief : pyobj) (i r : float) :
  py_float float_of_str income = Return i ->
  py_float float_of_str tax_relief = Return r ->
  valid i = true -> valid r = true ->
  exists t,
    calculate_tax float_of_str income tax_relief = Return t /\
    py_round2 (reference_bands (py_max zero (fsub i r)) band_table zero zero) =
      Return t /\
    (fleb i r = true -> t = zero).
Proof.
  intros Hi Hr Vi Vr.
  destruct (tax_rounds i r Vi Vr) as (t & Ht & _).
  exists t. rewrite (calculate_tax_run _ _ _ _ _ Hi Hr).
  split; [exact Ht|]. split.
  - rewrite <- tax_loop_is_reference. exact Ht.
  - intros Hle. rewrite (chg_zero i r Vi Vr Hle), tax_loop_zero in Ht.
    injection Ht as <-. reflexivity.
Qed.

Lemma calculate_tax_accepts_reals_witness :
  exists t,
    calculate_tax (fun _ => None) (PyInt (-3000)) (PyFloat (of_Z 9000)) = Return t /\
    py_round2 (reference_bands (py_max zero (fsub (of_Z (-3000)) (of_Z 9000)))
                 band_table zero zero) = Return t /\
    (fleb (of_Z (-3000)) (of_Z 9000) = true -> t = zero).
Proof.
  apply (calculate_tax_accepts_reals (fun _ => None)
           (PyInt (-3000)) (PyFloat (of_Z 9000))); reflexivity.
Defined.

(** C6.  For doubles [x1 <= x2] and a double [y], the tax on income [x1]
    is at most the tax on income [x2] when the relief is [y], and the tax
    with relief [x2] is at most the tax with relief [x1] when the income
    is [y]; all four calls return. *)
Theorem calculate_tax_monotone
    (float_of_str : pystr -> option float) (a1 a2 b : pyobj) (x1 x2 y : float) :
  py_float float_of_str a1 = Return x1 ->
  py_float float_of_str a2 = Return x2 ->
  py_float float_of_str b = Return y ->
  valid x1 = true -> valid x2 = true -> valid y = true ->
  fleb x1 x2 = true ->
  (exists t1 t2,
     calculate_tax float_of_str a1 b = Return t1 /\
     calculate_tax float_of_str a2 b = Return t2 /\
     fleb t1 t2 = true) /\
  (exists t1 t2,
     calculate_tax float_of_str b a1 = Return t1 /\
     calculate_tax float_of_str b a2 = Return t2 /\
     fleb t2 t1 = true).
Proof.
  intros H1 H2 Hy V1 V2 Vy Hle.
  assert (Hcmp : forall c1 c2 : float,
             nng c1 -> nng c2 -> ord c1 <= ord c2 ->
             forall t1 t2,
               py_round2 (tax_loop c1 brackets zero zero) = Return t1 ->
               py_round2 (tax_loop c2 brackets zero zero) = Return t2 ->
               fleb t1 t2 = true).
  { intros c1 c2 N1 N2 Hc t1 t2 E1 E2.
    pose proof (tax_loop_nng brackets c1 zero zero N1 nng_zero brackets_ok) as [T1 _].
    pose proof (tax_loop_nng brackets c2 zero zero N2 nng_zero brackets_ok) as [T2 _].
    pose proof (tax_loop_mono brackets c1 c2 zero zero zero N1 N2 Hc
                  nng_zero nng_zero (Z.le_refl _) brackets_ok) as Hm.
    destruct (py_round2_nng _ T1) as (u1 & F1 & U1 & O1).
    destruct (py_round2_nng _ T2) as (u2 & F2 & U2 & O2).
    rewrite E1 in F1. injection F1 as <-. rewrite E2 in F2. injection F2 as <-.
    rewrite fleb_nng by assumption. apply Z.leb_le. rewrite O1, O2.
    apply oround_mono; [|now apply nng_ord_range|now apply nng_ord_range].
    destruct T1 as [_ T1]. lia. }
  split.
  - destruct (tax_rounds x1 y V1 Vy) as (t1 & E1 & _).
    destruct (tax_rounds x2 y V2 Vy) as (t2 & E2 & _).
    exists t1, t2.
    rewrite (calculate_tax_run _ _ _ _ _ H1 Hy), (calculate_tax_run _ _ _ _ _ H2 Hy).
    split; [exact E1|]. split; [exact E2|].
    apply (Hcmp _ _ (chg_nng x1 y V1 Vy) (chg_nng x2 y V2 Vy)
             (chg_mono_income x1 x2 y V1 V2 Vy Hle) _ _ E1 E2).
  - destruct (tax_rounds y x1 Vy V1) as (t1 & E1 & _).
    destruct (tax_rounds y x2 Vy V2) as (t2 & E2 & _).
    exists t1, t2.
    rewrite (calculate_tax_run _ _ _ _ _ Hy H1), (calculate_tax_run _ _ _ _ _ Hy H2).
    split; [exact E1|]. split; [exact E2|].
    apply (Hcmp _ _ (chg_nng y x2 Vy V2) (chg_nng y x1 Vy V1)
             (chg_anti_relief y x1 x2 Vy V1 V2 Hle) _ _ E2 E1).
Qed.

Lemma calculate_tax_monotone_witness :
  (exists t1 t2,
     calculate_tax (fun _ => None) (PyInt 48000) (PyFloat (of_Z 9000)) = Return t1 /\
     calculate_tax (fun _ => None) (PyInt 120000) (PyFloat (of_Z 9000)) = Return t2 /\
     fleb t1 t2 = true) /\
  (exists t1 t2,
     calculate_tax (fun _ => None) (PyFloat (of_Z 9000)) (PyInt 48000) = Return t1 /\
     calculate_tax (fun _ => None) (PyFloat (of_Z 9000)) (PyInt 120000) = Return t2 /\
     fleb t2 t1 = true).
Proof.
  apply (calculate_tax_monotone (fun _ => None)
           (PyInt 48000) (PyInt 120000) (PyFloat (of_Z 9000))
           (of_Z 48000) (of_Z 120000) (of_Z 9000)); reflexivity.
Defined.




(** * The record file *)

Lemma pystr_eqb_refl (s : pystr) : pystr_eqb s s = true.
Proof. now apply pystr_eqb_eq. Qed.

Lemma pystr_eqb_neq (s t : pystr) : s <> t -> pystr_eqb s t = false.
Proof.
  intros H. destruct (pystr_eqb s t) eqn:E; [|reflexivity].
  apply pystr_eqb_eq in E. contradiction.
Qed.

Lemma save_to_csv_files (data : list (pystr * pyobj)) (filename f : pystr) (w : World) :
  files (snd (save_to_csv data filename w)) f =
  if pystr_eqb f filename then
    Some (match files w filename with
          | Some rows => rows ++ [row_of data]
          | None => [Header (map fst data); row_of data]
          end)
  else files w f.
Proof.
  unfold save_to_csv, write_file, row_of.
  destruct (files w filename); cbn [snd files]; reflexivity.
Qed.

Lemma save_all_other (records : list (list (pystr * pyobj))) (filename f : pystr) :
  f <> filename ->
  forall w, files (save_all records filename w) f = files w f.
Proof.
  intros Hf. unfold save_all.
  induction records as [|d ds IH]; intros w; cbn [fold_left]; [reflexivity|].
  rewrite IH, save_to_csv_files, pystr_eqb_neq by assumption. reflexivity.
Qed.

Lemma save_all_existing (records : list (list (pystr * pyobj))) (filename : pystr) :
  forall w rows,
    files w filename = Some rows ->
    files (save_all records filename w) filename =
    Some (rows ++ map row_of records).
Proof.
  unfold save_all.
  induction records as [|d ds IH]; intros w rows Hw; cbn [fold_left map].
  - now rewrite app_nil_r.
  - rewrite (IH _ (rows ++ [row_of d])).
    + now rewrite <- app_assoc.
    + rewrite save_to_csv_files, pystr_eqb_refl, Hw. reflexivity.
Qed.

(** X1.  [save_to_csv] leaves a file under [filename] and changes no other
    file of the store. *)
Theorem save_to_csv_frame
    (data : list (pystr * pyobj)) (filename : pystr) (w : World) :
  fst (os_path_exists filename (snd (save_to_csv data filename w))) = true /\
  forall f, f <> filename ->
            files (snd (save_to_csv data filename w)) f = files w f.
Proof.
  split.
  - unfold os_path_exists. cbn [fst].
    rewrite save_to_csv_files, pystr_eqb_refl. reflexivity.
  - intros f Hf. rewrite save_to_csv_files, pystr_eqb_neq by assumption.
    reflexivity.
Qed.



(** X3.  Saving records to a file that does not exist creates it with the
    keys of the first record as its only header, followed by one line per
    record, in the order of the calls. *)
Theorem save_to_csv_creates
    (data : list (pystr * pyobj)) (records : list (list (pystr * pyobj)))
    (filename : pystr) (w : World) :
  files w filename = None ->
  files (save_all (data :: records) filename w) filename =
  Some (Header (map fst data) :: map row_of (data :: records)).
Proof.
  intros Hw. unfold save_all. cbn [fold_left].
  change (fold_left _ records ?w') with (save_all records filename w').
  rewrite (save_all_existing records filename _ [Header (map fst data); row_of data]).
  - reflexivity.
  - rewrite save_to_csv_files, pystr_eqb_refl, Hw. reflexivity.
Qed.

Lemma save_to_csv_creates_witness :
  files (save_all [[([105%N], PyInt 1)]; [([106%N], PyInt 2)]] [116%N]
           {| files := fun _ => None |}) [116%N] =
  Some (Header (map fst [([105%N], PyInt 1)]) ::
        map row_of [[([105%N], PyInt 1)]; [([106%N], PyInt 2)]]).
Proof.
  apply (save_to_csv_creates _ _ [116%N] {| files := fun _ => None |}).
  reflexivity.
Defined.

(** X4.  After [save_to_csv], [read_from_csv] on the same name does not
    report a missing file: it returns what pandas reads, and [None] only
    when pandas fails. *)
Theorem read_after_save
    (DataFrame : Type) (pd_read_csv : pystr -> World -> result DataFrame)
    (data : list (pystr * pyobj)) (filename : pystr) (w : World) :
  read_from_csv DataFrame pd_read_csv filename (snd (save_to_csv data filename w)) =
  (match pd_read_csv filename (snd (save_to_csv data filename w)) with
   | Return df => Return (Some df)
   | Raise _ => Return None
   end,
   snd (save_to_csv data filename w)).
Proof.
  unfold read_from_csv, io_bind, os_path_exists, io_ret.
  rewrite save_to_csv_files, pystr_eqb_refl. cbn [negb].
  destruct (pd_read_csv filename _); reflexivity.
Qed.

(** * More on [verify_user] *)

Section VerifyUser.

Variable str_isdigit : pychar -> bool.

Lemma verify_user_true (ic pw : pystr) :
  verify_user str_isdigit (PyStr ic) (PyStr pw) = true ->
  length (filter str_isdigit ic) = 12%nat /\ pw = last4 (filter str_isdigit ic).
Proof.
  unfold verify_user.
  destruct (Nat.eqb (length (filter str_isdigit ic)) 12) eqn:Hlen;
    cbn [negb]; [|discriminate].
  intros H. apply pystr_eqb_eq in H. apply Nat.eqb_eq in Hlen. auto.
Qed.

Lemma forallb_skipn {A : Type} (p : A -> bool) (n : nat) (l : list A) :
  forallb p l = true -> forallb p (skipn n l) = true.
Proof.
  revert l. induction n as [|n IH]; intros [|a l]; cbn; auto.
  intros H. apply andb_prop in H as [_ H]. auto.
Qed.

Lemma forallb_filter_id {A : Type} (p : A -> bool) (l : list A) :
  forallb p (filter p l) = true.
Proof.
  apply forallb_forall. intros x Hx. apply filter_In in Hx. tauto.
Qed.

End VerifyUser.

(** X5.  A password that [verify_user] accepts has exactly four characters
    and each of them is a digit in the sense of [str.isdigit]. *)
Theorem verify_user_password_shape
    (str_isdigit : pychar -> bool) (ic_number password : pystr) :
  verify_user str_isdigit (PyStr ic_number) (PyStr password) = true ->
  length password = 4%nat /\ forallb str_isdigit password = true.
Proof.
  intros H. apply verify_user_true in H as [Hlen ->]. split.
  - unfold last4. rewrite length_skipn, Hlen. reflexivity.
  - apply forallb_skipn, forallb_filter_id.
Qed.

Lemma verify_user_password_shape_witness :
  length [52; 51; 50; 49]%N = 4%nat /\
  forallb (fun c => (48 <=? c)%N && (c <=? 57)%N) [52; 51; 50; 49]%N = true.
Proof.
  apply (verify_user_password_shape (fun c => (48 <=? c)%N && (c <=? 57)%N)
           [57; 56; 48; 49; 48; 49; 45; 48; 49; 45; 52; 51; 50; 49]%N).
  reflexivity.
Defined.

(** X6.  For one IC number at most one password is accepted. *)
Theorem verify_user_password_unique
    (str_isdigit : pychar -> bool) (ic_number : pystr) (password1 password2 : pyobj) :
  verify_user str_isdigit (PyStr ic_number) password1 = true ->
  verify_user str_isdigit (PyStr ic_number) password2 = true ->
  password1 = password2.
Proof.
  intros H1 H2.
  destruct password1 as [| | | |p1]; try discriminate H1.
  destruct password2 as [| | | |p2]; try discriminate H2.
  apply verify_user_true in H1 as [_ ->]. apply verify_user_true in H2 as [_ ->].
  reflexivity.
Qed.

Lemma verify_user_password_unique_witness :
  PyStr [52; 51; 50; 49]%N = PyStr [52; 51; 50; 49]%N.
Proof.
  apply (verify_user_password_unique (fun c => (48 <=? c)%N && (c <=? 57)%N)
           [57; 56; 48; 49; 48; 49; 48; 49; 52; 51; 50; 49]%N);
    reflexivity.
Defined.

(** X7.  Characters of the IC number that are not digits play no part: a
    character that [str.isdigit] refuses can be inserted anywhere, or
    removed, without changing the answer. *)
Theorem verify_user_ignores_separators
    (str_isdigit : pychar -> bool) (front back : pystr) (c : pychar)
    (password : pyobj) :
  str_isdigit c = false ->
  verify_user str_isdigit (PyStr (front ++ c :: back)) password =
  verify_user str_isdigit (PyStr (front ++ back)) password.
Proof.
  intros Hc. unfold verify_user.
  rewrite !filter_app. cbn [filter]. rewrite Hc. reflexivity.
Qed.

Lemma verify_user_ignores_separators_witness :
  verify_user (fun c => (48 <=? c)%N && (c <=? 57)%N)
    (PyStr ([57; 56; 48; 49; 48; 49]%N ++ 45%N :: [48; 49; 52; 51; 50; 49]%N))
    (PyStr [52; 51; 50; 49]%N) =
  verify_user (fun c => (48 <=? c)%N && (c <=? 57)%N)
    (PyStr ([57; 56; 48; 49; 48; 49]%N ++ [48; 49; 52; 51; 50; 49]%N))
    (PyStr [52; 51; 50; 49]%N).
Proof.
  apply (verify_user_ignores_separators (fun c => (48 <=? c)%N && (c <=? 57)%N)).
  reflexivity.
Defined.

(** * More on [calculate_tax] *)

Lemma feqb_zero_rate : feqb (dec2 0) zero = true.
Proof. reflexivity. Qed.

Lemma fadd_zero_zero : fadd zero zero = zero.
Proof. reflexivity. Qed.

Lemma py_max_zero_le (d u : float) :
  fleb zero u = true -> fleb d u = true -> fleb (py_max zero d) u = true.
Proof. intros H0 Hd. unfold py_max. now destruct (fltb zero d). Qed.

Lemma tax_loop_first_band (c : float) :
  fleb c (of_Z 5000) = true -> tax_loop c brackets zero zero = zero.
Proof.
  intros H.
  change brackets with
    ((of_Z 5000, of_Z 0, dec2 0) :: (of_Z 20000, of_Z 0, dec2 1) :: tl (tl brackets)).
  generalize (tl (tl brackets)). intros rest.
  rewrite tax_loop_cons. destruct (fleb c zero); [reflexivity|].
  rewrite feqb_zero_rate, fadd_zero_zero, tax_loop_cons, H. reflexivity.
Qed.

(** X8.  A chargeable income of at most 5000 pays no tax: when
    [income - tax_relief] is at most [5000.0] the result is [0.0]. *)
Theorem calculate_tax_zero_band
    (float_of_str : pystr -> option float) (income tax_relief : pyobj) (i r : float) :
  py_float float_of_str income = Return i ->
  py_float float_of_str tax_relief = Return r ->
  fleb (fsub i r) (of_Z 5000) = true ->
  calculate_tax float_of_str income tax_relief = Return zero.
Proof.
  intros Hi Hr H. rewrite (calculate_tax_run _ _ _ _ _ Hi Hr).
  rewrite tax_loop_first_band; [reflexivity|].
  apply py_max_zero_le; [reflexivity|exact H].
Qed.

Lemma calculate_tax_zero_band_witness :
  calculate_tax (fun _ => None) (PyInt 14000) (PyFloat (of_Z 9000)) = Return zero.
Proof.
  apply (calculate_tax_zero_band (fun _ => None) (PyInt 14000) (PyFloat (of_Z 9000))
           (of_Z 14000) (of_Z 9000)); reflexivity.
Defined.

(** X9.  A NaN is not rejected: with income or relief NaN the chargeable
    income is [0.0] and so is the tax. *)
Theorem calculate_tax_nan
    (float_of_str : pystr -> option float) (x : float) :
  calculate_tax float_of_str (PyFloat S754_nan) (PyFloat x) = Return zero /\
  calculate_tax float_of_str (PyFloat x) (PyFloat S754_nan) = Return zero.
Proof.
  split.
  - rewrite (calculate_tax_run float_of_str (PyFloat S754_nan) (PyFloat x)
               S754_nan x eq_refl eq_refl).
    rewrite chg_nan_l, tax_loop_zero. reflexivity.
  - rewrite (calculate_tax_run float_of_str (PyFloat x) (PyFloat S754_nan)
               x S754_nan eq_refl eq_refl).
    rewrite chg_nan_r, tax_loop_zero. reflexivity.
Qed.

Lemma tax_loop_pinf : tax_loop (py_max zero pinf) brackets zero zero = pinf.
Proof. vm_compute. reflexivity. Qed.

(** X10.  When [income - tax_relief] is infinite, by an infinite input or
    by overflow of the subtraction, the call returns [inf]. *)
Theorem calculate_tax_infinite
    (float_of_str : pystr -> option float) (income tax_relief : pyobj) (i r : float) :
  py_float float_of_str income = Return i ->
  py_float float_of_str tax_relief = Return r ->
  fsub i r = pinf ->
  calculate_tax float_of_str income tax_relief = Return pinf.
Proof.
  intros Hi Hr H. rewrite (calculate_tax_run _ _ _ _ _ Hi Hr), H, tax_loop_pinf.
  reflexivity.
Qed.

Lemma calculate_tax_infinite_witness :
  calculate_tax (fun _ => None) (PyInt (10 ^ 308)) (PyFloat (of_Z (- 10 ^ 308))) =
  Return pinf.
Proof.
  apply (calculate_tax_infinite (fun _ => None)
           (PyInt (10 ^ 308)) (PyFloat (of_Z (- 10 ^ 308)))
           (of_Z (10 ^ 308)) (of_Z (- 10 ^ 308))); vm_compute; reflexivity.
Defined.

(** ** Integers as amounts *)

Lemma of_Z_ord (z : Z) : ord (of_Z z) = clamp (rnds (z * 2 ^ K)).
Proof.
  unfold of_Z. rewrite binary_normalize_correct by (pose proof K_eq; lia).
  rewrite ord_of_val. reflexivity.
Qed.

Lemma INF_split : INF = 2 ^ 1024 * 2 ^ K.
Proof. unfold INF. pose proof K_eq. apply pow2_split; lia. Qed.

Lemma WMAX_split : WMAX = (2 ^ 1024 - 2 ^ 971) * 2 ^ K.
Proof.
  unfold WMAX. pose proof K_eq. rewrite (pow2_split 971 K) by lia.
  change (2 ^ 1024) with (2 ^ 53 * 2 ^ 971). ring.
Qed.

Lemma rnd_WMAX : rnd WMAX = WMAX.
Proof.
  pose proof K_eq. apply rnd_fix.
  - unfold WMAX. pose proof (pow2_pos (971 + K)). nia.
  - unfold WMAX. apply representable_mantissa; lia.
Qed.

Lemma ord_NINF (x : float) : valid x = true -> ord x = - INF -> x = S754_infinity true.
Proof.
  intros Hx E. pose proof INF_pos.
  destruct x as [s|s| |s m e]; cbn [ord] in E; try lia.
  - destruct s; [reflexivity|lia].
  - pose proof (valid_fval_lt _ _ _ Hx). destruct s; lia.
Qed.

Lemma of_Z_overflow (z : Z) :
  2 ^ 1024 <= Z.abs z -> exists s, of_Z z = S754_infinity s.
Proof.
  intros H. pose proof (of_Z_good z) as [V _]. pose proof (of_Z_ord z) as Ho.
  pose proof INF_pos as HI. pose proof INF_split as Es.
  pose proof K_eq as HK. pose proof (pow2_pos K ltac:(lia)) as Hp.
  destruct (Z_le_gt_dec 0 z) as [Hz|Hz].
  - exists false. apply ord_INF; [exact V|]. rewrite Ho.
    assert (Hge : INF <= z * 2 ^ K) by (rewrite Es; nia).
    pose proof (rnds_mono _ _ Hge) as Hm.
    unfold rnds at 1 in Hm. destruct (Z.ltb_spec INF 0); [lia|].
    rewrite rnd_INF in Hm. unfold clamp. lia.
  - exists true. apply ord_NINF; [exact V|]. rewrite Ho.
    assert (Hle : z * 2 ^ K <= - INF) by (rewrite Es; nia).
    pose proof (rnds_mono _ _ Hle) as Hm.
    unfold rnds at 2 in Hm. destruct (Z.ltb_spec (- INF) 0); [|lia].
    rewrite Z.opp_involutive, rnd_INF in Hm. unfold clamp. lia.
Qed.

Lemma of_Z_finite (z : Z) :
  Z.abs z <= 2 ^ 1024 - 2 ^ 971 -> is_finite (of_Z z) = true.
Proof.
  intros H. pose proof (of_Z_good z) as [V N]. pose proof (of_Z_ord z) as Ho.
  pose proof WMAX_lt_INF as HW. pose proof WMAX_split as Es.
  pose proof K_eq as HK. pose proof (pow2_pos K ltac:(lia)) as Hp.
  assert (H0 : 0 <= WMAX) by (rewrite Es; nia).
  assert (Hr : - WMAX <= rnds (z * 2 ^ K) <= WMAX).
  { split.
    - assert (Hle : - WMAX <= z * 2 ^ K) by (rewrite Es; nia).
      pose proof (rnds_mono _ _ Hle) as Hm. unfold rnds at 1 in Hm.
      destruct (Z.ltb_spec (- WMAX) 0).
      + now rewrite Z.opp_involutive, rnd_WMAX in Hm.
      + replace WMAX with 0 in * by lia. cbn in Hm. rewrite rnd_0 in Hm. lia.
    - assert (Hle : z * 2 ^ K <= WMAX) by (rewrite Es; nia).
      pose proof (rnds_mono _ _ Hle) as Hm. unfold rnds at 2 in Hm.
      destruct (Z.ltb_spec WMAX 0); [lia|]. now rewrite rnd_WMAX in Hm. }
  rewrite clamp_id in Ho by lia.
  destruct (of_Z z) as [s|s| |s m e]; try reflexivity; try discriminate N.
  cbn [ord] in Ho. destruct s; lia.
Qed.

(** X11.  An integer of magnitude [2**1024] or more is refused like a value
    that is not a number: [float] overflows on it, and [calculate_tax]
    raises its [ValueError], whichever argument it is. *)
Theorem calculate_tax_int_too_large
    (float_of_str : pystr -> option float) (z : Z) (other : pyobj) :
  2 ^ 1024 <= Z.abs z ->
  calculate_tax float_of_str (PyInt z) other = Raise not_numeric /\
  calculate_tax float_of_str other (PyInt z) = Raise not_numeric.
Proof.
  intros H. destruct (of_Z_overflow z H) as [s Es].
  assert (E : exists e, py_float float_of_str (PyInt z) = Raise e).
  { cbn [py_float]. rewrite Es. eauto. }
  split; apply calculate_tax_rejects; [left|right]; exact E.
Qed.

Lemma calculate_tax_int_too_large_witness :
  calculate_tax (fun _ => None) (PyInt (- 2 ^ 1024)) (PyFloat zero) = Raise not_numeric /\
  calculate_tax (fun _ => None) (PyFloat zero) (PyInt (- 2 ^ 1024)) = Raise not_numeric.
Proof.
  apply (calculate_tax_int_too_large (fun _ => None) (- 2 ^ 1024) (PyFloat zero)).
  vm_compute. discriminate.
Defined.

(** X12.  Integers of magnitude up to [2**1024 - 2**971], the largest
    double, are accepted as income and as relief: the call returns. *)
Theorem calculate_tax_int_accepted
    (float_of_str : pystr -> option float) (income tax_relief : Z) :
  Z.abs income <= 2 ^ 1024 - 2 ^ 971 ->
  Z.abs tax_relief <= 2 ^ 1024 - 2 ^ 971 ->
  exists t,
    calculate_tax float_of_str (PyInt income) (PyInt tax_relief) = Return t.
Proof.
  intros Hi Hr.
  pose proof (of_Z_finite _ Hi) as Fi. pose proof (of_Z_finite _ Hr) as Fr.
  pose proof (of_Z_good income) as [Vi _]. pose proof (of_Z_good tax_relief) as [Vr _].
  assert (Ei : py_float float_of_str (PyInt income) = Return (of_Z income)).
  { cbn [py_float]. destruct (of_Z income); try reflexivity; discriminate Fi. }
  assert (Er : py_float float_of_str (PyInt tax_relief) = Return (of_Z tax_relief)).
  { cbn [py_float]. destruct (of_Z tax_relief); try reflexivity; discriminate Fr. }
  destruct (tax_rounds _ _ Vi Vr) as (t & Ht & _).
  exists t. now rewrite (calculate_tax_run _ _ _ _ _ Ei Er).
Qed.

Lemma calculate_tax_int_accepted_witness :
  exists t,
    calculate_tax (fun _ => None) (PyInt (2 ^ 1024 - 2 ^ 971)) (PyInt (- 7)) = Return t.
Proof.
  apply (calculate_tax_int_accepted (fun _ => None) (2 ^ 1024 - 2 ^ 971) (- 7));
    vm_compute; discriminate.
Defined.

(** ** Which values [float] refuses *)

Lemma top_binade (W : Z) :
  2 ^ 53 * 2 ^ (970 + K) <= W < 2 ^ 54 * 2 ^ (970 + K) ->
  rnd W = round_half_even_div W (2 * 2 ^ (970 + K)) * (2 * 2 ^ (970 + K)).
Proof.
  intros H. pose proof K_eq as HK.
  assert (Em : mag W = 1024 + K).
  { apply mag_unique; [|lia].
    replace (1024 + K - 1) with (53 + (970 + K)) by lia.
    replace (1024 + K) with (54 + (970 + K)) by lia.
    rewrite !pow2_split by lia. exact H. }
  unfold rnd, texp. rewrite Em.
  replace (Z.max (1024 + K - 53) (K - 1074)) with (1 + (970 + K)) by lia.
  rewrite (pow2_split 1 (970 + K)) by lia. reflexivity.
Qed.

Lemma half_way_even (a : Z) :
  0 < a -> round_half_even_div ((2 ^ 54 - 1) * a) (2 * a) = 2 ^ 53.
Proof.
  intros Ha.
  assert (Eq : (2 ^ 54 - 1) * a / (2 * a) = 2 ^ 53 - 1).
  { symmetry. apply (Z.div_unique _ _ _ a); lia. }
  assert (Er : ((2 ^ 54 - 1) * a) mod (2 * a) = a).
  { symmetry. apply (Z.mod_unique _ _ (2 ^ 53 - 1)); lia. }
  destruct (rhe_cases ((2 ^ 54 - 1) * a) (2 * a) ltac:(lia))
    as (_ & _ & [[H _]|[[_ E]|[H _]]]).
  - rewrite Er in H. lia.
  - rewrite E, Eq. reflexivity.
  - rewrite Er in H. lia.
Qed.

Lemma below_half_way (a p : Z) :
  0 < p <= a -> round_half_even_div ((2 ^ 54 - 1) * a - p) (2 * a) = 2 ^ 53 - 1.
Proof. intros H. apply rhe_close; lia. Qed.

Lemma half_way_units :
  (2 ^ 1024 - 2 ^ 970) * 2 ^ K = (2 ^ 54 - 1) * 2 ^ (970 + K).
Proof.
  pose proof K_eq. rewrite (pow2_split 970 K) by lia.
  change (2 ^ 1024) with (2 ^ 54 * 2 ^ 970). ring.
Qed.

Lemma INF_top : INF = 2 ^ 54 * 2 ^ (970 + K).
Proof.
  unfold INF. pose proof K_eq.
  replace (1024 + K) with (54 + (970 + K)) by lia. apply pow2_split; lia.
Qed.

Lemma WMAX_top : WMAX = (2 ^ 53 - 1) * (2 * 2 ^ (970 + K)).
Proof.
  unfold WMAX. pose proof K_eq.
  replace (971 + K) with (1 + (970 + K)) by lia.
  rewrite (pow2_split 1 (970 + K)) by lia. reflexivity.
Qed.

(** The midpoint between the largest double and [2^1024] rounds up. *)
Lemma rnd_half_way : rnd ((2 ^ 1024 - 2 ^ 970) * 2 ^ K) = INF.
Proof.
  pose proof K_eq as HK. pose proof (pow2_pos (970 + K) ltac:(lia)) as Ha.
  rewrite half_way_units, INF_top.
  rewrite top_binade by lia. rewrite half_way_even by exact Ha. ring.
Qed.

(** One unit below it rounds down to the largest double. *)
Lemma rnd_below_half_way : rnd ((2 ^ 1024 - 2 ^ 970 - 1) * 2 ^ K) = WMAX.
Proof.
  pose proof K_eq as HK. pose proof (pow2_pos (970 + K) ltac:(lia)) as Ha.
  pose proof (pow2_pos K ltac:(lia)) as Hp.
  assert (Hpa : 2 ^ K <= 2 ^ (970 + K)) by (apply pow2_le; lia).
  replace ((2 ^ 1024 - 2 ^ 970 - 1) * 2 ^ K)
    with ((2 ^ 54 - 1) * 2 ^ (970 + K) - 2 ^ K)
    by (rewrite <- half_way_units; ring).
  rewrite WMAX_top, top_binade by lia.
  rewrite below_half_way by lia. reflexivity.
Qed.

Lemma scale_int_le (x y p : Z) : 0 < p -> x <= y -> x * p <= y * p.
Proof. intros. nia. Qed.

Lemma of_Z_overflows (z : Z) :
  2 ^ 1024 - 2 ^ 970 <= Z.abs z -> exists s, of_Z z = S754_infinity s.
Proof.
  intros H. pose proof (of_Z_good z) as [V _]. pose proof (of_Z_ord z) as Ho.
  pose proof INF_pos as HI. pose proof rnd_half_way as Eh.
  pose proof K_eq as HK. pose proof (pow2_pos K ltac:(lia)) as Hp.
  set (h := 2 ^ 1024 - 2 ^ 970) in *.
  assert (Hh : 0 < h * 2 ^ K).
  { destruct (Z_lt_le_dec 0 (h * 2 ^ K)) as [L|L]; [exact L|].
    rewrite rnd_fix in Eh; [lia| |].
    - subst h. rewrite half_way_units. pose proof (pow2_pos (970 + K)). nia.
    - subst h. rewrite half_way_units. apply representable_mantissa; lia. }
  destruct (Z_le_gt_dec 0 z) as [Hz|Hz].
  - exists false. apply ord_INF; [exact V|]. rewrite Ho.
    assert (Hge : h * 2 ^ K <= z * 2 ^ K) by (apply scale_int_le; lia).
    pose proof (rnds_mono _ _ Hge) as Hm.
    unfold rnds at 1 in Hm. destruct (Z.ltb_spec (h * 2 ^ K) 0); [lia|].
    rewrite Eh in Hm. unfold clamp. lia.
  - exists true. apply ord_NINF; [exact V|]. rewrite Ho.
    assert (Hle : z * 2 ^ K <= - (h * 2 ^ K)).
    { pose proof (scale_int_le h (- z) (2 ^ K) Hp ltac:(lia)). lia. }
    pose proof (rnds_mono _ _ Hle) as Hm.
    unfold rnds at 2 in Hm. destruct (Z.ltb_spec (- (h * 2 ^ K)) 0); [|lia].
    rewrite Z.opp_involutive, Eh in Hm. unfold clamp. lia.
Qed.

Lemma of_Z_in_range (z : Z) :
  Z.abs z < 2 ^ 1024 - 2 ^ 970 -> is_finite (of_Z z) = true.
Proof.
  intros H. pose proof (of_Z_good z) as [V N]. pose proof (of_Z_ord z) as Ho.
  pose proof WMAX_lt_INF as HW. pose proof rnd_below_half_way as Eh.
  pose proof K_eq as HK. pose proof (pow2_pos K ltac:(lia)) as Hp.
  set (h := 2 ^ 1024 - 2 ^ 970 - 1) in *.
  assert (Hh : 0 <= h) by (subst h; lia).
  assert (Hh' : 0 <= h * 2 ^ K) by (apply Z.mul_nonneg_nonneg; lia).
  assert (H0 : 0 <= WMAX) by (rewrite <- Eh; now apply rnd_nonneg).
  assert (Hr : - WMAX <= rnds (z * 2 ^ K) <= WMAX).
  { split.
    - assert (Hle : - (h * 2 ^ K) <= z * 2 ^ K).
      { pose proof (scale_int_le (- z) h (2 ^ K) Hp ltac:(lia)). lia. }
      pose proof (rnds_mono _ _ Hle) as Hm. unfold rnds at 1 in Hm.
      destruct (Z.ltb_spec (- (h * 2 ^ K)) 0).
      + now rewrite Z.opp_involutive, Eh in Hm.
      + replace (h * 2 ^ K) with 0 in * by lia. cbn in Hm.
        rewrite rnd_0 in Hm, Eh. lia.
    - assert (Hle : z * 2 ^ K <= h * 2 ^ K) by (apply scale_int_le; lia).
      pose proof (rnds_mono _ _ Hle) as Hm. unfold rnds at 2 in Hm.
      destruct (Z.ltb_spec (h * 2 ^ K) 0); [lia|]. now rewrite Eh in Hm. }
  rewrite clamp_id in Ho by lia.
  destruct (of_Z z) as [s|s| |s m e]; try reflexivity; try discriminate N.
  cbn [ord] in Ho. destruct s; lia.
Qed.

Lemma py_float_raises_iff (float_of_str : pystr -> option float) (o : pyobj) :
  (exists e, py_float float_of_str o = Raise e) <->
  float_refuses float_of_str o = true.
Proof.
  destruct o as [|b|z|f|s]; cbn [py_float float_refuses].
  - split; [reflexivity|eauto].
  - split; [intros [e H]; discriminate H|discriminate].
  - destruct (Z.leb_spec (2 ^ 1024 - 2 ^ 970) (Z.abs z)) as [H|H].
    + destruct (of_Z_overflows z H) as [s ->]. split; [reflexivity|eauto].
    + pose proof (of_Z_in_range z H) as F.
      split; [|discriminate]. intros [e He].
      destruct (of_Z z); try discriminate He; discriminate F.
  - split; [intros [e H]; discriminate H|discriminate].
  - destruct (float_of_str s).
    + split; [intros [e H]; discriminate H|discriminate].
    + split; [reflexivity|eauto].
Qed.

Lemma py_float_returns (float_of_str : pystr -> option float) (o : pyobj) :
  float_refuses float_of_str o = false -> exists x, py_float float_of_str o = Return x.
Proof.
  intros H. destruct (py_float float_of_str o) as [x|e] eqn:E; [eauto|].
  assert (R : float_refuses float_of_str o = true)
    by (apply py_float_raises_iff; eauto).
  congruence.
Qed.

(** C4, as stated: an integer is a numeric value, yet not every pair of
    integers is accepted.  [calculate_tax(2**1024, 0)] raises the
    [ValueError]. *)
Lemma calculate_tax_refuses_a_number :
  ~ (forall (float_of_str : pystr -> option float) (income tax_relief : Z),
        exists t,
          calculate_tax float_of_str (PyInt income) (PyInt tax_relief) = Return t).
Proof.
  intros H. destruct (H (fun _ => None) (2 ^ 1024) 0) as [t Ht].
  vm_compute in Ht. discriminate Ht.
Qed.

(** C4, amended.  [calculate_tax] raises its [ValueError] exactly when
    income or relief is a value that [float] refuses: [None], a string
    that does not parse, or an [int] of magnitude [2**1024 - 2**970] or
    more.  It raises nothing else, and on all other inputs, NaN and the
    infinities among them, it returns. *)
Theorem calculate_tax_raises_exactly
    (float_of_str : pystr -> option float) (income tax_relief : pyobj) :
  parser_ok float_of_str -> well_formed income -> well_formed tax_relief ->
  (calculate_tax float_of_str income tax_relief = Raise not_numeric <->
   float_refuses float_of_str income || float_refuses float_of_str tax_relief = true) /\
  (forall e, calculate_tax float_of_str income tax_relief = Raise e ->
             e = not_numeric) /\
  (float_refuses float_of_str income || float_refuses float_of_str tax_relief = false ->
   exists t, calculate_tax float_of_str income tax_relief = Return t).
Proof.
  intros P Wi Wr.
  destruct (float_refuses float_of_str income) eqn:Ri; cbn [orb].
  - assert (E : calculate_tax float_of_str income tax_relief = Raise not_numeric).
    { apply calculate_tax_rejects. left. now apply py_float_raises_iff. }
    split; [|split].
    + split; [reflexivity|intros _; exact E].
    + intros e H. rewrite E in H. now injection H as <-.
    + discriminate.
  - destruct (float_refuses float_of_str tax_relief) eqn:Rr.
    + assert (E : calculate_tax float_of_str income tax_relief = Raise not_numeric).
      { apply calculate_tax_rejects. right. now apply py_float_raises_iff. }
      split; [|split].
      * split; [reflexivity|intros _; exact E].
      * intros e H. rewrite E in H. now injection H as <-.
      * discriminate.
    + destruct (py_float_returns _ _ Ri) as [i Hi].
      destruct (py_float_returns _ _ Rr) as [r Hr].
      pose proof (py_float_valid _ _ _ P Wi Hi) as Vi.
      pose proof (py_float_valid _ _ _ P Wr Hr) as Vr.
      destruct (tax_rounds i r Vi Vr) as (t & Ht & _).
      assert (E : calculate_tax float_of_str income tax_relief = Return t)
        by now rewrite (calculate_tax_run _ _ _ _ _ Hi Hr).
      split; [|split].
      * split; [intros H; rewrite E in H; discriminate H|discriminate].
      * intros e H. rewrite E in H. discriminate H.
      * intros _. now exists t.
Qed.

Lemma calculate_tax_raises_exactly_witness :
  (calculate_tax (fun s => if pystr_eqb s [49; 50]%N then Some (of_Z 12) else None)
     (PyStr [97; 98; 99]%N) (PyFloat S754_nan) = Raise not_numeric <->
   float_refuses (fun s => if pystr_eqb s [49; 50]%N then Some (of_Z 12) else None)
     (PyStr [97; 98; 99]%N)
   || float_refuses (fun s => if pystr_eqb s [49; 50]%N then Some (of_Z 12) else None)
        (PyFloat S754_nan) = true) /\
  (forall e,
      calculate_tax (fun s => if pystr_eqb s [49; 50]%N then Some (of_Z 12) else None)
        (PyStr [97; 98; 99]%N) (PyFloat S754_nan) = Raise e ->
      e = not_numeric) /\
  (float_refuses (fun s => if pystr_eqb s [49; 50]%N then Some (of_Z 12) else None)
     (PyStr [97; 98; 99]%N)
   || float_refuses (fun s => if pystr_eqb s [49; 50]%N then Some (of_Z 12) else None)
        (PyFloat S754_nan) = false ->
   exists t,
     calculate_tax (fun s => if pystr_eqb s [49; 50]%N then Some (of_Z 12) else None)
       (PyStr [97; 98; 99]%N) (PyFloat S754_nan) = Return t).
Proof.
  apply (calculate_tax_raises_exactly
           (fun s => if pystr_eqb s [49; 50]%N then Some (of_Z 12) else None)).
  - intros s f H. destruct (pystr_eqb s [49; 50]%N); [|discriminate H].
    injection H as <-. reflexivity.
  - exact I.
  - reflexivity.
Defined.

(** ** Bounds by the table *)

Lemma tax_round_mono (c1 c2 t1 t2 : float) :
  nng c1 -> nng c2 -> ord c1 <= ord c2 ->
  py_round2 (tax_loop c1 brackets zero zero) = Return t1 ->
  py_round2 (tax_loop c2 brackets zero zero) = Return t2 ->
  fleb t1 t2 = true.
Proof.
  intros N1 N2 Hc E1 E2.
  pose proof (tax_loop_nng brackets c1 zero zero N1 nng_zero brackets_ok) as [T1 _].
  pose proof (tax_loop_nng brackets c2 zero zero N2 nng_zero brackets_ok) as [T2 _].
  pose proof (tax_loop_mono brackets c1 c2 zero zero zero N1 N2 Hc
                nng_zero nng_zero (Z.le_refl _) brackets_ok) as Hm.
  destruct (py_round2_nng _ T1) as (u1 & F1 & U1 & O1).
  destruct (py_round2_nng _ T2) as (u2 & F2 & U2 & O2).
  rewrite E1 in F1. injection F1 as <-. rewrite E2 in F2. injection F2 as <-.
  rewrite fleb_nng by assumption. apply Z.leb_le. rewrite O1, O2.
  apply oround_mono; [|now apply nng_ord_range|now apply nng_ord_range].
  destruct T1 as [_ T1]. lia.
Qed.

Lemma tax_at_upper (k : nat) (u pct : Z) :
  nth_error exact_bands k = Some (u, pct) ->
  nngb (of_Z u) = true /\
  py_round2 (tax_loop (of_Z u) brackets zero zero) =
  Return (of_Z (exact_cumulative_cents k / 100)).
Proof.
  intros Hk.
  do 9 (destruct k as [|k];
        [injection Hk as <- <-; split; vm_compute; reflexivity|]).
  destruct k; discriminate Hk.
Qed.

(** X13.  A chargeable income that does not exceed the upper limit of a
    band pays at most the tax at that limit, the sum of the full widths of
    the bands up to it times their rates. *)
Theorem calculate_tax_band_bound
    (float_of_str : pystr -> option float) (income tax_relief : pyobj)
    (i r : float) (k : nat) (u pct : Z) :
  py_float float_of_str income = Return i ->
  py_float float_of_str tax_relief = Return r ->
  valid i = true -> valid r = true ->
  nth_error exact_bands k = Some (u, pct) ->
  fleb (fsub i r) (of_Z u) = true ->
  exists t,
    calculate_tax float_of_str income tax_relief = Return t /\
    fleb t (of_Z (exact_cumulative_cents k / 100)) = true.
Proof.
  intros Hi Hr Vi Vr Hk Hle.
  destruct (tax_at_upper k u pct Hk) as [Bu Eu].
  pose proof (nngb_nng _ Bu) as Nu.
  destruct (tax_rounds i r Vi Vr) as (t & Ht & _).
  exists t. rewrite (calculate_tax_run _ _ _ _ _ Hi Hr). split; [exact Ht|].
  apply (tax_round_mono (py_max zero (fsub i r)) (of_Z u)); try assumption.
  - now apply chg_nng.
  - pose proof (fsub_valid i r Vi Vr) as Vd.
    destruct (py_max_zero _ Vd) as [_ ->].
    destruct Nu as [[Vu _] Ou].
    destruct (fleb_true_ord _ _ Vd Vu Hle) as (_ & _ & Hd). lia.
Qed.

Lemma calculate_tax_band_bound_witness :
  exists t,
    calculate_tax (fun _ => None) (PyInt 93000) (PyFloat (of_Z 9000)) = Return t /\
    fleb t (of_Z (exact_cumulative_cents 5 / 100)) = true.
Proof.
  apply (calculate_tax_band_bound (fun _ => None)
           (PyInt 93000) (PyFloat (of_Z 9000)) (of_Z 93000) (of_Z 9000)
           5 100000 19); reflexivity.
Defined.

(** X14.  The [base_tax] column, which the loop does not read, agrees with
    the loop: the base of each row is the tax returned at the upper limit
    of the row before it. *)
Theorem base_tax_column_consistent
    (float_of_str : pystr -> option float) (k : nat)
    (upper base rate upper' base' rate' : float) :
  nth_error brackets k = Some (upper, base, rate) ->
  nth_error brackets (S k) = Some (upper', base', rate') ->
  calculate_tax float_of_str (PyFloat upper) (PyFloat zero) = Return base'.
Proof.
  intros Hk Hk'.
  do 9 (destruct k as [|k];
        [vm_compute in Hk, Hk';
         injection Hk as <- _ _; injection Hk' as _ <- _;
         vm_compute; reflexivity|]).
  destruct k as [|k]; [discriminate Hk'|destruct k; discriminate Hk].
Qed.

Lemma base_tax_column_consistent_witness :
  calculate_tax (fun _ => None) (PyFloat (of_Z 70000)) (PyFloat zero) =
  Return (of_Z 3700).
Proof.
  apply (base_tax_column_consistent (fun _ => None) 4
           (of_Z 70000) (of_Z 1500) (dec2 11) (of_Z 100000) (of_Z 3700) (dec2 19));
    reflexivity.
Defined.

(** * The interactive program *)

Section AmountLoop.

Variable str_isspace : pychar -> bool.
Variable float_of_str : pystr -> option float.

(** A turn of the loop is [input], [strip], [float] and the test. *)
Lemma ask_amount_turn (prompt : pystr) (env : Env) :
  ask_amount str_isspace float_of_str prompt env =
  match py_input prompt env with
  | (Raise e, env') => (Raise e, env')
  | (Return line, env') =>
      if refused str_isspace float_of_str line
      then ask_amount str_isspace float_of_str prompt (show (Printed msg_invalid_amount) env')
      else match float_of_str (strip str_isspace line) with
           | Some amount => (Return amount, env')
           | None => (Raise EOFError, env')
           end
  end.
Proof.
  unfold ask_amount, py_input, refused. destruct env as [lines log w]. cbn [typed shown store].
  destruct lines as [|line rest]; [reflexivity|]. cbn [amount_loop typed shown store show].
  destruct (float_of_str (strip str_isspace line)) as [x|].
  - destruct (fltb x zero); [|reflexivity].
    now rewrite <- app_assoc.
  - now rewrite <- app_assoc.
Qed.

Lemma amount_loop_skip (prompt : pystr) (bad : list pystr) :
  forallb (refused str_isspace float_of_str) bad = true ->
  forall rest log w,
    amount_loop str_isspace float_of_str prompt (bad ++ rest) log w =
    amount_loop str_isspace float_of_str prompt rest (log ++ refusals prompt bad) w.
Proof.
  induction bad as [|b bad IH]; intros Hb rest log w.
  - cbn. now rewrite app_nil_r.
  - cbn [forallb] in Hb. apply andb_prop in Hb as [Hb Hbad].
    cbn [app amount_loop]. unfold refused in Hb.
    destruct (float_of_str (strip str_isspace b)) as [x|].
    + rewrite Hb, IH by assumption. f_equal.
      unfold refusals. cbn [flat_map]. now rewrite <- app_assoc.
    + rewrite IH by assumption. f_equal.
      unfold refusals. cbn [flat_map]. now rewrite <- app_assoc.
Qed.

Lemma amount_loop_accept (prompt : pystr) (line : pystr) (x : float)
      (rest : list pystr) (log : list event) (w : World) :
  float_of_str (strip str_isspace line) = Some x -> fltb x zero = false ->
  amount_loop str_isspace float_of_str prompt (line :: rest) log w =
  (Return x, {| typed := rest; shown := log ++ [Prompted prompt]; store := w |}).
Proof. intros E H. cbn [amount_loop]. now rewrite E, H. Qed.

Lemma amount_loop_return (prompt : pystr) (lines : list pystr) :
  forall log w x env',
    amount_loop str_isspace float_of_str prompt lines log w = (Return x, env') ->
    exists bad line,
      lines = bad ++ line :: typed env' /\
      forallb (refused str_isspace float_of_str) bad = true /\
      float_of_str (strip str_isspace line) = Some x /\ fltb x zero = false /\
      shown env' = log ++ refusals prompt bad ++ [Prompted prompt] /\
      store env' = w.
Proof.
  induction lines as [|l lines IH]; intros log w x env' H; cbn [amount_loop] in H.
  - discriminate H.
  - destruct (float_of_str (strip str_isspace l)) as [y|] eqn:E.
    + destruct (fltb y zero) eqn:Hy.
      * destruct (IH _ _ _ _ H) as (bad & line & -> & Hb & El & Hx & Hs & Hw).
        exists (l :: bad), line. split; [reflexivity|].
        repeat split; try assumption.
        -- cbn [forallb]. unfold refused at 1. now rewrite E, Hy.
        -- rewrite Hs. unfold refusals. cbn [flat_map].
           now rewrite <- !app_assoc.
      * injection H as <- <-. exists [], l.
        repeat split; try reflexivity; assumption.
    + destruct (IH _ _ _ _ H) as (bad & line & -> & Hb & El & Hx & Hs & Hw).
      exists (l :: bad), line. split; [reflexivity|].
      repeat split; try assumption.
      * cbn [forallb]. unfold refused at 1. now rewrite E.
      * rewrite Hs. unfold refusals. cbn [flat_map].
        now rewrite <- !app_assoc.
Qed.

Lemma amount_loop_raise (prompt : pystr) (lines : list pystr) :
  forall log w e env',
    amount_loop str_isspace float_of_str prompt lines log w = (Raise e, env') ->
    e = EOFError /\ forallb (refused str_isspace float_of_str) lines = true /\
    env' = {| typed := [];
              shown := log ++ refusals prompt lines ++ [Prompted prompt];
              store := w |}.
Proof.
  induction lines as [|l lines IH]; intros log w e env' H; cbn [amount_loop] in H.
  - injection H as <- <-. auto.
  - cbn [forallb]. unfold refused at 1.
    destruct (float_of_str (strip str_isspace l)) as [y|] eqn:E.
    + destruct (fltb y zero) eqn:Hy; [|discriminate H].
      destruct (IH _ _ _ _ H) as (-> & Hb & ->).
      split; [reflexivity|]. split; [exact Hb|].
      unfold refusals. cbn [flat_map]. now rewrite <- !app_assoc.
    + destruct (IH _ _ _ _ H) as (-> & Hb & ->).
      split; [reflexivity|]. split; [exact Hb|].
      unfold refusals. cbn [flat_map]. now rewrite <- !app_assoc.
Qed.

End AmountLoop.

Section Collect.

Variable str_isspace : pychar -> bool.
Variable float_of_str : pystr -> option float.

Lemma collect_return (env env' : Env) (income relief : float) :
  collect_income_and_relief str_isspace float_of_str env =
    (Return (income, relief), env') ->
  exists bad1 l1 bad2 l2,
    typed env = bad1 ++ l1 :: bad2 ++ l2 :: typed env' /\
    forallb (refused str_isspace float_of_str) bad1 = true /\
    forallb (refused str_isspace float_of_str) bad2 = true /\
    float_of_str (strip str_isspace l1) = Some income /\ fltb income zero = false /\
    float_of_str (strip str_isspace l2) = Some relief /\ fltb relief zero = false /\
    shown env' = shown env ++ refusals prompt_income bad1 ++ [Prompted prompt_income]
                           ++ refusals prompt_relief bad2 ++ [Prompted prompt_relief] /\
    store env' = store env.
Proof.
  unfold collect_income_and_relief, prog_bind, ask_amount, prog_ret.
  destruct (amount_loop _ _ prompt_income _ _ _) as [[i|e] env1] eqn:E1;
    [|discriminate].
  destruct (amount_loop _ _ prompt_relief _ _ _) as [[r|e] env2] eqn:E2;
    [|discriminate].
  intros [= <- <- <-].
  destruct (amount_loop_return _ _ _ _ _ _ _ _ E1)
    as (bad1 & l1 & T1 & B1 & P1 & N1 & S1 & W1).
  destruct (amount_loop_return _ _ _ _ _ _ _ _ E2)
    as (bad2 & l2 & T2 & B2 & P2 & N2 & S2 & W2).
  exists bad1, l1, bad2, l2. rewrite T1, T2, S2, S1, W2, W1.
  repeat split; try assumption. now rewrite <- !app_assoc.
Qed.

Lemma collect_raise (env env' : Env) (e : exn) :
  collect_income_and_relief str_isspace float_of_str env = (Raise e, env') ->
  e = EOFError /\ typed env' = [] /\ store env' = store env.
Proof.
  unfold collect_income_and_relief, prog_bind, ask_amount, prog_ret.
  destruct (amount_loop _ _ prompt_income _ _ _) as [[i|e1] env1] eqn:E1.
  - destruct (amount_loop _ _ prompt_relief _ _ _) as [[r|e2] env2] eqn:E2;
      [discriminate|].
    intros [= <- <-].
    destruct (amount_loop_return _ _ _ _ _ _ _ _ E1) as (_ & _ & _ & _ & _ & _ & _ & W1).
    destruct (amount_loop_raise _ _ _ _ _ _ _ _ E2) as (-> & _ & ->).
    cbn [typed store]. auto.
  - intros [= <- <-].
    destruct (amount_loop_raise _ _ _ _ _ _ _ _ E1) as (-> & _ & ->).
    cbn [typed store]. auto.
Qed.

End Collect.

(** X15.  The amounts that [collect_income_and_relief] returns are not
    below zero, and each is what [float] made of a typed line; the record
    store is not touched. *)
Theorem collect_amounts_not_negative
    (str_isspace : pychar -> bool) (float_of_str : pystr -> option float)
    (env env' : Env) (income relief : float) :
  collect_income_and_relief str_isspace float_of_str env =
    (Return (income, relief), env') ->
  fltb income zero = false /\ fltb relief zero = false /\
  (exists l1 l2,
      In l1 (typed env) /\ In l2 (typed env) /\
      float_of_str (strip str_isspace l1) = Some income /\
      float_of_str (strip str_isspace l2) = Some relief) /\
  store env' = store env.
Proof.
  intros H.
  destruct (collect_return _ _ _ _ _ _ H)
    as (bad1 & l1 & bad2 & l2 & T & _ & _ & P1 & N1 & P2 & N2 & _ & W).
  repeat split; try assumption.
  exists l1, l2. rewrite T. repeat split; try assumption.
  - apply in_or_app. right. now left.
  - apply in_or_app. right. right. apply in_or_app. right. now left.
Qed.

(** X16.  Each loop of [collect_income_and_relief] passes over the lines
    it refuses, showing its prompt and the message once for each, and takes
    the first line it does not refuse; the lines after the second amount
    stay to be read. *)
Theorem collect_skips_refused_lines
    (str_isspace : pychar -> bool) (float_of_str : pystr -> option float)
    (env : Env) (bad1 bad2 rest : list pystr) (l1 l2 : pystr)
    (income relief : float) :
  typed env = bad1 ++ l1 :: bad2 ++ l2 :: rest ->
  forallb (refused str_isspace float_of_str) bad1 = true ->
  forallb (refused str_isspace float_of_str) bad2 = true ->
  float_of_str (strip str_isspace l1) = Some income -> fltb income zero = false ->
  float_of_str (strip str_isspace l2) = Some relief -> fltb relief zero = false ->
  collect_income_and_relief str_isspace float_of_str env =
  (Return (income, relief),
   {| typed := rest;
      shown := shown env ++ refusals prompt_income bad1 ++ [Prompted prompt_income]
                         ++ refusals prompt_relief bad2 ++ [Prompted prompt_relief];
      store := store env |}).
Proof.
  intros T B1 B2 P1 N1 P2 N2.
  unfold collect_income_and_relief, prog_bind, ask_amount, prog_ret.
  rewrite T, (amount_loop_skip _ _ _ _ B1), (amount_loop_accept _ _ _ _ _ _ _ _ P1 N1).
  cbn [typed shown store].
  rewrite (amount_loop_skip _ _ _ _ B2), (amount_loop_accept _ _ _ _ _ _ _ _ P2 N2).
  now rewrite <- !app_assoc.
Qed.

(** X17.  [collect_income_and_relief] fails in one way only: with
    [EOFError], when the typed lines run out before two amounts were
    accepted.  All lines are then consumed and the record store is as it
    was. *)
Theorem collect_fails_only_at_end_of_input
    (str_isspace : pychar -> bool) (float_of_str : pystr -> option float)
    (env env' : Env) (e : exn) :
  collect_income_and_relief str_isspace float_of_str env = (Raise e, env') ->
  e = EOFError /\ typed env' = [] /\ store env' = store env.
Proof. apply collect_raise. Qed.

(** X18.  A NaN passes the test [income < 0]: a line that [float] reads as
    NaN is accepted as an amount. *)
Theorem nan_amount_accepted
    (str_isspace : pychar -> bool) (float_of_str : pystr -> option float)
    (prompt : pystr) (env : Env) (line : pystr) (rest : list pystr) :
  typed env = line :: rest ->
  float_of_str (strip str_isspace line) = Some S754_nan ->
  ask_amount str_isspace float_of_str prompt env =
  (Return S754_nan,
   {| typed := rest; shown := shown env ++ [Prompted prompt]; store := store env |}).
Proof.
  intros T P. unfold ask_amount. rewrite T.
  now apply amount_loop_accept.
Qed.

Lemma collect_amounts_not_negative_witness :
  fltb (of_Z 9) zero = false /\ fltb (of_Z 5) zero = false /\
  (exists l1 l2,
      In l1 (typed demo_env) /\ In l2 (typed demo_env) /\
      demo_float (strip demo_isspace l1) = Some (of_Z 9) /\
      demo_float (strip demo_isspace l2) = Some (of_Z 5)) /\
  store (snd (collect_income_and_relief demo_isspace demo_float demo_env)) =
  store demo_env.
Proof.
  apply (collect_amounts_not_negative demo_isspace demo_float demo_env).
  vm_compute. reflexivity.
Defined.

Lemma collect_skips_refused_lines_witness :
  collect_income_and_relief demo_isspace demo_float demo_env =
  (Return (of_Z 9, of_Z 5),
   {| typed := [[121%N]];
      shown := shown demo_env
               ++ refusals prompt_income [[45; 49]%N] ++ [Prompted prompt_income]
               ++ refusals prompt_relief [[120%N]] ++ [Prompted prompt_relief];
      store := store demo_env |}).
Proof.
  apply (collect_skips_refused_lines demo_isspace demo_float demo_env
           [[45; 49]%N] [[120%N]] [[121%N]] [57%N] [32; 53; 32]%N);
    reflexivity.
Defined.

Lemma collect_fails_only_at_end_of_input_witness :
  EOFError = EOFError /\
  typed (snd (collect_income_and_relief demo_isspace demo_float
                {| typed := [[57%N]; [120%N]]; shown := [];
                   store := store demo_env |})) = [] /\
  store (snd (collect_income_and_relief demo_isspace demo_float
                {| typed := [[57%N]; [120%N]]; shown := [];
                   store := store demo_env |})) = store demo_env.
Proof.
  apply (collect_fails_only_at_end_of_input demo_isspace demo_float
           {| typed := [[57%N]; [120%N]]; shown := []; store := store demo_env |}).
  vm_compute. reflexivity.
Defined.

Lemma nan_amount_accepted_witness :
  ask_amount demo_isspace (fun _ => Some S754_nan) prompt_income demo_env =
  (Return S754_nan,
   {| typed := [[57]; [120]; [32; 53; 32]; [121]]%N;
      shown := shown demo_env ++ [Prompted prompt_income];
      store := store demo_env |}).
Proof.
  apply (nan_amount_accepted demo_isspace (fun _ => Some S754_nan)
           prompt_income demo_env [45; 49]%N); reflexivity.
Defined.

(** ** [display_records] and [main] *)

Lemma prog_bind_return {A B : Type} (m : Prog A) (k : A -> Prog B)
      (env env' : Env) (a : A) :
  m env = (Return a, env') -> prog_bind m k env = k a env'.
Proof. intros H. unfold prog_bind. now rewrite H. Qed.

Lemma prog_bind_raise {A B : Type} (m : Prog A) (k : A -> Prog B)
      (env env' : Env) (e : exn) :
  m env = (Raise e, env') -> prog_bind m k env = (Raise e, env').
Proof. intros H. unfold prog_bind. now rewrite H. Qed.

Lemma on_store_run {A : Type} (m : IO A) (env : Env) :
  on_store m env =
  (Return (fst (m (store env))),
   {| typed := typed env; shown := shown env; store := snd (m (store env)) |}).
Proof. unfold on_store. now destruct (m (store env)). Qed.

Lemma demo_float_ok : parser_ok demo_float.
Proof.
  intros s f. unfold demo_float.
  destruct s as [|a [|b [|c t]]]; try discriminate.
  - destruct (demo_digit a); [|discriminate]. intros [= <-]. apply of_Z_good.
  - destruct (N.eqb a 45); [|discriminate].
    destruct (demo_digit b); [|discriminate]. intros [= <-]. apply of_Z_good.
Qed.

Section MainProperties.

Variable str_isspace : pychar -> bool.
Variable str_lower : pystr -> pystr.
Variable float_of_str : pystr -> option float.
Variable DataFrame : Type.
Variable pd_read_csv : pystr -> World -> result DataFrame.
Variable df_empty : DataFrame -> bool.
Variable tabulate_psql : DataFrame -> result pystr.
Variable df_to_string : DataFrame -> pystr.
Variable prompt_registration : Prog (option User).
Variable prompt_login : Prog (option User).

(** What [display_records] prints. *)
Lemma display_records_run (env : Env) :
  display_records DataFrame pd_read_csv tabulate_psql df_to_string env =
  (Return tt,
   show (Printed
           match files (store env) tax_records_csv with
           | None => msg_no_records
           | Some _ =>
               match pd_read_csv tax_records_csv (store env) with
               | Raise _ => msg_no_records
               | Return df =>
                   match tabulate_psql df with
                   | Return table => table
                   | Raise _ => df_to_string df
                   end
               end
           end) env).
Proof.
  unfold display_records, prog_bind, on_store, read_from_csv, io_bind,
    os_path_exists, io_ret, py_print, show.
  destruct (files (store env) tax_records_csv); cbn [negb typed shown store].
  - destruct (pd_read_csv tax_records_csv (store env)) as [df|e];
      cbn [typed shown store]; [|reflexivity].
    destruct (tabulate_psql df); reflexivity.
  - reflexivity.
Qed.

(** X19.  [display_records] never raises; it prints one text and changes
    neither the record store nor the lines still to be read.  The text is
    the notice that there are no records when the file is missing or
    pandas cannot read it, and the table otherwise, rendered by pandas when
    tabulate fails. *)
Theorem display_records_prints_once (env : Env) :
  exists text,
    display_records DataFrame pd_read_csv tabulate_psql df_to_string env =
      (Return tt, show (Printed text) env) /\
    (files (store env) tax_records_csv = None \/
     (exists e, pd_read_csv tax_records_csv (store env) = Raise e) ->
     text = msg_no_records) /\
    (forall df,
        files (store env) tax_records_csv <> None ->
        pd_read_csv tax_records_csv (store env) = Return df ->
        text = match tabulate_psql df with
               | Return table => table
               | Raise _ => df_to_string df
               end).
Proof.
  eexists. split; [apply display_records_run|]. split.
  - intros [H|[e H]].
    + now rewrite H.
    + rewrite H. now destruct (files (store env) tax_records_csv).
  - intros df Hf Hr. rewrite Hr.
    destruct (files (store env) tax_records_csv); [reflexivity|contradiction].
Qed.

(** The end of [main], after the record is saved: the store stays as it
    is, whatever the answer to the last question. *)
Lemma view_step (env : Env) :
  store (snd (prog_bind (py_input prompt_view)
                (fun view =>
                   if pystr_eqb (str_lower (strip str_isspace view))
                                (pystr_of_string "y")
                   then display_records DataFrame pd_read_csv tabulate_psql
                                        df_to_string
                   else prog_ret tt) env)) = store env /\
  incl (shown env)
       (shown (snd (prog_bind (py_input prompt_view)
                (fun view =>
                   if pystr_eqb (str_lower (strip str_isspace view))
                                (pystr_of_string "y")
                   then display_records DataFrame pd_read_csv tabulate_psql
                                        df_to_string
                   else prog_ret tt) env))).
Proof.
  unfold prog_bind, py_input.
  destruct (typed env) as [|view rest].
  - cbn [snd show store shown]. split; [reflexivity|]. now apply incl_appl, incl_refl.
  - destruct (pystr_eqb _ _).
    + rewrite display_records_run. cbn [snd show store shown typed].
      split; [reflexivity|]. now apply incl_appl, incl_appl, incl_refl.
    + cbn [prog_ret snd store shown]. split; [reflexivity|].
      now apply incl_appl, incl_refl.
Qed.

(** X20.  Once a user is known and two amounts are accepted, [main] computes
    the tax without raising, prints it, and saves the record of the IC
    number, the income, the relief and that tax to [tax_records.csv]; the
    store is then left as [save_to_csv] made it, whatever is typed, or not
    typed, afterwards. *)
Theorem main_saves_the_computed_tax
    (user : User) (env env1 : Env) (income relief : float) :
  parser_ok float_of_str ->
  collect_income_and_relief str_isspace float_of_str env =
    (Return (income, relief), env1) ->
  exists tax_payable,
    calculate_tax float_of_str (PyFloat income) (PyFloat relief) =
      Return tax_payable /\
    In (PrintedTax tax_payable)
       (shown (snd (main_with_user str_isspace str_lower float_of_str DataFrame
                      pd_read_csv tabulate_psql df_to_string (Some user) env))) /\
    store (snd (main_with_user str_isspace str_lower float_of_str DataFrame
                  pd_read_csv tabulate_psql df_to_string (Some user) env)) =
    snd (save_to_csv (tax_record (ic_number user) income relief tax_payable)
           tax_records_csv (store env)).
Proof.
  intros P H.
  destruct (collect_return _ _ _ _ _ _ H)
    as (bad1 & l1 & bad2 & l2 & _ & _ & _ & P1 & _ & P2 & _ & _ & W).
  pose proof (P _ _ P1) as Vi. pose proof (P _ _ P2) as Vr.
  destruct (tax_rounds income relief Vi Vr) as (t & Ht & _).
  assert (Et : calculate_tax float_of_str (PyFloat income) (PyFloat relief) = Return t).
  { now rewrite (calculate_tax_run float_of_str (PyFloat income) (PyFloat relief)
                   income relief eq_refl eq_refl). }
  exists t. split; [exact Et|].
  unfold main_with_user.
  rewrite (prog_bind_return _ _ env env (ic_number user)) by reflexivity.
  rewrite (prog_bind_return _ _ _ _ _ H). cbn [fst snd].
  rewrite (prog_bind_return _ _ env1 env1 t) by (now rewrite Et).
  rewrite (prog_bind_return _ _ env1 (show (PrintedTax t) env1) tt) by reflexivity.
  set (data := tax_record (ic_number user) income relief t).
  set (env2 := {| typed := typed (show (PrintedTax t) env1);
                  shown := shown (show (PrintedTax t) env1);
                  store := snd (save_to_csv data tax_records_csv (store env1)) |}).
  rewrite (prog_bind_return _ _ _ env2 tt).
  2:{ rewrite on_store_run. subst env2. cbn [show store typed shown].
      now destruct (fst (save_to_csv data tax_records_csv (store env1))). }
  rewrite (prog_bind_return _ _ env2 (show (Printed msg_saved) env2) tt) by reflexivity.
  destruct (view_step (show (Printed msg_saved) env2)) as [Hs Hi].
  split.
  - apply Hi. cbn [show shown env2]. apply in_or_app. left.
    apply in_or_app. right. now left.
  - rewrite Hs. cbn [show store env2]. now rewrite W.
Qed.

(** X21.  When there are registered users, the answer is [r], registration
    is refused and the login that follows is refused too, [main] does not
    end quietly: it raises [TypeError] at [user['ic_number']], before any
    amount is asked for. *)
Theorem main_crashes_when_both_are_refused
    (env env1 env2 : Env) (users_df : DataFrame) (choice : pystr)
    (rest : list pystr) :
  pd_read_csv users_csv (store env) = Return users_df ->
  df_empty users_df = false ->
  typed env = choice :: rest ->
  str_lower (strip str_isspace choice) = pystr_of_string "r" ->
  prompt_registration
    {| typed := rest;
       shown := (shown env ++ [Printed msg_banner]) ++ [Prompted prompt_choice];
       store := store env |} = (Return None, env1) ->
  prompt_login env1 = (Return None, env2) ->
  main str_isspace str_lower float_of_str DataFrame pd_read_csv df_empty
       tabulate_psql df_to_string prompt_registration prompt_login env =
  (Raise (TypeError "'NoneType' object is not subscriptable"), env2).
Proof.
  intros Hu He Ht Hc Hreg Hlog. unfold main.
  rewrite (prog_bind_return _ _ env (show (Printed msg_banner) env) tt) by reflexivity.
  rewrite (prog_bind_return _ _ _ (show (Printed msg_banner) env) true).
  2:{ unfold users_registered. cbn [show store]. now rewrite Hu, He. }
  cbn [negb].
  erewrite (prog_bind_return (py_input prompt_choice)).
  2:{ unfold py_input. cbn [show typed shown store]. rewrite Ht. reflexivity. }
  rewrite Hc, pystr_eqb_refl.
  rewrite (prog_bind_return _ _ _ _ _ Hreg).
  rewrite (prog_bind_return _ _ _ _ _ Hlog).
  reflexivity.
Qed.

(** X22.  A missing [users.csv] is no error, but any other failure of
    pandas on that file is: [main] then raises what pandas raised, right
    after its banner, and asks nothing. *)
Theorem main_raises_on_unreadable_users (env : Env) (e : exn) :
  pd_read_csv users_csv (store env) = Raise e ->
  is_FileNotFoundError e = false ->
  main str_isspace str_lower float_of_str DataFrame pd_read_csv df_empty
       tabulate_psql df_to_string prompt_registration prompt_login env =
  (Raise e, show (Printed msg_banner) env).
Proof.
  intros Hu He. unfold main.
  rewrite (prog_bind_return _ _ env (show (Printed msg_banner) env) tt) by reflexivity.
  apply prog_bind_raise.
  unfold users_registered. cbn [show store]. now rewrite Hu, He.
Qed.

End MainProperties.

Lemma main_saves_the_computed_tax_witness :
  exists tax_payable,
    calculate_tax demo_float (PyFloat (of_Z 9)) (PyFloat (of_Z 5)) =
      Return tax_payable /\
    In (PrintedTax tax_payable)
       (shown (snd (main_with_user demo_isspace (fun s => s) demo_float unit
                      (fun _ _ => Return tt)
                      (fun _ => Raise (OtherException "ImportError"))
                      (fun _ => [])
                      (Some {| user_id := [117%N]; ic_number := [57; 56]%N |})
                      demo_env))) /\
    store (snd (main_with_user demo_isspace (fun s => s) demo_float unit
                  (fun _ _ => Return tt)
                  (fun _ => Raise (OtherException "ImportError"))
                  (fun _ => [])
                  (Some {| user_id := [117%N]; ic_number := [57; 56]%N |})
                  demo_env)) =
    snd (save_to_csv
           (tax_record
              (ic_number {| user_id := [117%N]; ic_number := [57; 56]%N |})
              (of_Z 9) (of_Z 5) tax_payable)
           tax_records_csv (store demo_env)).
Proof.
  apply (main_saves_the_computed_tax demo_isspace (fun s => s) demo_float unit
           (fun _ _ => Return tt)
           (fun _ => Raise (OtherException "ImportError"))
           (fun _ => [])
           {| user_id := [117%N]; ic_number := [57; 56]%N |}
           demo_env
           (snd (collect_income_and_relief demo_isspace demo_float demo_env))).
  - exact demo_float_ok.
  - vm_compute. reflexivity.
Defined.

Lemma main_crashes_when_both_are_refused_witness :
  main demo_isspace (fun s => s) demo_float unit (fun _ _ => Return tt)
       (fun _ => false) (fun _ => Raise (OtherException "ImportError"))
       (fun _ => []) (prog_ret None) (prog_ret None)
       {| typed := [[114%N]]; shown := []; store := store demo_env |} =
  (Raise (TypeError "'NoneType' object is not subscriptable"),
   {| typed := [];
      shown := ([] ++ [Printed msg_banner]) ++ [Prompted prompt_choice];
      store := store demo_env |}).
Proof.
  apply (main_crashes_when_both_are_refused demo_isspace (fun s => s) demo_float
           unit (fun _ _ => Return tt) (fun _ => false)
           (fun _ => Raise (OtherException "ImportError")) (fun _ => [])
           (prog_ret None) (prog_ret None)
           {| typed := [[114%N]]; shown := []; store := store demo_env |}
           {| typed := [];
              shown := ([] ++ [Printed msg_banner]) ++ [Prompted prompt_choice];
              store := store demo_env |}
           _ tt [114%N] []); reflexivity.
Defined.

Lemma main_raises_on_unreadable_users_witness :
  main demo_isspace (fun s => s) demo_float unit
       (fun _ _ => Raise (OtherException "EmptyDataError"))
       (fun _ => false) (fun _ => Raise (OtherException "ImportError"))
       (fun _ => []) (prog_ret None) (prog_ret None) demo_env =
  (Raise (OtherException "EmptyDataError"), show (Printed msg_banner) demo_env).
Proof.
  apply (main_raises_on_unreadable_users demo_isspace (fun s => s) demo_float
           unit (fun _ _ => Raise (OtherException "EmptyDataError"))
           (fun _ => false) (fun _ => Raise (OtherException "ImportError"))
           (fun _ => []) (prog_ret None) (prog_ret None) demo_env);
    reflexivity.
Defined.

(** * Whole amounts are taxed to the cent *)

(** ** Rounding errors *)

Lemma rnd_err (W : Z) :
  0 <= W -> - 2 ^ texp W <= 2 * (rnd W - W) <= 2 ^ texp W.
Proof.
  intros HW. pose proof (pow2_pos _ (texp_nonneg W)) as Hp.
  pose proof (rhe_err W (2 ^ texp W) Hp) as H. unfold rnd. lia.
Qed.

Lemma mag_le (W g : Z) : 0 <= W < 2 ^ g -> 1 <= g -> mag W <= g.
Proof.
  intros [H0 Hlt] Hg.
  destruct (Z.eq_dec W 0) as [->|Hn]; [change (mag 0) with 1; lia|].
  pose proof (mag_bounds W ltac:(lia)) as [Hlo _].
  pose proof (mag_pos W).
  assert (2 ^ (mag W - 1) < 2 ^ g) by lia.
  destruct (Z_le_gt_dec (mag W) g) as [|Hgt]; [assumption|].
  pose proof (pow2_le g (mag W - 1) ltac:(lia)). lia.
Qed.

Lemma texp_le (W g : Z) :
  0 <= W < 2 ^ g -> K - 1021 <= g -> texp W <= g - 53.
Proof.
  intros HW Hg. pose proof K_eq.
  pose proof (mag_le W g HW ltac:(lia)). unfold texp. lia.
Qed.

Lemma rnd_close (W g : Z) :
  0 <= W < 2 ^ g -> K - 1021 <= g ->
  - 2 ^ (g - 53) <= 2 * (rnd W - W) <= 2 ^ (g - 53).
Proof.
  intros HW Hg. pose proof (rnd_err W ltac:(lia)) as He.
  pose proof (texp_le W g HW Hg) as Ht.
  pose proof (pow2_le (texp W) (g - 53) ltac:(pose proof (texp_nonneg W); lia)).
  lia.
Qed.

Lemma rnd_exact_int (n : Z) : 0 <= n <= 2 ^ 53 -> rnd (n * 2 ^ K) = n * 2 ^ K.
Proof.
  intros Hn. pose proof K_eq. apply rnd_fix.
  - pose proof (pow2_pos K). nia.
  - apply representable_mantissa; lia.
Qed.

Lemma rnds_exact_int (z : Z) : Z.abs z <= 2 ^ 53 -> rnds (z * 2 ^ K) = z * 2 ^ K.
Proof.
  intros Hz. pose proof K_eq. pose proof (pow2_pos K ltac:(lia)) as Hp.
  unfold rnds. destruct (Z.ltb_spec (z * 2 ^ K) 0).
  - replace (- (z * 2 ^ K)) with ((- z) * 2 ^ K) by ring.
    rewrite rnd_exact_int by nia. ring.
  - apply rnd_exact_int. nia.
Qed.

Lemma int_lt_INF (z : Z) : Z.abs z <= 2 ^ 53 -> - INF < z * 2 ^ K < INF.
Proof.
  intros Hz. pose proof K_eq. pose proof (pow2_pos K ltac:(lia)) as Hp.
  rewrite INF_split. assert (2 ^ 53 < 2 ^ 1024) by (apply Z.pow_lt_mono_r; lia).
  nia.
Qed.

Lemma ord_of_Z_small (z : Z) : Z.abs z <= 2 ^ 53 -> ord (of_Z z) = z * 2 ^ K.
Proof.
  intros Hz. rewrite of_Z_ord, rnds_exact_int by assumption.
  apply clamp_id. pose proof (int_lt_INF z Hz). lia.
Qed.

Lemma rate_exactb_ok (r : float) (pct : Z) :
  rate_exactb r pct = true -> rate_exact r pct.
Proof.
  unfold rate_exactb, rate_exact. intros H.
  apply andb_prop in H as [H Hr]. apply andb_prop in H as [H0 H30].
  apply Z.leb_le in H0, H30. split; [lia|].
  apply orb_prop in Hr as [Hz|Hf].
  - left. apply andb_prop in Hz as [Hz Hp]. apply Z.eqb_eq in Hp. auto.
  - right. destruct r as [s|s| |[|] m e]; try discriminate Hf.
    apply andb_prop in Hf as [Hf Hd]. apply andb_prop in Hf as [Hf He0].
    apply andb_prop in Hf as [V He].
    apply Z.leb_le in Hd, He0, He.
    exists m, e. split; [reflexivity|]. split; [exact V|].
    pose proof K_eq as HK. cbn [ord].
    pose proof (pow2_pos (K - 60) ltac:(lia)) as Hp.
    replace (2 ^ (e + K)) with (2 ^ (e + 60) * 2 ^ (K - 60))
      by (rewrite <- pow2_split by lia; f_equal; lia).
    replace (2 ^ K) with (2 ^ 60 * 2 ^ (K - 60))
      by (rewrite <- pow2_split by lia; f_equal; lia).
    replace (2 ^ (K - 55)) with (32 * 2 ^ (K - 60))
      by (change 32 with (2 ^ 5); rewrite <- pow2_split by lia; f_equal; lia).
    set (d := 100 * Z.pos m * 2 ^ (e + 60) - pct * 2 ^ 60) in *.
    replace (100 * (Z.pos m * (2 ^ (e + 60) * 2 ^ (K - 60))) -
             pct * (2 ^ 60 * 2 ^ (K - 60))) with (d * 2 ^ (K - 60))
      by (unfold d; ring).
    nia.
Qed.

(** ** One band: the deviation from the exact tax grows by a bounded amount

    In the arithmetic below [P] stands for [2^K], [u] for [2^(K-14)] and
    [v] for [2^(K-55)]; [T], [X], [R] are positions of floats and [A], [n],
    [p] exact cents, ringgit and percent. *)

Lemma scaled_dev (v u n d : Z) :
  0 < v -> u = 2 ^ 41 * v -> 0 <= n <= 2 ^ 41 ->
  - (100 * v) <= d <= 100 * v ->
  - (100 * u) <= n * d <= 100 * u.
Proof. intros Hv -> Hn Hd. nia. Qed.

Lemma product_small (v P n p R : Z) :
  0 < v -> P = 2 ^ 55 * v -> 0 <= n <= 2 ^ 41 -> 0 <= p <= 30 -> 0 <= R ->
  - (100 * v) <= 100 * R - p * P <= 100 * v ->
  0 <= n * R < 2 ^ 40 * P.
Proof.
  intros Hv -> Hn Hp HR Hd. split; [nia|].
  assert (100 * R <= 30 * (2 ^ 55 * v) + 100 * v) by nia.
  assert (100 * (n * R) <= 2 ^ 41 * (30 * (2 ^ 55 * v) + 100 * v)) by nia.
  lia.
Qed.

Lemma sum_small (v P u c L n p A e T R rX : Z) :
  0 < v -> P = 2 ^ 55 * v -> u = 2 ^ 41 * v ->
  0 <= n -> 0 <= L -> L + n <= c -> c <= 2 ^ 41 -> 0 <= p <= 30 ->
  0 <= A <= 30 * L ->
  0 <= e <= 2700 * u ->
  - e <= 100 * T - A * P <= e ->
  - (100 * u) <= n * (100 * R - p * P) <= 100 * u ->
  - u <= rX - n * R <= u ->
  0 <= T -> 0 <= rX ->
  0 <= T + rX < 2 ^ 40 * P.
Proof.
  intros Hv -> -> Hn HL Hc Hc2 Hp HA He HT Hd HX HT0 HX0. split; [lia|].
  assert (n * p <= 30 * n) by nia.
  assert (A + n * p <= 30 * c) by lia.
  assert ((A + n * p) * (2 ^ 55 * v) <= 30 * 2 ^ 41 * (2 ^ 55 * v)) by nia.
  lia.
Qed.

Lemma dev_grows (P u n p A e T R rX rS : Z) :
  - e <= 100 * T - A * P <= e ->
  - (100 * u) <= n * (100 * R - p * P) <= 100 * u ->
  - u <= rX - n * R <= u ->
  - u <= rS - (T + rX) <= u ->
  - (e + 300 * u) <= 100 * rS - (A + n * p) * P <= e + 300 * u.
Proof. intros HT Hd HX HS. lia. Qed.

Lemma tax_small (v P u L A e T : Z) :
  0 < v -> P = 2 ^ 55 * v -> u = 2 ^ 41 * v ->
  0 <= L <= 2 ^ 41 -> 0 <= A <= 30 * L -> 0 <= e <= 2700 * u ->
  - e <= 100 * T - A * P <= e ->
  T < 2 ^ 40 * P.
Proof.
  intros Hv -> -> HL HA He HT.
  assert (A * (2 ^ 55 * v) <= 30 * 2 ^ 41 * (2 ^ 55 * v)) by nia.
  lia.
Qed.

Lemma scale_le (a b P : Z) : 0 < P -> a <= b -> a * P <= b * P.
Proof. intros. nia. Qed.

Lemma scale_lt (a b P : Z) : 0 < P -> a < b -> a * P < b * P.
Proof. intros. nia. Qed.

Lemma pow2_K_units :
  2 ^ K = 2 ^ 55 * 2 ^ (K - 55) /\ 2 ^ (K - 14) = 2 ^ 41 * 2 ^ (K - 55) /\
  0 < 2 ^ (K - 55) /\ 2 ^ (K + 40) = 2 ^ 40 * 2 ^ K /\
  2 ^ (K + 40 - 53) = 2 * 2 ^ (K - 14).
Proof.
  pose proof K_eq as HK. split; [|split; [|split; [|split]]].
  - rewrite <- pow2_split by lia. f_equal; lia.
  - rewrite <- pow2_split by lia. f_equal; lia.
  - apply pow2_pos. lia.
  - rewrite Z.mul_comm, <- pow2_split by lia. reflexivity.
  - change 2 with (2 ^ 1) at 2. rewrite <- !pow2_split by lia. f_equal; lia.
Qed.

Lemma feqb_finite_zero (s : bool) (m : positive) (e : Z) :
  feqb (S754_finite s m e) zero = false.
Proof. destruct s; reflexivity. Qed.

Lemma INF_above : 2 ^ 53 * 2 ^ K < INF.
Proof.
  rewrite INF_split. pose proof K_eq. pose proof (pow2_pos K ltac:(lia)).
  apply Z.mul_lt_mono_pos_r; [assumption|]. apply Z.pow_lt_mono_r; lia.
Qed.

Lemma eqb_INF_lt (x : Z) : x < INF -> (x =? INF) = false.
Proof. intros H. apply Z.eqb_neq. lia. Qed.

Lemma close_lt_INF (x r : Z) :
  0 <= x < 2 ^ 40 * 2 ^ K ->
  - (2 * 2 ^ (K - 14)) <= 2 * (r - x) <= 2 * 2 ^ (K - 14) ->
  r < INF.
Proof.
  intros Hx Hr. pose proof INF_above as HI.
  pose proof pow2_K_units as (EP & Eu & Hv & _ & _).
  rewrite EP in *. rewrite Eu in *. set (v := 2 ^ (K - 55)) in *. clearbody v.
  lia.
Qed.

Lemma band_step (c : Z) (cf tax lower u r : float) (L U p A e : Z) :
  0 <= c <= 2 ^ 41 -> nng cf -> ord cf = c * 2 ^ K ->
  upper_exact c lower L -> upper_exact c u U -> L <= U -> rate_exact r p ->
  L < c ->
  nng tax -> 0 <= A <= 30 * L ->
  0 <= e <= 2700 * 2 ^ (K - 14) ->
  - e <= 100 * ord tax - A * 2 ^ K <= e ->
  nng (fadd tax (increment cf lower u r)) /\
  - (e + 300 * 2 ^ (K - 14)) <=
    100 * ord (fadd tax (increment cf lower u r))
    - (A + (Z.min c U - L) * p) * 2 ^ K
    <= e + 300 * 2 ^ (K - 14).
Proof.
  intros Hc Ncf Ocf Hlow Hup HLU Hrate HLc Ntax HA He Hdev.
  pose proof pow2_K_units as (EP & Eu & Hv & E40 & E13).
  pose proof K_eq as HK. pose proof INF_above as HI.
  pose proof (pow2_pos K ltac:(lia)) as HP.
  destruct Hlow as (Nl & HL0 & [Ol | [_ Hc']]); [|lia].
  destruct Hup as (Nu & HU0 & Hou).
  destruct Hrate as [Hp Hrate].
  set (n := Z.min c U - L).
  assert (Hn : 0 <= n /\ L + n <= c /\ L + n = Z.min c U) by (unfold n; lia).
  pose proof (scale_le c (2 ^ 53) _ HP ltac:(lia)) as HcI.
  pose proof (scale_le n (2 ^ 53) _ HP ltac:(lia)) as HnI.
  pose proof (scale_lt L c _ HP HLc) as HLcP.
  pose proof (scale_le L U _ HP HLU) as HLUP.
  pose proof (scale_le (L + n) c _ HP ltac:(lia)) as HMc.
  assert (Em : Z.min (ord cf) (ord u) = (L + n) * 2 ^ K).
  { destruct Hn as (_ & _ & ->).
    destruct Hou as [Ou | [-> HcU]].
    - rewrite Ocf, Ou. apply Z.mul_min_distr_nonneg_r. lia.
    - cbn [ord pinf]. rewrite Ocf, Z.min_l by lia.
      rewrite (Z.min_l c U) by lia. reflexivity. }
  assert (Hrok : rate_ok r).
  { destruct Hrate as [[Hz _]|(m & e0 & -> & V & _)]; [now left|right; eauto]. }
  assert (HlI : ord lower < INF) by (clear - Ol HLcP HcI HI; lia).
  assert (Hlc : ord lower < ord cf) by (clear - Ol Ocf HLcP; lia).
  assert (Hlu : ord lower <= ord u).
  { destruct Hou as [Ou | [-> HcU]]; [clear - Ol Ou HLUP; lia|].
    cbn [ord pinf]. clear - HlI. lia. }
  destruct (increment_nng cf lower u r Ncf Nl HlI Nu Hlu Hrok Hlc) as [Ni Oi].
  destruct (fadd_nng tax _ Ntax Ni) as [Nt Ot].
  split; [exact Nt|]. rewrite Ot, Oi. clear Ot Oi Nt Hlu Hlc HlI Ni.
  unfold increment_ord. rewrite Em, Ol.
  pose proof (nng_ord_bounds tax Ntax) as [HT0 _].
  pose proof (nng_rnd_fix tax Ntax) as HTfix.
  set (T := ord tax) in *.
  pose proof (tax_small _ _ _ L A e T Hv EP Eu ltac:(clear - HL0 HLc Hc; lia)
                HA He Hdev) as HTs.
  assert (HTI : T < INF) by (clear - HTs HI; lia).
  assert (HMI : (L + n) * 2 ^ K < INF) by (clear - HMc HcI HI; lia).
  assert (HnPI : n * 2 ^ K < INF) by (clear - HnI HI; lia).
  assert (Eosub : osub ((L + n) * 2 ^ K) (L * 2 ^ K) = n * 2 ^ K).
  { unfold osub. rewrite (eqb_INF_lt _ HMI).
    replace ((L + n) * 2 ^ K - L * 2 ^ K) with (n * 2 ^ K) by ring.
    apply rnd_exact_int. clear - Hn Hc HL0. lia. }
  rewrite Eosub. clear Eosub.
  fold n.
  destruct Hrate as [[Hz ->]|(m & e0 & -> & V & Hr)].
  - rewrite Hz. unfold oadd.
    rewrite (eqb_INF_lt _ HTI), (eqb_INF_lt 0 INF_pos). cbn [orb].
    rewrite Z.add_0_r, HTfix, Z.min_r by (clear - HTI; lia).
    replace (A + n * 0) with A by ring. clear - Hdev Hv Eu. lia.
  - rewrite feqb_finite_zero.
    pose proof (valid_fval_lt _ _ _ V) as [HR0 _].
    set (R := ord (S754_finite false m e0)) in *.
    assert (HR : 0 <= R) by (unfold R; cbn [ord]; clear - HR0; lia).
    assert (Hn41 : 0 <= n <= 2 ^ 41) by (clear - Hn Hc HL0; lia).
    pose proof (product_small _ _ n p R Hv EP Hn41 Hp HR Hr) as HX.
    pose proof (scaled_dev _ _ n _ Hv Eu Hn41 Hr) as Hd.
    assert (EX : n * 2 ^ K * R / 2 ^ K = n * R).
    { replace (n * 2 ^ K * R) with (n * R * 2 ^ K) by ring.
      apply Z.div_mul. clear - HP. lia. }
    unfold omul. rewrite (eqb_INF_lt _ HnPI), EX.
    pose proof (rnd_close (n * R) (K + 40)
                  ltac:(rewrite E40; exact HX) ltac:(clear; lia)) as HrX.
    rewrite E13 in HrX.
    pose proof (rnd_nonneg (n * R) (proj1 HX)) as HrX0.
    pose proof (close_lt_INF _ _ HX HrX) as HrXI.
    set (rX := rnd (n * R)) in *.
    rewrite (Z.min_r INF rX) by (clear - HrXI; lia).
    assert (HrX' : - 2 ^ (K - 14) <= rX - n * R <= 2 ^ (K - 14))
      by (clear - HrX; lia).
    pose proof (sum_small _ _ _ c L n p A e T R rX Hv EP Eu (proj1 Hn41) HL0
                  (proj1 (proj2 Hn)) (proj2 Hc) Hp HA He Hdev Hd HrX' HT0 HrX0) as HS.
    unfold oadd. rewrite (eqb_INF_lt _ HTI), (eqb_INF_lt _ HrXI). cbn [orb].
    pose proof (rnd_close (T + rX) (K + 40)
                  ltac:(rewrite E40; exact HS) ltac:(clear; lia)) as HrS.
    rewrite E13 in HrS.
    pose proof (close_lt_INF _ _ HS HrS) as HrSI.
    set (rS := rnd (T + rX)) in *.
    rewrite (Z.min_r INF rS) by (clear - HrSI; lia).
    assert (HrS' : - 2 ^ (K - 14) <= rS - (T + rX) <= 2 ^ (K - 14))
      by (clear - HrS; lia).
    exact (dev_grows _ _ n p A e T R rX rS Hdev Hd HrX' HrS').
Qed.

(** ** The loop *)

Lemma exact_rest_zero (c : Z) (bs : list (float * float * float)) :
  forall (ebs : list (Z * Z)) (L : Z),
    c <= L -> bands_exact c L bs ebs -> exact_tax_from L ebs c = 0.
Proof.
  induction bs as [|[[u b] r] rest IH]; intros [|[U p] erest] L Hc H;
    cbn [bands_exact] in H; try contradiction; cbn [exact_tax_from].
  - reflexivity.
  - destruct H as (HLU & _ & _ & Hrest).
    rewrite (IH erest U ltac:(lia) Hrest).
    rewrite Z.max_l by lia. lia.
Qed.

Lemma step_budget (j w : Z) :
  0 < w -> 0 <= j <= 9 -> 0 <= j * (300 * w) <= 2700 * w.
Proof. intros. nia. Qed.

Lemma next_budget (j w : Z) : j * (300 * w) + 300 * w = (j + 1) * (300 * w).
Proof. ring. Qed.

Lemma final_budget (j w : Z) :
  0 < w -> 0 <= j <= 10 -> j * (300 * w) <= 10 * (300 * w).
Proof. intros. nia. Qed.

Lemma next_cents (A L M p : Z) :
  0 <= A <= 30 * L -> L <= M -> 0 <= p <= 30 ->
  0 <= A + (M - L) * p <= 30 * M.
Proof. intros. nia. Qed.

Lemma scale_lt_inv (a b P : Z) : 0 < P -> a * P < b * P -> a < b.
Proof. intros. nia. Qed.

Lemma scale_le_inv (a b P : Z) : 0 < P -> a * P <= b * P -> a <= b.
Proof. intros. nia. Qed.

Lemma tax_loop_dev (c : Z) (cf : float) :
  0 <= c <= 2 ^ 41 -> nng cf -> ord cf = c * 2 ^ K ->
  forall bs ebs tax lower L A j,
    upper_exact c lower L -> bands_exact c L bs ebs ->
    nng tax -> 0 <= A <= 30 * L ->
    0 <= j -> j + Z.of_nat (length bs) <= 10 ->
    - (j * (300 * 2 ^ (K - 14))) <= 100 * ord tax - A * 2 ^ K
                                 <= j * (300 * 2 ^ (K - 14)) ->
    nng (tax_loop cf bs tax lower) /\
    - (10 * (300 * 2 ^ (K - 14))) <=
      100 * ord (tax_loop cf bs tax lower) - (A + exact_tax_from L ebs c) * 2 ^ K
      <= 10 * (300 * 2 ^ (K - 14)).
Proof.
  intros Hc Ncf Ocf.
  pose proof K_eq as HK.
  pose proof (pow2_pos K ltac:(lia)) as HP.
  pose proof (pow2_pos (K - 14) ltac:(lia)) as Hw.
  pose proof INF_above as HI.
  pose proof (scale_le c (2 ^ 53) _ HP ltac:(lia)) as HcI.
  induction bs as [|[[u b] r] rest IH];
    intros [|[U p] erest] tax lower L A j Hlow Hb Ntax HA Hj Hlen Hdev;
    cbn [bands_exact] in Hb; try contradiction.
  - cbn [tax_loop exact_tax_from]. split; [exact Ntax|].
    rewrite Z.add_0_r.
    pose proof (final_budget j _ Hw ltac:(cbn [length] in Hlen; lia)). lia.
  - destruct Hb as (HLU & Hup & Hrate & Hrest).
    cbn [length] in Hlen. rewrite Nat2Z.inj_succ in Hlen.
    rewrite tax_loop_cons.
    destruct Hlow as (Nl & HL0 & Hol).
    rewrite (fleb_nng cf lower Ncf Nl).
    destruct (Z.leb_spec (ord cf) (ord lower)) as [Hle|Hlt].
    + assert (HcL : c <= L).
      { destruct Hol as [Ol|[_ H]]; [|exact H].
        rewrite Ocf, Ol in Hle. exact (scale_le_inv _ _ _ HP Hle). }
      rewrite (exact_rest_zero c ((u, b, r) :: rest) ((U, p) :: erest) L HcL
                 ltac:(cbn [bands_exact]; auto)).
      split; [exact Ntax|]. rewrite Z.add_0_r.
      pose proof (final_budget j _ Hw ltac:(lia)). lia.
    + assert (HLc : L < c).
      { destruct Hol as [Ol|[-> _]].
        - rewrite Ocf, Ol in Hlt. exact (scale_lt_inv _ _ _ HP Hlt).
        - cbn [ord pinf] in Hlt. rewrite Ocf in Hlt. lia. }
      fold (increment cf lower u r).
      pose proof (step_budget j _ Hw ltac:(lia)) as He.
      destruct (band_step c cf tax lower u r L U p A _ Hc Ncf Ocf
                  (conj Nl (conj HL0 Hol)) Hup HLU Hrate HLc Ntax HA He Hdev)
        as [Nt Hd].
      rewrite next_budget in Hd.
      pose proof (next_cents A L (Z.min c U) p HA ltac:(lia) (proj1 Hrate)) as HA'.
      destruct (IH erest _ u U (A + (Z.min c U - L) * p) (j + 1)
                  Hup Hrest Nt ltac:(lia) ltac:(lia) ltac:(lia) Hd) as [Nres Hres].
      split; [exact Nres|].
      cbn [exact_tax_from]. rewrite (Z.max_r 0 (Z.min c U - L)) by lia.
      rewrite Z.add_assoc. exact Hres.
Qed.

(** ** The table against the exact table *)

Lemma upper_exact_of_Z (c U : Z) :
  0 <= U <= 2 ^ 53 -> upper_exact c (of_Z U) U.
Proof.
  intros HU. pose proof K_eq. pose proof (pow2_pos K ltac:(lia)).
  pose proof (ord_of_Z_small U ltac:(lia)) as Ho.
  split; [|split; [lia|now left]].
  split; [apply of_Z_good|]. rewrite Ho. nia.
Qed.

Lemma upper_exact_pinf (c U : Z) : 0 <= U -> c <= U -> upper_exact c pinf U.
Proof. intros HU Hc. split; [exact nng_pinf|]. split; [exact HU|]. now right. Qed.

Lemma brackets_exact (c : Z) :
  0 <= c -> bands_exact c 0 brackets (exact_bands ++ [(Z.max c 2000000, 30)]).
Proof.
  intros Hc. unfold brackets, exact_bands. cbn [app bands_exact].
  repeat match goal with
         | |- _ /\ _ => split
         | |- upper_exact _ (of_Z _) _ => apply upper_exact_of_Z; lia
         | |- upper_exact _ pinf _ => apply upper_exact_pinf; lia
         | |- rate_exact _ _ => apply rate_exactb_ok; vm_compute; reflexivity
         | |- _ <= _ => lia
         | |- True => exact I
         end.
Qed.

Lemma exact_tax_cents_top (c : Z) :
  exact_tax_from 0 (exact_bands ++ [(Z.max c 2000000, 30)]) c = exact_tax_cents c.
Proof.
  unfold exact_tax_cents, exact_bands. cbn [app exact_tax_from].
  rewrite (Z.min_l c (Z.max c 2000000)) by lia. ring.
Qed.

Lemma exact_bounds (c : Z) (bs : list (float * float * float)) :
  forall (ebs : list (Z * Z)) (L : Z),
    bands_exact c L bs ebs ->
    0 <= exact_tax_from L ebs c <= 30 * Z.max 0 (c - L).
Proof.
  induction bs as [|[[u b] r] rest IH]; intros [|[U p] erest] L H;
    cbn [bands_exact] in H; try contradiction; cbn [exact_tax_from].
  - lia.
  - destruct H as (HLU & _ & [Hp _] & Hrest).
    pose proof (IH erest U Hrest) as Hr.
    set (x := Z.max 0 (Z.min c U - L)).
    assert (Hx : 0 <= x /\ x + Z.max 0 (c - U) = Z.max 0 (c - L)) by (unfold x; lia).
    clearbody x. revert Hr. generalize (exact_tax_from U erest c).
    generalize dependent (Z.max 0 (c - U)). generalize (Z.max 0 (c - L)).
    intros M y Hx z Hz. nia.
Qed.

Lemma exact_tax_cents_bounds (c : Z) :
  0 <= c -> 0 <= exact_tax_cents c <= 30 * c.
Proof.
  intros Hc. rewrite <- exact_tax_cents_top.
  pose proof (exact_bounds c _ _ _ (brackets_exact c Hc)). lia.
Qed.

Lemma exact_tax_from_cons (L U p : Z) (rest : list (Z * Z)) (c : Z) :
  exact_tax_from L ((U, p) :: rest) c =
  Z.max 0 (Z.min c U - L) * p + exact_tax_from U rest c.
Proof. reflexivity. Qed.

Lemma exact_tax_cents_pos (c : Z) : 5000 < c -> 1 <= exact_tax_cents c.
Proof.
  intros Hc. rewrite <- exact_tax_cents_top.
  pose proof (brackets_exact c ltac:(lia)) as Hb.
  unfold brackets, exact_bands in Hb. cbn [app bands_exact] in Hb.
  destruct Hb as (_ & _ & _ & _ & _ & _ & Hrest).
  pose proof (exact_bounds c (tl (tl brackets))
                (tl (tl (exact_bands ++ [(Z.max c 2000000, 30)]))) 20000 Hrest)
    as [H0 _].
  clear Hrest. unfold exact_bands in *. cbn [app tl] in *.
  do 2 rewrite exact_tax_from_cons.
  revert H0. generalize (exact_tax_from 20000). intros f H0.
  revert H0. generalize (f ((35000, 3) :: (50000, 6) :: (70000, 11) :: (100000, 19)
                            :: (400000, 25) :: (600000, 26) :: (2000000, 28)
                            :: [(Z.max c 2000000, 30)]) c).
  intros y Hy. lia.
Qed.

(** ** The decimal literal of a number of cents *)

Lemma new_location_scale (r : Z) :
  new_location (100 * 2 ^ 46) (r * 2 ^ 46) = new_location 100 r.
Proof.
  unfold new_location.
  change (Z.even (100 * 2 ^ 46)) with true. change (Z.even 100) with true.
  cbv iota. unfold new_location_even.
  replace (r * 2 ^ 46 =? 0) with (r =? 0).
  2:{ destruct (Z.eqb_spec r 0) as [->|Hn]; [reflexivity|].
      symmetry. apply Z.eqb_neq. lia. }
  destruct (r =? 0); [reflexivity|]. f_equal.
  replace (2 * (r * 2 ^ 46)) with (2 * r * 2 ^ 46) by ring.
  apply cmp_scale. lia.
Qed.

Lemma div_core_canonical (m N : positive) (e : Z) :
  -52 <= e <= 0 -> mag (Z.pos m) = 53 -> Z.pos m = Z.pos N * 2 ^ (- e) ->
  SFdiv_core_binary prec emax (Z.pos m) e 7036874417766400 (-46) =
  SFdiv_core_binary prec emax (Z.pos N) 0 100 0.
Proof.
  intros He Hm Em.
  assert (HN : mag (Z.pos N) = 53 + e).
  { rewrite Em, mag_mul_pow2 in Hm by lia. lia. }
  rewrite div_core_hundred.
  assert (Ehe : hundred_exp (Z.pos N) = e - 7).
  { unfold hundred_exp. rewrite HN, fexp_eq. lia. }
  rewrite Ehe.
  change (SFdiv_core_binary prec emax (Z.pos m) e 7036874417766400 (-46)) with
    (let e' := Z.min (fexp prec emax (Z.pos (digits2_pos m) + e - (53 + -46)))
                     (e - -46) in
     let s := e - -46 - e' in
     let m' := match s with
               | Z.pos _ => Z.shiftl (Z.pos m) s
               | 0 => Z.pos m
               | Z.neg _ => 0
               end in
     let '(q, r) := Z.div_eucl m' (100 * 2 ^ 46) in
     (q, e', new_location (100 * 2 ^ 46) r)).
  rewrite digits2_mag, Hm, fexp_eq.
  replace (Z.min (Z.max (53 + e - (53 + -46) - 53) (-1074)) (e - -46))
    with (e - 7) by lia.
  cbv zeta. replace (e - -46 - (e - 7)) with 53 by lia.
  rewrite Z.shiftl_mul_pow2 by lia.
  rewrite div_eucl_eq.
  assert (EA : Z.pos N * 2 ^ (- (e - 7)) = Z.pos m * 2 ^ 7).
  { rewrite Em. replace (- (e - 7)) with (- e + 7) by lia.
    rewrite pow2_split by lia. ring. }
  rewrite EA.
  replace (Z.pos m * 2 ^ 53) with (Z.pos m * 2 ^ 7 * 2 ^ 46)
    by (change (2 ^ 53) with (2 ^ 7 * 2 ^ 46); ring).
  rewrite Z.div_mul_cancel_r by lia.
  rewrite Z.mul_mod_distr_r by lia.
  rewrite new_location_scale. reflexivity.
Qed.

Lemma of_Z_hundred : of_Z 100 = S754_finite false 7036874417766400 (-46).
Proof. reflexivity. Qed.

Lemma of_Z_canonical (N : positive) :
  Z.pos N < 2 ^ 53 ->
  exists m e,
    of_Z (Z.pos N) = S754_finite false m e /\
    -52 <= e <= 0 /\ mag (Z.pos m) = 53 /\ Z.pos m = Z.pos N * 2 ^ (- e).
Proof.
  intros HN. pose proof K_eq as HK. pose proof (pow2_pos K ltac:(lia)) as HP.
  pose proof (of_Z_good (Z.pos N)) as Hg.
  pose proof (ord_of_Z_small (Z.pos N) ltac:(lia)) as Ho.
  assert (Hnn : nng (of_Z (Z.pos N))) by (split; [exact Hg|]; rewrite Ho; lia).
  destruct (nng_cases _ Hnn) as [[s E]|[E|(m & e & E & V)]].
  - rewrite E in Ho. cbn [ord] in Ho. lia.
  - rewrite E in Ho. cbn [ord] in Ho. pose proof INF_above.
    assert (Z.pos N * 2 ^ K < 2 ^ 53 * 2 ^ K) by nia. lia.
  - exists m, e. split; [exact E|].
    rewrite E in Ho, V. cbn [ord] in Ho.
    pose proof (valid_finite_bounds _ _ _ V) as (Hb & Hm & Hd).
    assert (Hmag : mag (Z.pos m) + e = mag (Z.pos N)).
    { assert (H1 : mag (Z.pos m * 2 ^ (e + K)) = mag (Z.pos N * 2 ^ K)) by now rewrite Ho.
      rewrite !mag_mul_pow2 in H1 by lia. lia. }
    pose proof (mag_le (Z.pos N) 53 ltac:(lia) ltac:(lia)) as HN53.
    pose proof (mag_pos (Z.pos N)) as HNp.
    assert (Hm53 : mag (Z.pos m) = 53) by lia.
    split; [lia|]. split; [exact Hm53|].
    replace (2 ^ K) with (2 ^ (- e) * 2 ^ (e + K)) in Ho
      by (rewrite <- pow2_split by lia; f_equal; lia).
    pose proof (pow2_pos (e + K) ltac:(lia)).
    rewrite Z.mul_assoc in Ho. apply Z.mul_reg_r in Ho; lia.
Qed.

Lemma dec2_val (N : positive) :
  Z.pos N < 2 ^ 53 ->
  dec2 (Z.pos N) = decode false (rndq (Z.pos N * 2 ^ K) 100).
Proof.
  intros HN. destruct (of_Z_canonical N HN) as (m & e & E & He & Hm & Em).
  rewrite <- fdiv_hundred. unfold dec2. rewrite E, of_Z_hundred.
  unfold fdiv. cbn [SFdiv].
  rewrite (div_core_canonical m N e He Hm Em). reflexivity.
Qed.

(** ** Whole amounts *)

Lemma py_float_int (float_of_str : pystr -> option float) (z : Z) :
  Z.abs z <= 10 ^ 12 -> py_float float_of_str (PyInt z) = Return (of_Z z).
Proof.
  intros Hz.
  assert (Hf : is_finite (of_Z z) = true).
  { apply of_Z_finite. apply Z.le_trans with (10 ^ 12); [exact Hz|].
    vm_compute. discriminate. }
  cbn [py_float]. destruct (of_Z z); try reflexivity; discriminate Hf.
Qed.

Lemma chargeable_int (i r : Z) :
  Z.abs i <= 10 ^ 12 -> Z.abs r <= 10 ^ 12 ->
  nng (py_max zero (fsub (of_Z i) (of_Z r))) /\
  ord (py_max zero (fsub (of_Z i) (of_Z r))) = Z.max 0 (i - r) * 2 ^ K.
Proof.
  intros Hi Hr. pose proof K_eq as HK. pose proof (pow2_pos K ltac:(lia)) as HP.
  destruct (of_Z_good i) as [Vi Ni]. destruct (of_Z_good r) as [Vr Nr].
  split; [now apply chg_nng|].
  rewrite chg_ord by assumption.
  rewrite !ord_of_Z_small by lia.
  pose proof (int_lt_INF i ltac:(lia)) as Bi.
  pose proof (int_lt_INF r ltac:(lia)) as Br.
  pose proof (int_lt_INF (i - r) ltac:(lia)) as Bd.
  unfold echg.
  rewrite (proj2 (Z.eqb_neq (i * 2 ^ K) (- INF))) by lia.
  rewrite (proj2 (Z.eqb_neq (r * 2 ^ K) INF)) by lia.
  rewrite (proj2 (Z.eqb_neq (i * 2 ^ K) INF)) by lia.
  rewrite (proj2 (Z.eqb_neq (r * 2 ^ K) (- INF))) by lia.
  replace (i * 2 ^ K - r * 2 ^ K) with ((i - r) * 2 ^ K) by ring.
  rewrite rnds_exact_int by lia. rewrite clamp_id by lia.
  rewrite <- Z.mul_max_distr_nonneg_r by lia. reflexivity.
Qed.

Lemma exact_tax_cents_zero (c : Z) : 0 <= c <= 5000 -> exact_tax_cents c = 0.
Proof.
  intros Hc. rewrite <- exact_tax_cents_top.
  pose proof (brackets_exact c ltac:(lia)) as Hb.
  unfold brackets, exact_bands in Hb. cbn [app bands_exact] in Hb.
  destruct Hb as (_ & _ & _ & Hrest).
  pose proof (exact_rest_zero c (tl brackets)
                (tl (exact_bands ++ [(Z.max c 2000000, 30)])) 5000
                ltac:(lia) Hrest) as H0.
  unfold exact_bands in *. cbn [app tl] in *.
  rewrite exact_tax_from_cons, H0. lia.
Qed.

Lemma hundredths_of_close (W N w : Z) :
  0 < w -> 2 ^ K = 2 ^ 14 * w ->
  - (10 * (300 * w)) <= 100 * W - N * 2 ^ K <= 10 * (300 * w) ->
  hundredths W = N.
Proof.
  intros Hw EP H. unfold hundredths. apply rhe_close.
  - rewrite EP. lia.
  - rewrite EP in *. lia.
Qed.

Lemma pow2_K_14 : 2 ^ K = 2 ^ 14 * 2 ^ (K - 14).
Proof. pose proof K_eq. rewrite <- pow2_split by lia. f_equal; lia. Qed.

Lemma tax_whole (c : Z) (cf : float) :
  5000 < c <= 2 ^ 41 -> nng cf -> ord cf = c * 2 ^ K ->
  py_round2 (tax_loop cf brackets zero zero) = Return (dec2 (exact_tax_cents c)).
Proof.
  intros Hc Ncf Ocf. pose proof K_eq as HK.
  pose proof (pow2_pos K ltac:(lia)) as HP.
  pose proof (pow2_pos (K - 14) ltac:(lia)) as Hw.
  pose proof pow2_K_14 as EP. pose proof INF_above as HI.
  pose proof (exact_tax_cents_pos c ltac:(lia)) as HN1.
  pose proof (exact_tax_cents_bounds c ltac:(lia)) as [_ HN30].
  assert (Hz : upper_exact c zero 0).
  { split; [exact nng_zero|]. split; [lia|]. left. reflexivity. }
  destruct (tax_loop_dev c cf ltac:(lia) Ncf Ocf brackets _ zero zero 0 0 0 Hz
              (brackets_exact c ltac:(lia)) nng_zero ltac:(lia) ltac:(lia)
              ltac:(vm_compute; discriminate)
              ltac:(cbn [ord zero]; lia)) as [Nt Hd].
  rewrite exact_tax_cents_top, Z.add_0_l in Hd.
  set (N := exact_tax_cents c) in *.
  set (t := tax_loop cf brackets zero zero) in *.
  assert (HNP : N * 2 ^ K <= 30 * 2 ^ 41 * 2 ^ K) by nia.
  assert (HNP1 : 2 ^ K <= N * 2 ^ K) by nia.
  clearbody N t.
  destruct (nng_cases t Nt) as [[s ->]|[->|(m & e & -> & V)]].
  - cbn [ord] in Hd. rewrite EP in *. lia.
  - cbn [ord] in Hd. rewrite EP in *. lia.
  - rewrite (py_round2_finite _ _ _ V). f_equal.
    cbn [ord] in Hd. unfold r2.
    rewrite (hundredths_of_close _ N _ Hw EP Hd).
    destruct N as [|n|n]; try lia.
    symmetry. apply dec2_val. lia.
Qed.

(** X23.  Whole amounts are taxed to the cent.  For integer income and
    relief of magnitude up to [10**12], given as [int] or as the [float] of
    that integer, the result is the double nearest to the exact tax: the
    exact number of cents, computed in integers from the table on
    [max(0, income - relief)], divided by 100. *)
Theorem calculate_tax_exact_on_whole_amounts
    (float_of_str : pystr -> option float) (income tax_relief : Z) :
  Z.abs income <= 10 ^ 12 -> Z.abs tax_relief <= 10 ^ 12 ->
  calculate_tax float_of_str (PyInt income) (PyInt tax_relief) =
    Return (dec2 (exact_tax_cents (Z.max 0 (income - tax_relief)))) /\
  calculate_tax float_of_str (PyFloat (of_Z income)) (PyFloat (of_Z tax_relief)) =
    Return (dec2 (exact_tax_cents (Z.max 0 (income - tax_relief)))).
Proof.
  intros Hi Hr. pose proof K_eq as HK. pose proof (pow2_pos K ltac:(lia)) as HP.
  rewrite (calculate_tax_run float_of_str (PyInt income) (PyInt tax_relief)
             (of_Z income) (of_Z tax_relief)
             (py_float_int _ _ Hi) (py_float_int _ _ Hr)).
  rewrite (calculate_tax_run float_of_str (PyFloat (of_Z income))
             (PyFloat (of_Z tax_relief)) (of_Z income) (of_Z tax_relief)
             eq_refl eq_refl).
  destruct (chargeable_int income tax_relief Hi Hr) as [Ncf Ocf].
  set (cf := py_max zero (fsub (of_Z income) (of_Z tax_relief))) in *.
  set (c := Z.max 0 (income - tax_relief)) in *.
  assert (Hc : 0 <= c <= 2 ^ 41) by (unfold c; lia).
  assert (E : py_round2 (tax_loop cf brackets zero zero) =
              Return (dec2 (exact_tax_cents c))).
  { destruct (Z_le_gt_dec c 5000) as [Hle|Hgt].
    - rewrite exact_tax_cents_zero by lia.
      rewrite tax_loop_first_band; [reflexivity|].
      destruct (upper_exact_of_Z c 5000 ltac:(lia)) as (N5 & _ & [O5|[H5 _]]);
        [|discriminate H5].
      rewrite (fleb_nng cf (of_Z 5000) Ncf N5), Ocf, O5.
      apply Z.leb_le. nia.
    - apply tax_whole; [lia|exact Ncf|exact Ocf]. }
  split; exact E.
Qed.

Lemma calculate_tax_exact_on_whole_amounts_witness :
  calculate_tax (fun _ => None) (PyInt 93000) (PyInt 9000) =
    Return (dec2 636000) /\
  calculate_tax (fun _ => None) (PyFloat (of_Z 93000)) (PyFloat (of_Z 9000)) =
    Return (dec2 636000).
Proof.
  apply (calculate_tax_exact_on_whole_amounts (fun _ => None) 93000 9000);
    vm_compute; discriminate.
Defined.
